(** * db_utils: the sharded url store and its hash-prefix matcher

    A shallow embedding of [db_utils.py].  The SQLite store behind the
    [apsw] connection is a record of tables; every Python function is a
    computation over a [world] (store, error log, statements sent to the
    engine) that either returns or raises.  SHA-256 ([hashlib.sha256]) is
    written out after FIPS 180-4 so that [compute_url_hash] evaluates. *)

From Stdlib Require Import ZArith Strings.Byte Strings.String.
From stdpp Require Import base option list gmap strings.

Local Open Scope Z_scope.

(** ** Byte strings

    Python [bytes] values and SQLite blobs are lists of bytes.  A text value
    (a url, a file name, a vendor) is a [string]: the UTF-8 bytes of the
    Python [str], which is what [str.encode()] yields and what SQLite stores. *)

Abbreviation bytes := (list byte).

Definition Z_of_byte (b : byte) : Z := Z.of_N (Byte.to_N b).

Definition byte_of_Z (z : Z) : byte :=
  match Byte.of_N (Z.to_N (z mod 256)) with
  | Some b => b
  | None => x00
  end.

#[global] Instance byte_eq_decision : EqDecision byte := Byte.byte_eq_dec.

(** [str.encode()]: the bytes of a text value. *)
Definition encode (s : string) : bytes := list_byte_of_string s.

(** ** SHA-256 *)

Module SHA256.

Definition mask32 (x : Z) : Z := Z.land x 0xFFFFFFFF.

Definition add32 (x y : Z) : Z := mask32 (x + y).

Definition rotr (x n : Z) : Z :=
  Z.lor (Z.shiftr x n) (mask32 (Z.shiftl x (32 - n))).

Definition ch (e f g : Z) : Z :=
  Z.lxor (Z.land e f) (Z.land (Z.lxor e 0xFFFFFFFF) g).

Definition maj (a b c : Z) : Z :=
  Z.lxor (Z.lxor (Z.land a b) (Z.land a c)) (Z.land b c).

Definition bsig0 (a : Z) : Z := Z.lxor (Z.lxor (rotr a 2) (rotr a 13)) (rotr a 22).
Definition bsig1 (e : Z) : Z := Z.lxor (Z.lxor (rotr e 6) (rotr e 11)) (rotr e 25).
Definition ssig0 (w : Z) : Z := Z.lxor (Z.lxor (rotr w 7) (rotr w 18)) (Z.shiftr w 3).
Definition ssig1 (w : Z) : Z := Z.lxor (Z.lxor (rotr w 17) (rotr w 19)) (Z.shiftr w 10).

(** The constants come from the first primes: the round constants are the
    first 32 bits of the fractional parts of the cube roots of the first 64
    primes, the initial chaining value those of the square roots of the
    first 8. *)
Definition is_prime (p : Z) : bool :=
  forallb (λ d, negb (p mod d =? 0)) (seqZ 2 (p - 2)).

Definition primes : list Z := filter (λ p, is_prime p = true) (seqZ 2 310).

(** The largest [r] below [2 ^ bits] with [r ^ 3 <= n], bit by bit. *)
Fixpoint cube_root (bits : nat) (n r : Z) : Z :=
  match bits with
  | O => r
  | S bits' =>
      let r' := r + 2 ^ Z.of_nat bits' in
      cube_root bits' n (if r' * r' * r' <=? n then r' else r)
  end.

Definition frac_cube_root (p : Z) : Z := mask32 (cube_root 36 (p * 2 ^ 96) 0).

Definition frac_square_root (p : Z) : Z := mask32 (Z.sqrt (p * 2 ^ 64)).

Definition round_constants : list Z := Eval vm_compute in frac_cube_root <$> primes.

(** The eight working words a..h, also the chaining value. *)
Record regs := Regs { ra : Z; rb : Z; rc : Z; rd : Z; re : Z; rf : Z; rg : Z; rh : Z }.

Definition initial_regs : regs :=
  match frac_square_root <$> take 8 primes with
  | [a; b; c; d; e; f; g; h] => Regs a b c d e f g h
  | _ => Regs 0 0 0 0 0 0 0 0
  end.

(** Big-endian word of four bytes, and back. *)
Definition word_of_bytes (b3 b2 b1 b0 : byte) : Z :=
  Z.lor (Z.lor (Z.shiftl (Z_of_byte b3) 24) (Z.shiftl (Z_of_byte b2) 16))
        (Z.lor (Z.shiftl (Z_of_byte b1) 8) (Z_of_byte b0)).

Definition bytes_of_word (w : Z) : bytes :=
  [ byte_of_Z (Z.shiftr w 24); byte_of_Z (Z.shiftr w 16);
    byte_of_Z (Z.shiftr w 8); byte_of_Z w ].

Fixpoint words_of_bytes (bs : bytes) : list Z :=
  match bs with
  | b3 :: b2 :: b1 :: b0 :: rest => word_of_bytes b3 b2 b1 b0 :: words_of_bytes rest
  | _ => []
  end.

(** Padding: 0x80, zero bytes up to 56 modulo 64, the bit length on 8 bytes. *)
Definition length_bytes (bits : Z) : bytes :=
  bytes_of_word (Z.shiftr bits 32) ++ bytes_of_word bits.

Definition pad (msg : bytes) : bytes :=
  let n := Z.of_nat (length msg) in
  msg ++ [x80] ++ replicate (Z.to_nat ((55 - n) mod 64)) x00
      ++ length_bytes ((8 * n) mod 2 ^ 64).

(** The message schedule: 16 words of the block, then 48 derived ones.
    [rev_w] holds the words computed so far, newest first. *)
Definition next_word (rev_w : list Z) : Z :=
  match rev_w with
  | w1 :: w2 :: _ :: _ :: _ :: _ :: w7 :: _ :: _ :: _ :: _ :: _ :: _ :: _ :: w15 :: w16 :: _ =>
      add32 (add32 (ssig1 w2) w7) (add32 (ssig0 w15) w16)
  | _ => 0
  end.

Fixpoint extend (n : nat) (rev_w : list Z) : list Z :=
  match n with
  | O => rev_w
  | S n' => extend n' (next_word rev_w :: rev_w)
  end.

Definition schedule (block : list Z) : list Z := rev (extend 48 (rev block)).

Definition round (r : regs) (kw : Z * Z) : regs :=
  let '(k, w) := kw in
  let t1 := add32 (add32 (add32 (rh r) (bsig1 (re r))) (add32 (ch (re r) (rf r) (rg r)) k)) w in
  let t2 := add32 (bsig0 (ra r)) (maj (ra r) (rb r) (rc r)) in
  Regs (add32 t1 t2) (ra r) (rb r) (rc r) (add32 (rd r) t1) (re r) (rf r) (rg r).

Definition add_regs (x y : regs) : regs :=
  Regs (add32 (ra x) (ra y)) (add32 (rb x) (rb y)) (add32 (rc x) (rc y))
       (add32 (rd x) (rd y)) (add32 (re x) (re y)) (add32 (rf x) (rf y))
       (add32 (rg x) (rg y)) (add32 (rh x) (rh y)).

Definition compress (h : regs) (block : list Z) : regs :=
  add_regs h (fold_left round (zip round_constants (schedule block)) h).

(** The padded message is consumed sixteen words at a time. *)
Fixpoint blocks (n : nat) (ws : list Z) (h : regs) : regs :=
  match n with
  | O => h
  | S n' => blocks n' (drop 16 ws) (compress h (take 16 ws))
  end.

Definition output (h : regs) : bytes :=
  bytes_of_word (ra h) ++ bytes_of_word (rb h) ++ bytes_of_word (rc h) ++
  bytes_of_word (rd h) ++ bytes_of_word (re h) ++ bytes_of_word (rf h) ++
  bytes_of_word (rg h) ++ bytes_of_word (rh h).

(** [hashlib.sha256(msg).digest()] *)
Definition digest (msg : bytes) : bytes :=
  let ws := words_of_bytes (pad msg) in
  output (blocks (length ws / 16) ws initial_regs).

Definition hex_digit (n : Z) : string :=
  String.substring (Z.to_nat n) 1 "0123456789abcdef".

Definition hexdigest (msg : bytes) : string :=
  String.concat "" (map (fun b => hex_digit (Z_of_byte b / 16) +:+ hex_digit (Z_of_byte b mod 16))
                        (digest msg)).

End SHA256.

(** ** The Hash Codec *)

(** [compute_url_hash(url)]: [sha256(f"{url}/".encode()).digest()], on a url
    held as its UTF-8 bytes, as every url of the store is.  The call on a
    Python [str], which need not have UTF-8 bytes, is
    [Python.compute_url_hash] below. *)
Definition compute_url_hash (url : string) : bytes :=
  SHA256.digest (encode (url +:+ "/")).

(** ** The store

    Three kinds of tables live in [urls.db]: the registry [urls_filenames],
    the prefix index [maliciousHashPrefixes] and one [urls_{id}] table per
    ingested source.  A table that was never created is absent; a statement
    that names an absent table fails with an [apsw.Error].  Rows are kept in
    insertion order; nothing below depends on the order in which SQLite
    returns them.  Timestamps are SQLite integers, [NULL] is [None]. *)

Record url_row := UrlRow {
  url : string;
  lastListed : option Z;
  lastGoogleMalicious : option Z;
  lastYandexMalicious : option Z;
  lastReachable : option Z;
  hash : bytes
}.

Record prefix_row := PrefixRow {
  hashPrefix : bytes;
  prefixSize : Z;
  vendor : string
}.

Record filename_row := FilenameRow {
  id : Z;
  urls_filename : string
}.

(** [tbl_urls] maps the [id] of [urls_{id}] to the table's rows. *)
Record db := Db {
  tbl_urls_filenames : option (list filename_row);
  tbl_maliciousHashPrefixes : option (list prefix_row);
  tbl_urls : gmap Z (list url_row)
}.

#[global] Instance url_row_eq_decision : EqDecision url_row.
Proof. solve_decision. Defined.
#[global] Instance prefix_row_eq_decision : EqDecision prefix_row.
Proof. solve_decision. Defined.
#[global] Instance filename_row_eq_decision : EqDecision filename_row.
Proof. solve_decision. Defined.

(** The database file before [initialise_database] has run. *)
Definition empty_db : db := Db None None ∅.

Definition with_urls (d : db) (table : Z) (rows : list url_row) : db :=
  Db (tbl_urls_filenames d) (tbl_maliciousHashPrefixes d) (<[table := rows]> (tbl_urls d)).

Definition with_prefixes (d : db) (rows : list prefix_row) : db :=
  Db (tbl_urls_filenames d) (Some rows) (tbl_urls d).

Definition with_filenames (d : db) (rows : list filename_row) : db :=
  Db (Some rows) (tbl_maliciousHashPrefixes d) (tbl_urls d).

Definition rows_of (d : db) (table : Z) : list url_row :=
  default [] (tbl_urls d !! table).

Inductive table_name :=
| T_urls_filenames
| T_maliciousHashPrefixes
| T_urls (id : Z).

(** The status columns the updaters write. *)
Inductive column := C_lastGoogleMalicious | C_lastYandexMalicious | C_lastReachable.

(** The statements the module sends to the engine, with their bindings.
    [placeholders] counts the question marks the text of the [UPDATE] carries
    in its [IN] list. *)
Inductive stmt :=
| CreateUrlsTable (table : Z)
| SelectIdWhereFilename (filename : string)
| InsertUrlOnConflict (table : Z) (url : string) (lastListed : Z) (hash : bytes)
| DeletePrefixesWhereVendor (vendor : string)
| InsertPrefix (hashPrefix : bytes) (prefixSize : Z) (vendor : string)
| SelectIds
| SelectDistinctPrefixSize (vendor : string)
| SelectUrlJoinPrefixes (table : Z) (prefixSize : Z) (vendor : string)
| CreateFilenamesTable
| InsertOrIgnoreFilename (name : string)
| CreatePrefixesTable
| UpdateWhereUrlIn (table : Z) (col : column) (placeholders : nat)
                   (updateTime : Z) (urls : list string).

(** A statement whose [IN] list has no placeholder. *)
Definition empty_in_list (s : stmt) : bool :=
  match s with
  | UpdateWhereUrlIn _ _ O _ _ => true
  | _ => false
  end.

(** ** Outcomes and the computation monad *)

Inductive apsw_error :=
| NoSuchTable (t : table_name)
| IncorrectBindings
| TooManyVariables.

Inductive exn :=
| Error (e : apsw_error)
| IndexError
| ValueError
| UnboundLocalError
| UnicodeEncodeError.

Inductive outcome (A : Type) :=
| Returns (a : A)
| Raises (e : exn).
Arguments Returns {A} a.
Arguments Raises {A} e.

(** [store] is the database, [log] what [logging.error] received, [sent] the
    statements executed so far.  Connections are assumed to open. *)
Record world := World {
  store : db;
  log : list apsw_error;
  sent : list stmt
}.

(** A new run: nothing logged, nothing sent. *)
Definition start (d : db) : world := World d [] [].

Definition set_store (d : db) (w : world) : world := World d (log w) (sent w).

(** The world after more statements were sent. *)
Definition sends (l : list stmt) (w : world) : world :=
  World (store w) (log w) (sent w ++ l).

(** What a call added to the statements sent. *)
Definition sent_since (w w' : world) : list stmt := drop (length (sent w)) (sent w').

Definition M (A : Type) : Type := world → outcome A * world.

Definition ret {A} (a : A) : M A := λ w, (Returns a, w).
Definition raise {A} (e : exn) : M A := λ w, (Raises e, w).
Definition bind {A B} (m : M A) (k : A → M B) : M B :=
  λ w, match m w with
       | (Returns a, w') => k a w'
       | (Raises e, w') => (Raises e, w')
       end.

#[global] Instance M_ret : MRet M := @ret.
#[global] Instance M_bind : MBind M := λ A B k m, bind m k.

Definition get_store : M db := λ w, (Returns (store w), w).
Definition put_store (d : db) : M unit := λ w, (Returns (), set_store d w).
Definition send (s : stmt) : M unit :=
  λ w, (Returns (), World (store w) (log w) (sent w ++ [s])).
Definition logging_error (e : apsw_error) : M unit :=
  λ w, (Returns (), World (store w) (log w ++ [e]) (sent w)).

Definition no_such_table {A} (t : table_name) : M A := raise (Error (NoSuchTable t)).

(** [with conn: body]: commit on a clean exit, roll the connection's writes
    back and re-raise on an exception. *)
Definition with_conn {A} (body : M A) : M A :=
  λ w, match body w with
       | (Returns a, w') => (Returns a, w')
       | (Raises e, w') => (Raises e, set_store (store w) w')
       end.

(** [try: body / except Error as e: logging.error(e)]: only an [apsw.Error]
    is caught; the value is [None] when the handler ran. *)
Definition try_except_Error {A} (body : M A) : M (option A) :=
  λ w, match body w with
       | (Returns a, w') => (Returns (Some a), w')
       | (Raises (Error e), w') => (logging_error e;; mret None) w'
       | (Raises e, w') => (Raises e, w')
       end.

(** [for x in xs: body x] *)
Fixpoint for_each {A} (xs : list A) (body : A → M unit) : M unit :=
  match xs with
  | [] => mret ()
  | x :: xs' => body x;; for_each xs' body
  end.

(** A loop that grows a local list; the list built so far survives an
    exception raised in the body. *)
Definition growing (B : Type) : Type := list B → world → list B * outcome unit * world.

Fixpoint for_growing {A B} (xs : list A) (body : A → growing B) : growing B :=
  λ acc w,
    match xs with
    | [] => (acc, Returns (), w)
    | x :: xs' =>
        match body x acc w with
        | (acc', Returns _, w') => for_growing xs' body acc' w'
        | (acc', Raises e, w') => (acc', Raises e, w')
        end
    end.

(** [acc += [x[0] for x in cur.fetchall()]] *)
Definition extend_with {B} (query : M (list B)) : growing B :=
  λ acc w,
    match query w with
    | (Returns found, w') => (acc ++ found, Returns (), w')
    | (Raises e, w') => (acc, Raises e, w')
    end.

(** [xs[0]] *)
Definition index0 {A} (xs : list A) : M A :=
  match xs with
  | x :: _ => mret x
  | [] => raise IndexError
  end.

(** Reading a local variable that the [try] block may not have bound. *)
Definition read_local {A} (v : option A) : M A :=
  match v with
  | Some a => mret a
  | None => raise UnboundLocalError
  end.

(** ** What the engine does with each statement

    Every [execute_*] below is one [cur.execute] call: the statement is
    recorded, then it fails when a table it names is absent, or else reads
    or rewrites the rows. *)

(** [CREATE TABLE IF NOT EXISTS urls_{id} (...)] *)
Definition execute_create_urls_table (table : Z) : M unit :=
  send (CreateUrlsTable table);;
  d ← get_store;
  match tbl_urls d !! table with
  | Some _ => mret ()
  | None => put_store (with_urls d table [])
  end.

(** The rows of [SELECT id from urls_filenames where urls_filename=? LIMIT 1]. *)
Definition select_id (filename : string) (reg : list filename_row) : list Z :=
  take 1 (id <$> filter (λ r, urls_filename r = filename) reg).

Definition execute_select_id (filename : string) : M (list Z) :=
  send (SelectIdWhereFilename filename);;
  d ← get_store;
  match tbl_urls_filenames d with
  | None => no_such_table T_urls_filenames
  | Some reg => mret (select_id filename reg)
  end.

(** [SELECT id FROM urls_filenames] *)
Definition execute_select_ids : M (list Z) :=
  send SelectIds;;
  d ← get_store;
  match tbl_urls_filenames d with
  | None => no_such_table T_urls_filenames
  | Some reg => mret (id <$> reg)
  end.

Definition set_lastListed (t : option Z) (r : url_row) : url_row :=
  UrlRow (url r) t (lastGoogleMalicious r) (lastYandexMalicious r) (lastReachable r) (hash r).

(** [INSERT ... ON CONFLICT(url) DO UPDATE SET lastListed=excluded.lastListed]
    on the rows of one table: the row that holds the url keeps everything but
    [lastListed]; without one, the new row goes in. *)
Fixpoint upsert (excluded : url_row) (rows : list url_row) : list url_row :=
  match rows with
  | [] => [excluded]
  | r :: rows' =>
      if decide (url r = url excluded)
      then set_lastListed (lastListed excluded) r :: rows'
      else r :: upsert excluded rows'
  end.

Definition execute_upsert (table : Z) (url : string) (lastListed : Z) (hash : bytes) : M unit :=
  send (InsertUrlOnConflict table url lastListed hash);;
  d ← get_store;
  match tbl_urls d !! table with
  | None => no_such_table (T_urls table)
  | Some rows =>
      put_store (with_urls d table (upsert (UrlRow url (Some lastListed) None None None hash) rows))
  end.

(** [DELETE FROM maliciousHashPrefixes WHERE vendor = ?] *)
Definition execute_delete_prefixes (v : string) : M unit :=
  send (DeletePrefixesWhereVendor v);;
  d ← get_store;
  match tbl_maliciousHashPrefixes d with
  | None => no_such_table T_maliciousHashPrefixes
  | Some rows => put_store (with_prefixes d (filter (λ p, vendor p ≠ v) rows))
  end.

(** [INSERT INTO maliciousHashPrefixes (hashPrefix,prefixSize,vendor) VALUES (?, ?, ?)] *)
Definition execute_insert_prefix (hashPrefix : bytes) (prefixSize : Z) (v : string) : M unit :=
  send (InsertPrefix hashPrefix prefixSize v);;
  d ← get_store;
  match tbl_maliciousHashPrefixes d with
  | None => no_such_table T_maliciousHashPrefixes
  | Some rows => put_store (with_prefixes d (rows ++ [PrefixRow hashPrefix prefixSize v]))
  end.

(** [SELECT DISTINCT prefixSize from maliciousHashPrefixes WHERE vendor = ?] *)
Definition distinct_prefixSizes (v : string) (rows : list prefix_row) : list Z :=
  remove_dups (prefixSize <$> filter (λ p, vendor p = v) rows).

Definition execute_select_distinct_prefixSize (v : string) : M (list Z) :=
  send (SelectDistinctPrefixSize v);;
  d ← get_store;
  match tbl_maliciousHashPrefixes d with
  | None => no_such_table T_maliciousHashPrefixes
  | Some rows => mret (distinct_prefixSizes v rows)
  end.

(** SQLite's [substring(X,1,n)] on a blob: its first [n] bytes, all of it
    when it is shorter, nothing when [n] is not positive. *)
Definition substring1 (X : bytes) (n : Z) : bytes := take (Z.to_nat n) X.

(** The [WHERE] clause of the join. *)
Definition join_where (prefixSize : Z) (v : string) (r : url_row) (p : prefix_row) : Prop :=
  substring1 (hash r) prefixSize = hashPrefix p ∧ vendor p = v.

#[global] Instance join_where_dec n v r p : Decision (join_where n v r p).
Proof. unfold join_where. apply _. Defined.

(** [SELECT url from urls_{id} INNER JOIN maliciousHashPrefixes WHERE ...]:
    one result row per pair of a url row and a prefix row that pass. *)
Definition select_url_join (prefixSize : Z) (v : string)
    (rows : list url_row) (prefixes : list prefix_row) : list string :=
  r ← rows; p ← prefixes;
  if decide (join_where prefixSize v r p) then [url r] else [].

Definition execute_select_url_join (table : Z) (prefixSize : Z) (v : string) : M (list string) :=
  send (SelectUrlJoinPrefixes table prefixSize v);;
  d ← get_store;
  match tbl_urls d !! table, tbl_maliciousHashPrefixes d with
  | None, _ => no_such_table (T_urls table)
  | _, None => no_such_table T_maliciousHashPrefixes
  | Some rows, Some prefixes => mret (select_url_join prefixSize v rows prefixes)
  end.

(** [CREATE TABLE IF NOT EXISTS urls_filenames (...)] *)
Definition execute_create_filenames_table : M unit :=
  send CreateFilenamesTable;;
  d ← get_store;
  match tbl_urls_filenames d with
  | Some _ => mret ()
  | None => put_store (with_filenames d [])
  end.

(** The rowid SQLite gives a row inserted with [id] NULL: one more than the
    largest in use, 1 in an empty table. *)
Definition next_rowid (reg : list filename_row) : Z :=
  match reg with
  | [] => 1
  | r :: reg' => 1 + foldr Z.max (id r) (id <$> reg')
  end.

(** [INSERT OR IGNORE into urls_filenames (id,urls_filename) VALUES (NULL, ?)] *)
Definition insert_or_ignore (name : string) (reg : list filename_row) : list filename_row :=
  if decide (name ∈ urls_filename <$> reg) then reg
  else reg ++ [FilenameRow (next_rowid reg) name].

Definition execute_insert_or_ignore_filename (name : string) : M unit :=
  send (InsertOrIgnoreFilename name);;
  d ← get_store;
  match tbl_urls_filenames d with
  | None => no_such_table T_urls_filenames
  | Some reg => put_store (with_filenames d (insert_or_ignore name reg))
  end.

(** [CREATE TABLE IF NOT EXISTS maliciousHashPrefixes (...)] *)
Definition execute_create_prefixes_table : M unit :=
  send CreatePrefixesTable;;
  d ← get_store;
  match tbl_maliciousHashPrefixes d with
  | Some _ => mret ()
  | None => put_store (with_prefixes d [])
  end.

Definition set_column (col : column) (t : option Z) (r : url_row) : url_row :=
  match col with
  | C_lastGoogleMalicious =>
      UrlRow (url r) (lastListed r) t (lastYandexMalicious r) (lastReachable r) (hash r)
  | C_lastYandexMalicious =>
      UrlRow (url r) (lastListed r) (lastGoogleMalicious r) t (lastReachable r) (hash r)
  | C_lastReachable =>
      UrlRow (url r) (lastListed r) (lastGoogleMalicious r) (lastYandexMalicious r) t (hash r)
  end.

(** The rows of [UPDATE urls_{id} SET col = ? WHERE url IN (?,...,?)]. *)
Definition update_where_url_in (col : column) (updateTime : Z) (urls : list string)
    (rows : list url_row) : list url_row :=
  (λ r, if decide (url r ∈ urls) then set_column col (Some updateTime) r else r) <$> rows.

(** The most question marks one statement may carry: SQLite's
    [SQLITE_MAX_VARIABLE_NUMBER], 32766 as the library is built since
    3.32. *)
Definition SQLITE_MAX_VARIABLE_NUMBER : Z := 32766.

(** The question marks of the [UPDATE]: the one of [SET col = ?] and those
    of the [IN] list. *)
Definition update_variables (placeholders : nat) : Z := 1 + Z.of_nat placeholders.

(** The parser numbers the question marks as it meets them and refuses the
    statement at the first one over the limit, before any table is looked
    up.  The bindings are the time and the urls, one per placeholder.  SQLite
    accepts an empty [IN ()] list: no row passes it. *)
Definition execute_update (table : Z) (col : column) (placeholders : nat)
    (updateTime : Z) (urls : list string) : M unit :=
  send (UpdateWhereUrlIn table col placeholders updateTime urls);;
  if decide (SQLITE_MAX_VARIABLE_NUMBER < update_variables placeholders)
  then raise (Error TooManyVariables)
  else
    d ← get_store;
    match tbl_urls d !! table with
    | None => no_such_table (T_urls table)
    | Some rows =>
        if decide (placeholders = length urls)
        then put_store (with_urls d table (update_where_url_in col updateTime urls rows))
        else raise (Error IncorrectBindings)
    end.

(** ** The functions of [db_utils.py] *)

Definition create_urls_table (table : Z) : M unit :=
  try_except_Error (with_conn (execute_create_urls_table table));; mret ().

Definition add_URLs (urls : list string) (updateTime : Z) (filename : string) : M unit :=
  let lastListed := updateTime in
  try_except_Error (
    table ← with_conn (ids ← execute_select_id filename; index0 ids);
    create_urls_table table;;
    with_conn (for_each urls (λ url,
      execute_upsert table url lastListed (compute_url_hash url))));;
  mret ().

Definition add_maliciousHashPrefixes (hash_prefixes : list bytes) (vendor : string) : M unit :=
  try_except_Error (with_conn (
    execute_delete_prefixes vendor;;
    for_each hash_prefixes (λ hashPrefix,
      execute_insert_prefix hashPrefix (Z.of_nat (length hashPrefix)) vendor)));;
  mret ().

Definition get_urls_tables : M (list Z) :=
  urls_tables ← try_except_Error (with_conn execute_select_ids);
  read_local urls_tables.

(** The two loops of [identify_suspected_urls]. *)
Definition scan_sizes (vendor : string) (prefixSizes : list Z) (urls_table : Z)
    : growing string :=
  for_growing prefixSizes (λ prefixSize,
    extend_with (execute_select_url_join urls_table prefixSize vendor)).

Definition scan_tables (vendor : string) (prefixSizes : list Z) (urls_tables : list Z)
    : growing string :=
  for_growing urls_tables (scan_sizes vendor prefixSizes).

(** The [try] block of [identify_suspected_urls], with the state of the local
    [suspected_urls] where it stopped ([None]: not yet bound).  The
    transaction only reads. *)
Definition identify_suspected_urls_try (vendor : string)
    : world → option (list string) * outcome unit * world :=
  λ w,
    match execute_select_distinct_prefixSize vendor w with
    | (Raises e, w1) => (None, Raises e, w1)
    | (Returns prefixSizes, w1) =>
        let suspected_urls := [] in
        match get_urls_tables w1 with
        | (Raises e, w2) => (Some suspected_urls, Raises e, w2)
        | (Returns urls_tables, w2) =>
            let '(suspected_urls, o, w3) :=
              scan_tables vendor prefixSizes urls_tables suspected_urls w2 in
            (Some suspected_urls, o, w3)
        end
    end.

Definition identify_suspected_urls (vendor : string) : M (list string) :=
  λ w,
    let '(suspected_urls, o, w') := identify_suspected_urls_try vendor w in
    match o with
    | Returns _ => read_local suspected_urls w'
    | Raises (Error e) => (logging_error e;; read_local suspected_urls) w'
    | Raises e => (Raises e, w')
    end.

Definition create_filenames_table (urls_filenames : list string) : M unit :=
  try_except_Error (with_conn (
    execute_create_filenames_table;;
    for_each urls_filenames execute_insert_or_ignore_filename));;
  mret ().

Definition create_maliciousHashPrefixes_table : M unit :=
  try_except_Error (with_conn execute_create_prefixes_table);; mret ().

Definition initialise_database (urls_filenames : list string) : M unit :=
  create_filenames_table urls_filenames;;
  create_maliciousHashPrefixes_table.

(** [vendorToColumn = {"Google": ..., "Yandex": ...}] as a lookup. *)
Definition vendorToColumn (vendor : string) : option column :=
  if decide (vendor = "Google") then Some C_lastGoogleMalicious
  else if decide (vendor = "Yandex") then Some C_lastYandexMalicious
  else None.

(** The body of the fan-out loops: one shard, in its own [try]. *)
Definition update_shard (col : column) (placeholders : nat) (updateTime : Z)
    (urls : list string) (urls_table : Z) : M unit :=
  try_except_Error (with_conn (
    execute_update urls_table col placeholders updateTime urls));;
  mret ().

Definition update_malicious_URLs (malicious_urls : list string) (updateTime : Z)
    (vendor : string) : M unit :=
  let number_of_malicious_urls := length malicious_urls in
  urls_tables ← get_urls_tables;
  match vendorToColumn vendor with
  | None => raise ValueError
  | Some col =>
      for_each urls_tables
        (update_shard col number_of_malicious_urls updateTime malicious_urls)
  end.

Definition update_activity_URLs (alive_urls : list string) (updateTime : Z) : M unit :=
  let number_of_alive_urls := length alive_urls in
  urls_tables ← get_urls_tables;
  for_each urls_tables
    (update_shard C_lastReachable number_of_alive_urls updateTime alive_urls).

(** ** What the calls compute

    Closed forms of what the loops above leave behind, and the vocabulary of
    the properties. *)

(** *** Ingestion *)

(** The row [add_URLs] inserts for a new url. *)
Definition new_url_row (lastListed : Z) (u : string) : url_row :=
  UrlRow u (Some lastListed) None None None (compute_url_hash u).

(** The rows of a table after the batch of [add_URLs] went through. *)
Definition upsert_urls (lastListed : Z) (urls : list string) (rows : list url_row)
    : list url_row :=
  foldl (λ rows u, upsert (new_url_row lastListed u) rows) rows urls.

Definition upsert_stmts (table : Z) (lastListed : Z) (urls : list string) : list stmt :=
  (λ u, InsertUrlOnConflict table u lastListed (compute_url_hash u)) <$> urls.

(** The row a table holds for a url. *)
Definition row_of (u : string) (rows : list url_row) : option url_row :=
  head (filter (λ r, url r = u) rows).

(** The url has a row and the row was last listed at [t]. *)
Definition listed_at (t : Z) (rows : list url_row) (u : string) : Prop :=
  ∃ r, row_of u rows = Some r ∧ lastListed r = Some t.

(** The rows [add_URLs] writes: the hash column holds the url's hash. *)
Definition hash_of_url (r : url_row) : Prop := hash r = compute_url_hash (url r).

(** The file name was never registered: the registry, if the store has one,
    holds no row for it. *)
Definition never_registered (filename : string) (d : db) : Prop :=
  match tbl_urls_filenames d with
  | Some reg => filename ∉ urls_filename <$> reg
  | None => True
  end.

(** The claim C9 makes of a call with such a file name: it raises, with the
    store as it was. *)
Definition fails_before_writing (call : M unit) (w : world) : Prop :=
  ∃ e w', call w = (Raises e, w') ∧ store w' = store w.

(** *** The hash codec *)

(** What is hashed: the url's bytes followed by one slash. *)
Definition hashed_message (u : string) : bytes := encode u ++ ["/"%byte].

(** Two different messages with one digest. *)
Definition collision (m1 m2 : bytes) : Prop :=
  m1 ≠ m2 ∧ SHA256.digest m1 = SHA256.digest m2.

(** *** The hash codec on Python strings

    A Python [str] is a sequence of code points, each in [0, 0x10FFFF].
    [str.encode()] is the UTF-8 encoder with the [strict] error handler: a
    surrogate (a code point in [0xD800, 0xDFFF]) has no encoding, and the
    call raises [UnicodeEncodeError]. *)

Module Python.

Definition str := list Z.

Definition is_code_point (c : Z) : Prop := 0 ≤ c ≤ 0x10FFFF.

Definition is_surrogate (c : Z) : Prop := 0xD800 ≤ c ≤ 0xDFFF.

(** The code points UTF-8 encodes. *)
Definition is_scalar_value (c : Z) : Prop := is_code_point c ∧ ¬ is_surrogate c.

(** The values of the one to four bytes that encode a code point. *)
Definition utf8_values (c : Z) : option (list Z) :=
  if decide (c < 0) then None
  else if decide (c < 0x80) then Some [c]
  else if decide (c < 0x800) then Some [0xC0 + c / 64; 0x80 + c mod 64]
  else if decide (is_surrogate c) then None
  else if decide (c < 0x10000) then
    Some [0xE0 + c / 4096; 0x80 + c / 64 mod 64; 0x80 + c mod 64]
  else if decide (c < 0x110000) then
    Some [0xF0 + c / 262144; 0x80 + c / 4096 mod 64; 0x80 + c / 64 mod 64; 0x80 + c mod 64]
  else None.

Definition encode_code_point (c : Z) : option bytes :=
  match utf8_values c with
  | Some zs => Some (byte_of_Z <$> zs)
  | None => None
  end.

(** [s.encode()]; [None] stands for [UnicodeEncodeError]. *)
Fixpoint str_encode (s : str) : option bytes :=
  match s with
  | [] => Some []
  | c :: s' =>
      match encode_code_point c, str_encode s' with
      | Some b, Some bs => Some (b ++ bs)
      | _, _ => None
      end
  end.

(** The [str] of a text of ASCII characters. *)
Definition of_ascii (s : string) : str := Z_of_byte <$> list_byte_of_string s.

(** [bytes.hex()] *)
Definition hex (bs : bytes) : string :=
  String.concat ""
    ((λ b, SHA256.hex_digit (Z_of_byte b / 16) +:+ SHA256.hex_digit (Z_of_byte b mod 16))
       <$> bs).

(** [compute_url_hash(url)]: [sha256(f"{url}/".encode()).digest()], on the
    [str] the caller passes. *)
Definition compute_url_hash (url : str) : outcome bytes :=
  match str_encode (url ++ [0x2F]) with
  | Some message => Returns (SHA256.digest message)
  | None => Raises UnicodeEncodeError
  end.

(** The claim C5 makes of a string: the call returns a digest. *)
Definition returns_a_digest (url : str) : Prop :=
  ∃ h, compute_url_hash url = Returns h.

(** [compute_url_hash(url).hex()], when the call returns. *)
Definition hexdigest_of (url : str) : option string :=
  match compute_url_hash url with
  | Returns h => Some (hex h)
  | Raises _ => None
  end.

#[global] Instance is_scalar_value_dec (c : Z) : Decision (is_scalar_value c).
Proof. unfold is_scalar_value, is_code_point, is_surrogate. apply _. Defined.

#[global] Instance is_surrogate_dec (c : Z) : Decision (is_surrogate c).
Proof. unfold is_surrogate. apply _. Defined.

(** A url with a letter of two bytes, one of three and one of four. *)
Definition beyond_ascii : str :=
  of_ascii "http://" ++ [0xE9; 0x20AC; 0x1F600] ++ of_ascii ".example/".

(** A url whose message fills more than one block of the digest. *)
Definition two_blocks : str :=
  of_ascii "http://example.com/aaaaaaaaaaaaaaaaaaaaaaaaaaaaaaaaaaaaaaaaaaaaaaaaaaaaaaaaaaaa".

End Python.

(** *** The prefix index *)

(** The row written for a prefix. *)
Definition prefix_entry (v : string) (hashPrefix : bytes) : prefix_row :=
  PrefixRow hashPrefix (Z.of_nat (length hashPrefix)) v.

(** The index after the vendor's prefixes were replaced. *)
Definition replace_prefixes (v : string) (hash_prefixes : list bytes)
    (rows : list prefix_row) : list prefix_row :=
  filter (λ p, vendor p ≠ v) rows ++ (prefix_entry v <$> hash_prefixes).

Definition insert_prefix_stmts (v : string) (hash_prefixes : list bytes) : list stmt :=
  (λ p, InsertPrefix p (Z.of_nat (length p)) v) <$> hash_prefixes.

(** Every stored prefix carries its byte length as [prefixSize]. *)
Definition prefix_sizes_exact (rows : list prefix_row) : Prop :=
  Forall (λ p, prefixSize p = Z.of_nat (length (hashPrefix p))) rows.

(** *** The registry *)

(** The registry's rows after a batch of names went through. *)
Definition register_all (names : list string) (reg : list filename_row)
    : list filename_row :=
  foldl (λ reg name, insert_or_ignore name reg) reg names.

(** Every registered shard has its table. *)
Definition shards_created (d : db) : Prop :=
  ∃ reg, tbl_urls_filenames d = Some reg ∧
         ∀ i, i ∈ id <$> reg → is_Some (tbl_urls d !! i).

(** *** The status updaters *)

Definition empty_in_stmts (col : column) (t : Z) (tables : list Z) : list stmt :=
  (λ urls_table, UpdateWhereUrlIn urls_table col 0 t []) <$> tables.

(** The claim C6 makes of a call with an empty batch: it returns, the store is
    as before, and no statement with an empty [IN] list was sent. *)
Definition guarded_no_op (call : M unit) (w : world) : Prop :=
  ∃ w', call w = (Returns (), w') ∧ store w' = store w ∧
        ∀ s, s ∈ sent_since w w' → empty_in_list s = false.

(** *** The matcher *)

(** What the queries of one shard add, over all the prefix sizes. *)
Definition suspects_in (v : string) (prefixSizes : list Z) (prefixes : list prefix_row)
    (rows : list url_row) : list string :=
  prefixSize ← prefixSizes; select_url_join prefixSize v rows prefixes.

(** What the queries of a list of shards add. *)
Definition suspects_of (v : string) (prefixes : list prefix_row) (d : db)
    (tables : list Z) : list string :=
  urls_table ← tables;
  suspects_in v (distinct_prefixSizes v prefixes) prefixes (rows_of d urls_table).

Definition join_stmts (v : string) (prefixSizes : list Z) (urls_table : Z) : list stmt :=
  (λ prefixSize, SelectUrlJoinPrefixes urls_table prefixSize v) <$> prefixSizes.

Definition scan_stmts (v : string) (prefixSizes : list Z) (urls_tables : list Z)
    : list stmt :=
  urls_table ← urls_tables; join_stmts v prefixSizes urls_table.

(** A row with url [u] and hash [h] sits in the table of a registered shard. *)
Definition stored_in_shard (d : db) (u : string) (h : bytes) : Prop :=
  ∃ reg urls_table rows r,
    tbl_urls_filenames d = Some reg ∧ urls_table ∈ id <$> reg ∧
    tbl_urls d !! urls_table = Some rows ∧ r ∈ rows ∧ url r = u ∧ hash r = h.

(** One of the vendor's distinct prefix sizes [L] is the length of a stored
    prefix of the vendor that equals the first [L] bytes of [h]. *)
Definition prefix_match (v : string) (prefixes : list prefix_row) (h : bytes) : Prop :=
  ∃ L p,
    L ∈ distinct_prefixSizes v prefixes ∧ p ∈ prefixes ∧ vendor p = v ∧
    Z.of_nat (length (hashPrefix p)) = L ∧ substring1 h L = hashPrefix p.

(** The claim C1 makes of a call of the matcher: it returns, and a url is in
    the list exactly when a shard table stores it with a matching hash. *)
Definition returns_the_matches (v : string) (w : world) : Prop :=
  ∃ result w' prefixes,
    identify_suspected_urls v w = (Returns result, w') ∧
    tbl_maliciousHashPrefixes (store w) = Some prefixes ∧
    ∀ u, u ∈ result ↔ ∃ h, stored_in_shard (store w) u h ∧ prefix_match v prefixes h.

(** The claim C2 makes: when the matcher returns a list, no storage error
    happened on the way (nothing went to the error log), so that a returned
    list always stands for a completed scan. *)
Definition failure_is_visible (v : string) (w : world) : Prop :=
  ∀ result w', identify_suspected_urls v w = (Returns result, w') → log w' = log w.

(** *** Constraints and views used by the further properties *)

(** The registry's constraints: [urls_filename] is [UNIQUE], [id] is the
    primary key. *)
Definition registry_unique (reg : list filename_row) : Prop :=
  NoDup (urls_filename <$> reg) ∧ NoDup (id <$> reg).

(** A shard table's [UNIQUE] constraint on [url]. *)
Definition urls_unique (rows : list url_row) : Prop := NoDup (url <$> rows).

(** The value a status column holds in a row. *)
Definition column_of (col : column) (r : url_row) : option Z :=
  match col with
  | C_lastGoogleMalicious => lastGoogleMalicious r
  | C_lastYandexMalicious => lastYandexMalicious r
  | C_lastReachable => lastReachable r
  end.

(** The shard tables after the fan-out of an updater went over [tables]:
    the tables that exist are rewritten, the others stay absent. *)
Definition update_tables (col : column) (updateTime : Z) (urls : list string)
    (tables : list Z) (m : gmap Z (list url_row)) : gmap Z (list url_row) :=
  foldl (λ m i, match m !! i with
                | Some rows => <[i := update_where_url_in col updateTime urls rows]> m
                | None => m
                end) m tables.

(** The errors the fan-out logs: one per shard without a table. *)
Definition missing_tables (m : gmap Z (list url_row)) (tables : list Z) : list apsw_error :=
  (λ i, NoSuchTable (T_urls i)) <$> filter (λ i, m !! i = None) tables.

Definition update_stmts (col : column) (updateTime : Z) (urls : list string)
    (tables : list Z) : list stmt :=
  (λ i, UpdateWhereUrlIn i col (length urls) updateTime urls) <$> tables.

(** The batch leaves room for the timestamp among the variables of one
    statement: it has fewer than 32766 urls. *)
Definition batch_fits (urls : list string) : Prop :=
  update_variables (length urls) ≤ SQLITE_MAX_VARIABLE_NUMBER.

#[global] Instance batch_fits_dec (urls : list string) : Decision (batch_fits urls).
Proof. unfold batch_fits. apply _. Defined.

(** The errors the fan-out logs when the batch does not fit: one per
    shard, with or without a table. *)
Definition refused_updates (tables : list Z) : list apsw_error :=
  (λ _, TooManyVariables) <$> tables.

(** Two rows the matcher cannot tell apart: same url, same hash. *)
Definition same_key (r r' : url_row) : Prop := url r = url r' ∧ hash r = hash r'.

(** Two stores the matcher cannot tell apart: the same registry and prefix
    index, the same shard tables present, row by row the same urls and
    hashes. *)
Definition same_match_view (d d' : db) : Prop :=
  tbl_urls_filenames d = tbl_urls_filenames d' ∧
  tbl_maliciousHashPrefixes d = tbl_maliciousHashPrefixes d' ∧
  ∀ i, option_Forall2 (Forall2 same_key) (tbl_urls d !! i) (tbl_urls d' !! i).

(** Every source the registry holds is unique by name and is one of
    [names]. *)
Definition registry_within (names : list string) (d : db) : Prop :=
  ∀ reg, tbl_urls_filenames d = Some reg →
         NoDup (urls_filename <$> reg) ∧ ∀ r, r ∈ reg → urls_filename r ∈ names.

(** The store with other shard tables. *)
Definition with_tables (d : db) (m : gmap Z (list url_row)) : db :=
  Db (tbl_urls_filenames d) (tbl_maliciousHashPrefixes d) m.

(** What an updater may do to a row: set column [col] to [t] if the row's url
    is listed, and nothing else. *)
Definition updated_row (col : column) (t : Z) (urls : list string)
    (r r' : url_row) : Prop :=
  url r' = url r ∧ hash r' = hash r ∧ lastListed r' = lastListed r ∧
  (∀ c, c ≠ col → column_of c r' = column_of c r) ∧
  column_of col r' = if decide (url r ∈ urls) then Some t else column_of col r.

(** A url comes out of one of the tables [tables]: a row of the table holds
    the url and a hash that starts with a prefix the index holds for the
    vendor. *)
Definition from_table (v : string) (prefixes : list prefix_row) (d : db)
    (tables : list Z) (u : string) : Prop :=
  ∃ i rows r p,
    i ∈ tables ∧ tbl_urls d !! i = Some rows ∧ r ∈ rows ∧ url r = u ∧
    p ∈ prefixes ∧ vendor p = v ∧ hashPrefix p `prefix_of` hash r.

(** ** Sample stores *)

Module Sample.

Definition evil : string := "http://evil.com/".

Definition evil_prefix : bytes := take 5 (compute_url_hash evil).

(** One registered source, ingested, and no prefix. *)
Definition one_shard : db :=
  Db (Some [FilenameRow 1 "list1"]) (Some []) {[ 1 := [new_url_row 100 evil] ]}.

(** One registered source, ingested, and a Google prefix of its url. *)
Definition one_shard_listed : db :=
  Db (Some [FilenameRow 1 "list1"]) (Some [prefix_entry "Google" evil_prefix])
     {[ 1 := [new_url_row 100 evil] ]}.

(** Two registered sources, of which only the second was ingested, and a
    Google prefix that matches the url it holds. *)
Definition second_shard_only : db :=
  Db (Some [FilenameRow 1 "list1"; FilenameRow 2 "list2"])
     (Some [prefix_entry "Google" evil_prefix])
     {[ 2 := [new_url_row 100 evil] ]}.


(** Two registered sources, both ingested; the sample url is in both, the
    second also holds another url. *)
Definition two_shards : db :=
  Db (Some [FilenameRow 1 "list1"; FilenameRow 2 "list2"])
     (Some [prefix_entry "Google" evil_prefix])
     {[ 1 := [new_url_row 100 evil];
        2 := [new_url_row 100 "http://good.example/"; new_url_row 100 evil] ]}.

(** Two registered sources, of which only the first was ingested, and a
    Google prefix that matches the url it holds. *)
Definition first_shard_only : db :=
  Db (Some [FilenameRow 1 "list1"; FilenameRow 2 "list2"])
     (Some [prefix_entry "Google" evil_prefix])
     {[ 1 := [new_url_row 100 evil] ]}.


(** A registry, but no prefix index. *)
Definition no_index : db :=
  Db (Some [FilenameRow 1 "list1"]) None {[ 1 := [new_url_row 100 evil] ]}.

End Sample.

(** ** Tactics *)

Ltac unfold_M :=
  unfold mbind, mret, M_bind, M_ret, bind, ret, raise, no_such_table,
    get_store, put_store, send, logging_error, set_store in *.

(** Membership in a list written out. *)
Ltac elem_of_literal :=
  repeat first [apply list_elem_of_here | apply list_elem_of_further].

Ltac not_elem_of_literal :=
  repeat (apply not_elem_of_cons; split; [discriminate|]); apply not_elem_of_nil.

(** * Properties *)

(** ** The Hash Codec *)

Module HashCodec.

(** The model of [hashlib.sha256] against the library's digests: the empty
    message, a one-block message and a message whose padding needs a second
    block. *)
Example digest_empty :
  SHA256.hexdigest (encode "") =
  "e3b0c44298fc1c149afbf4c8996fb92427ae41e4649b934ca495991b7852b855".
Proof. vm_compute. reflexivity. Qed.

Example digest_abc :
  SHA256.hexdigest (encode "abc") =
  "ba7816bf8f01cfea414140de5dae2223b00361a396177a9cb410ff61f20015ad".
Proof. vm_compute. reflexivity. Qed.

Example digest_two_blocks :
  SHA256.hexdigest (encode "aaaaaaaaaaaaaaaaaaaaaaaaaaaaaaaaaaaaaaaaaaaaaaaaaaaaaaaa") =
  "b35439a4ac6f0948b6d6f9e3c6af0f5f590ce20f1bde7090ef7970686ec6738a".
Proof. vm_compute. reflexivity. Qed.

Example digest_full_block :
  SHA256.hexdigest (encode "aaaaaaaaaaaaaaaaaaaaaaaaaaaaaaaaaaaaaaaaaaaaaaaaaaaaaaaaaaaaaaaa") =
  "ffe054fe7ae0cb6dc65c3af9b61d5209f439851db43d0ba5997337df154668eb".
Proof. vm_compute. reflexivity. Qed.

(** The derived constants at the ends of FIPS 180-4's tables. *)
Example constants_ends :
  length SHA256.round_constants = 64%nat ∧
  head SHA256.round_constants = Some 0x428a2f98 ∧
  last SHA256.round_constants = Some 0xc67178f2 ∧
  SHA256.ra SHA256.initial_regs = 0x6a09e667 ∧
  SHA256.rh SHA256.initial_regs = 0x5be0cd19.
Proof. vm_compute. repeat split; reflexivity. Qed.

(** [compute_url_hash("http://evil.com/")] is the digest of
    ["http://evil.com//"]. *)
Example compute_url_hash_evil :
  compute_url_hash Sample.evil = SHA256.digest (encode "http://evil.com//") ∧
  SHA256.hexdigest (encode "http://evil.com//") =
  "481771a68f35b13c2a18fe4410cdd5875fc967b5f9e846bd29b6b55719a6a11d".
Proof. split; vm_compute; reflexivity. Qed.

Lemma digest_length (msg : bytes) : length (SHA256.digest msg) = 32%nat.
Proof. unfold SHA256.digest, SHA256.output, SHA256.bytes_of_word. reflexivity. Qed.

Lemma encode_app (a b : string) : encode (a +:+ b) = encode a ++ encode b.
Proof.
  unfold encode, list_byte_of_string.
  induction a as [|c a IH]; simpl; [reflexivity|].
  f_equal. exact IH.
Qed.

Lemma encode_inj (a b : string) : encode a = encode b → a = b.
Proof.
  intros H.
  rewrite <- (string_of_list_byte_of_string a), <- (string_of_list_byte_of_string b).
  unfold encode in H. rewrite H. reflexivity.
Qed.

Lemma hashed_message_inj (u1 u2 : string) :
  hashed_message u1 = hashed_message u2 → u1 = u2.
Proof.
  unfold hashed_message. intros H.
  apply app_inv_tail in H. apply encode_inj, H.
Qed.

Lemma compute_url_hash_unfold (u : string) :
  compute_url_hash u = SHA256.digest (hashed_message u).
Proof. unfold compute_url_hash. rewrite encode_app. reflexivity. Qed.


(** *** Python strings and their UTF-8 bytes *)

Lemma Z_of_byte_of_Z (z : Z) : 0 ≤ z < 256 → Z_of_byte (byte_of_Z z) = z.
Proof.
  intros Hz. unfold Z_of_byte, byte_of_Z.
  rewrite Z.mod_small by lia.
  destruct (Byte.of_N (Z.to_N z)) as [b|] eqn:E.
  - apply Byte.to_of_N in E. rewrite E. lia.
  - apply Byte.of_N_None_iff in E. lia.
Qed.

Lemma Z_of_byte_of_Z_list (zs : list Z) :
  Forall (λ z, 0 ≤ z < 256) zs → Z_of_byte <$> (byte_of_Z <$> zs) = zs.
Proof.
  induction 1 as [|z zs Hz _ IH]; [reflexivity|].
  rewrite !fmap_cons, IH, Z_of_byte_of_Z by exact Hz. reflexivity.
Qed.

(** Every value of an encoding is a byte. *)
Lemma utf8_values_bytes (c : Z) (zs : list Z) :
  Python.utf8_values c = Some zs → Forall (λ z, 0 ≤ z < 256) zs.
Proof.
  unfold Python.utf8_values, Python.is_surrogate.
  intros Hv. repeat case_decide; simplify_eq;
    repeat (constructor; [Z.div_mod_to_equations; lia|]); constructor.
Qed.

(** UTF-8 is a prefix code: the first byte tells the length, the bytes the
    code point. *)
Lemma utf8_values_inj_app (c1 c2 : Z) (z1 z2 r1 r2 : list Z) :
  Python.utf8_values c1 = Some z1 → Python.utf8_values c2 = Some z2 →
  z1 ++ r1 = z2 ++ r2 → c1 = c2.
Proof.
  unfold Python.utf8_values, Python.is_surrogate.
  intros Hv1 Hv2 Happ. repeat case_decide; simplify_eq/=;
    Z.div_mod_to_equations; lia.
Qed.

Lemma utf8_values_scalar (c : Z) :
  Python.is_scalar_value c → is_Some (Python.utf8_values c).
Proof.
  unfold Python.is_scalar_value, Python.is_code_point, Python.utf8_values,
    Python.is_surrogate.
  intros [Hc Hs]. repeat case_decide; try (eexists; reflexivity); lia.
Qed.

Lemma utf8_values_surrogate (c : Z) :
  Python.is_surrogate c → Python.utf8_values c = None.
Proof.
  unfold Python.utf8_values. intros Hs. pose proof Hs as Hs'.
  unfold Python.is_surrogate in Hs'.
  repeat case_decide; try reflexivity; try contradiction; lia.
Qed.

Lemma encode_code_point_inj_app (c1 c2 : Z) (b1 b2 r1 r2 : bytes) :
  Python.encode_code_point c1 = Some b1 → Python.encode_code_point c2 = Some b2 →
  b1 ++ r1 = b2 ++ r2 → c1 = c2 ∧ r1 = r2.
Proof.
  unfold Python.encode_code_point.
  destruct (Python.utf8_values c1) as [z1|] eqn:E1; [|discriminate].
  destruct (Python.utf8_values c2) as [z2|] eqn:E2; [|discriminate].
  intros [= <-] [= <-] Happ.
  assert (Hc : c1 = c2).
  { apply (utf8_values_inj_app c1 c2 z1 z2 (Z_of_byte <$> r1) (Z_of_byte <$> r2) E1 E2).
    rewrite <- (Z_of_byte_of_Z_list z1), <- (Z_of_byte_of_Z_list z2)
      by (eapply utf8_values_bytes; eassumption).
    rewrite <- !fmap_app, Happ. reflexivity. }
  subst c2. rewrite E1 in E2. injection E2 as <-.
  split; [reflexivity|]. eapply app_inv_head, Happ.
Qed.

Lemma encode_code_point_not_nil (c : Z) (b : bytes) :
  Python.encode_code_point c = Some b → b ≠ [].
Proof.
  unfold Python.encode_code_point, Python.utf8_values.
  repeat case_decide; intros [= <-]; discriminate.
Qed.

(** Two strings with the same bytes are the same string. *)
Lemma str_encode_inj (s1 : Python.str) :
  ∀ (s2 : Python.str) (m : bytes),
    Python.str_encode s1 = Some m → Python.str_encode s2 = Some m → s1 = s2.
Proof.
  induction s1 as [|c1 s1 IH]; intros [|c2 s2] m; cbn [Python.str_encode].
  - reflexivity.
  - intros [= <-].
    destruct (Python.encode_code_point c2) as [b2|] eqn:E2; [|discriminate].
    destruct (Python.str_encode s2) as [m2|]; [|discriminate].
    intros [= Hnil]. apply app_eq_nil in Hnil as [-> _].
    exfalso. exact (encode_code_point_not_nil c2 [] E2 eq_refl).
  - destruct (Python.encode_code_point c1) as [b1|] eqn:E1; [|discriminate].
    destruct (Python.str_encode s1) as [m1|]; [|discriminate].
    intros [= <-] [= Hnil]. symmetry in Hnil. apply app_eq_nil in Hnil as [-> _].
    exfalso. exact (encode_code_point_not_nil c1 [] E1 eq_refl).
  - destruct (Python.encode_code_point c1) as [b1|] eqn:E1; [|discriminate].
    destruct (Python.str_encode s1) as [m1|] eqn:Es1; [|discriminate].
    destruct (Python.encode_code_point c2) as [b2|] eqn:E2; [|discriminate].
    destruct (Python.str_encode s2) as [m2|] eqn:Es2; [|discriminate].
    intros [= <-] [= Happ]. symmetry in Happ.
    destruct (encode_code_point_inj_app c1 c2 b1 b2 m1 m2 E1 E2 Happ) as [-> ->].
    f_equal. exact (IH s2 m2 eq_refl Es2).
Qed.

Lemma str_encode_app (s t : Python.str) :
  Python.str_encode (s ++ t) =
  match Python.str_encode s, Python.str_encode t with
  | Some a, Some b => Some (a ++ b)
  | _, _ => None
  end.
Proof.
  induction s as [|c s IH]; cbn [app Python.str_encode].
  - destruct (Python.str_encode t); reflexivity.
  - rewrite IH. destruct (Python.encode_code_point c) as [b|]; [|reflexivity].
    destruct (Python.str_encode s) as [a|]; [|reflexivity].
    destruct (Python.str_encode t) as [b'|]; [|reflexivity].
    rewrite app_assoc. reflexivity.
Qed.

Lemma str_encode_scalar (s : Python.str) :
  Forall Python.is_scalar_value s → is_Some (Python.str_encode s).
Proof.
  induction 1 as [|c s Hc _ [m IH]]; [eexists; reflexivity|].
  cbn [Python.str_encode]. unfold Python.encode_code_point.
  destruct (utf8_values_scalar c Hc) as [zs ->]. rewrite IH. eexists. reflexivity.
Qed.

Lemma str_encode_surrogate (s : Python.str) :
  Exists Python.is_surrogate s → Python.str_encode s = None.
Proof.
  induction 1 as [c s Hc|c s _ IH]; cbn [Python.str_encode].
  - unfold Python.encode_code_point. rewrite utf8_values_surrogate by exact Hc. reflexivity.
  - rewrite IH. destruct (Python.encode_code_point c); reflexivity.
Qed.

Lemma str_encode_slash : Python.str_encode [0x2F] = Some ["/"%byte].
Proof. vm_compute. reflexivity. Qed.

(** The call on a string in terms of the string's bytes. *)
Lemma compute_url_hash_str (u : Python.str) :
  Python.compute_url_hash u =
  match Python.str_encode u with
  | Some m => Returns (SHA256.digest (m ++ ["/"%byte]))
  | None => Raises UnicodeEncodeError
  end.
Proof.
  unfold Python.compute_url_hash. rewrite str_encode_app, str_encode_slash.
  destruct (Python.str_encode u); reflexivity.
Qed.

(** The hash of a text held as its UTF-8 bytes. *)
Lemma compute_url_hash_of_bytes (m : bytes) :
  compute_url_hash (string_of_list_byte m) = SHA256.digest (m ++ ["/"%byte]).
Proof.
  rewrite compute_url_hash_unfold. unfold hashed_message, encode.
  rewrite list_byte_of_string_of_list_byte. reflexivity.
Qed.

(** C5, amended.  [compute_url_hash] is a function of the [str] it is given.
    On a string with a surrogate code point it raises [UnicodeEncodeError].
    On every other string (code points that UTF-8 encodes) it returns the
    SHA-256 digest, 32 bytes, of the string's UTF-8 bytes followed by one
    ['/'] byte, which is the hash the store keeps for the text.  Two strings
    on which it returns the same digest are the same string or their
    slash-terminated messages are a SHA-256 collision.  The digests are
    those of [hashlib]: of an ASCII url, of a url with letters of two, three
    and four bytes, and of a url whose message fills more than one block. *)
Theorem compute_url_hash_digest_of_utf8_and_slash (u1 u2 : Python.str) :
  (Exists Python.is_surrogate u1 →
   Python.compute_url_hash u1 = Raises UnicodeEncodeError) ∧
  (Forall Python.is_scalar_value u1 →
   ∃ m, Python.str_encode u1 = Some m ∧
        Python.compute_url_hash u1 = Returns (SHA256.digest (m ++ ["/"%byte])) ∧
        Python.compute_url_hash u1 = Returns (compute_url_hash (string_of_list_byte m)) ∧
        length (SHA256.digest (m ++ ["/"%byte])) = 32%nat) ∧
  (∀ h, Python.compute_url_hash u1 = Returns h →
        Python.compute_url_hash u2 = Returns h →
        u1 = u2 ∨
        ∃ m1 m2, Python.str_encode u1 = Some m1 ∧ Python.str_encode u2 = Some m2 ∧
                 collision (m1 ++ ["/"%byte]) (m2 ++ ["/"%byte])) ∧
  Python.hexdigest_of (Python.of_ascii "http://evil.com/") =
    Some "481771a68f35b13c2a18fe4410cdd5875fc967b5f9e846bd29b6b55719a6a11d" ∧
  Python.hexdigest_of Python.beyond_ascii =
    Some "1d9fc6d6135313fcfb5a54e88bebe7766dad5bbf423c04ce5363102c94b6f860" ∧
  Python.hexdigest_of Python.two_blocks =
    Some "13dc8dbc5c54e687e34a65acc0fa08bff4635fbf76c59a7fba09e2067c31e7ac".
Proof.
  split.
  { intros Hs. rewrite compute_url_hash_str, str_encode_surrogate by exact Hs.
    reflexivity. }
  split.
  { intros Hs. destruct (str_encode_scalar u1 Hs) as [m Hm]. exists m.
    rewrite compute_url_hash_str, Hm, compute_url_hash_of_bytes.
    repeat split; first [reflexivity|apply digest_length]. }
  split.
  { intros h. rewrite !compute_url_hash_str.
    destruct (Python.str_encode u1) as [m1|] eqn:E1; [|discriminate].
    destruct (Python.str_encode u2) as [m2|] eqn:E2; [|discriminate].
    intros [= H1] [= H2].
    destruct (decide (m1 = m2)) as [->|Hne].
    - left. exact (str_encode_inj u1 u2 m2 E1 E2).
    - right. exists m1, m2. repeat split; try reflexivity; [|congruence].
      intros Hm. apply Hne. eapply app_inv_tail, Hm. }
  repeat split; vm_compute; reflexivity.
Qed.

Lemma compute_url_hash_digest_of_utf8_and_slash_witness :
  (Exists Python.is_surrogate [0x61; 0xDC00] ∧
   Forall Python.is_scalar_value Python.beyond_ascii) ∧
  Python.compute_url_hash [0x61; 0xDC00] = Raises UnicodeEncodeError ∧
  ∃ m, Python.str_encode Python.beyond_ascii = Some m ∧
       Python.compute_url_hash Python.beyond_ascii
         = Returns (SHA256.digest (m ++ ["/"%byte])).
Proof.
  assert (H1 : Exists Python.is_surrogate [0x61; 0xDC00])
    by (apply (bool_decide_unpack _); vm_compute; exact I).
  assert (H2 : Forall Python.is_scalar_value Python.beyond_ascii)
    by (apply (bool_decide_unpack _); vm_compute; exact I).
  split; [split; assumption|].
  split.
  - apply (compute_url_hash_digest_of_utf8_and_slash [0x61; 0xDC00] []), H1.
  - destruct (compute_url_hash_digest_of_utf8_and_slash Python.beyond_ascii [])
      as [_ [Hret _]].
    destruct (Hret H2) as [m [Hm [Hrun _]]]. exists m. split; assumption.
Defined.

(** A string that is one surrogate: the call raises, it returns no digest. *)
Lemma lone_surrogate_has_no_digest :
  Forall Python.is_code_point [0xD800] ∧
  Python.compute_url_hash [0xD800] = Raises UnicodeEncodeError ∧
  ¬ Python.returns_a_digest [0xD800].
Proof.
  assert (Hrun : Python.compute_url_hash [0xD800] = Raises UnicodeEncodeError)
    by (vm_compute; reflexivity).
  split; [constructor; [unfold Python.is_code_point; lia|constructor]|].
  split; [exact Hrun|].
  intros [h Hh]. rewrite Hrun in Hh. discriminate.
Qed.



(** Cutting a blob to the length of one of its own cuts gives that cut. *)
Lemma substring1_of_cut_length (X : bytes) (n : Z) :
  substring1 X (Z.of_nat (length (substring1 X n))) = substring1 X n.
Proof.
  unfold substring1. rewrite Nat2Z.id, length_take.
  destruct (decide (Z.to_nat n ≤ length X)%nat) as [Hle|Hgt].
  - rewrite Nat.min_l by exact Hle. reflexivity.
  - rewrite Nat.min_r by lia. rewrite !take_ge by lia. reflexivity.
Qed.




End HashCodec.

(** ** Running the computations *)

Lemma sends_nil (w : world) : sends [] w = w.
Proof. destruct w. unfold sends. simpl. rewrite app_nil_r. reflexivity. Qed.

Lemma sends_sends (l1 l2 : list stmt) (w : world) :
  sends l2 (sends l1 w) = sends (l1 ++ l2) w.
Proof. unfold sends. simpl. rewrite app_assoc. reflexivity. Qed.

Lemma sent_since_app (w : world) (d : db) (lg : list apsw_error) (l : list stmt) :
  sent_since w (World d lg (sent w ++ l)) = l.
Proof. unfold sent_since. simpl. apply drop_app_length. Qed.

Lemma for_each_cons {A} (x : A) (xs : list A) (body : A → M unit) (w : world) :
  for_each (x :: xs) body w =
  match body x w with
  | (Returns _, w') => for_each xs body w'
  | (Raises e, w') => (Raises e, w')
  end.
Proof. reflexivity. Qed.

Lemma with_urls_id (d : db) (table : Z) (rows : list url_row) :
  tbl_urls d !! table = Some rows → with_urls d table rows = d.
Proof.
  intros H. destruct d as [f p m]. unfold with_urls. simpl in *.
  rewrite insert_id by exact H. reflexivity.
Qed.

Lemma with_urls_twice (d : db) (table : Z) (rows1 rows2 : list url_row) :
  with_urls (with_urls d table rows1) table rows2 = with_urls d table rows2.
Proof. unfold with_urls. simpl. rewrite insert_insert_eq. reflexivity. Qed.

Lemma rows_of_with_urls (d : db) (table : Z) (rows : list url_row) :
  tbl_urls (with_urls d table rows) !! table = Some rows.
Proof. unfold with_urls. simpl. apply lookup_insert_eq. Qed.

Lemma get_urls_tables_run (w : world) (reg : list filename_row) :
  tbl_urls_filenames (store w) = Some reg →
  get_urls_tables w = (Returns (id <$> reg), sends [SelectIds] w).
Proof.
  intros H. unfold get_urls_tables, try_except_Error, with_conn, execute_select_ids.
  unfold_M. simpl. rewrite H. reflexivity.
Qed.

Lemma get_urls_tables_no_registry (w : world) :
  tbl_urls_filenames (store w) = None →
  get_urls_tables w =
  (Raises UnboundLocalError,
   World (store w) (log w ++ [NoSuchTable T_urls_filenames]) (sent w ++ [SelectIds])).
Proof.
  intros H. unfold get_urls_tables, try_except_Error, with_conn, execute_select_ids.
  unfold_M. simpl. rewrite H. reflexivity.
Qed.

(** ** Ingestion: add_URLs *)

Module Ingestion.

Lemma execute_select_id_run (filename : string) (w : world) (reg : list filename_row) :
  tbl_urls_filenames (store w) = Some reg →
  execute_select_id filename w =
  (Returns (select_id filename reg), sends [SelectIdWhereFilename filename] w).
Proof.
  intros H. unfold execute_select_id. unfold_M. simpl. rewrite H. reflexivity.
Qed.

Lemma select_id_unregistered (filename : string) (reg : list filename_row) :
  filename ∉ urls_filename <$> reg → select_id filename reg = [].
Proof.
  intros H. unfold select_id.
  replace (filter (λ r, urls_filename r = filename) reg) with (@nil filename_row);
    [reflexivity|].
  symmetry. induction reg as [|r reg IH]; [reflexivity|].
  rewrite fmap_cons, not_elem_of_cons in H. destruct H as [Hr Hreg].
  rewrite filter_cons_False by congruence. apply IH, Hreg.
Qed.

Lemma execute_upsert_run (table : Z) (u : string) (t : Z) (h : bytes)
    (w : world) (rows : list url_row) :
  tbl_urls (store w) !! table = Some rows →
  execute_upsert table u t h w =
  (Returns (),
   World (with_urls (store w) table (upsert (UrlRow u (Some t) None None None h) rows))
         (log w) (sent w ++ [InsertUrlOnConflict table u t h])).
Proof.
  intros H. unfold execute_upsert. unfold_M. simpl. rewrite H. reflexivity.
Qed.

Lemma upsert_urls_cons (t : Z) (u : string) (urls : list string) (rows : list url_row) :
  upsert_urls t (u :: urls) rows = upsert_urls t urls (upsert (new_url_row t u) rows).
Proof. reflexivity. Qed.

Lemma for_each_upsert_run (table : Z) (t : Z) (urls : list string) :
  ∀ (w : world) (rows : list url_row),
    tbl_urls (store w) !! table = Some rows →
    for_each urls (λ u, execute_upsert table u t (compute_url_hash u)) w =
    (Returns (),
     World (with_urls (store w) table (upsert_urls t urls rows)) (log w)
           (sent w ++ upsert_stmts table t urls)).
Proof.
  induction urls as [|u urls IH]; intros w rows Hrows.
  - simpl. unfold_M. rewrite with_urls_id by exact Hrows.
    rewrite app_nil_r. destruct w; reflexivity.
  - rewrite for_each_cons, (execute_upsert_run _ _ _ _ _ rows) by exact Hrows.
    erewrite IH; [|simpl; apply lookup_insert_eq].
    simpl. rewrite with_urls_twice, <- app_assoc. reflexivity.
Qed.

Lemma create_urls_table_run (table : Z) (w : world) :
  create_urls_table table w =
  (Returns (),
   World (with_urls (store w) table (rows_of (store w) table)) (log w)
         (sent w ++ [CreateUrlsTable table])).
Proof.
  unfold create_urls_table, try_except_Error, with_conn, execute_create_urls_table, rows_of.
  unfold_M. simpl.
  destruct (tbl_urls (store w) !! table) as [rows|] eqn:E; simpl.
  - rewrite with_urls_id by exact E. reflexivity.
  - reflexivity.
Qed.

(** The three ways a call of [add_URLs] can go: the registry is absent, the
    file name has no id, the file name has one. *)
Lemma add_URLs_no_registry (urls : list string) (t : Z) (filename : string) (w : world) :
  tbl_urls_filenames (store w) = None →
  add_URLs urls t filename w =
  (Returns (),
   World (store w) (log w ++ [NoSuchTable T_urls_filenames])
         (sent w ++ [SelectIdWhereFilename filename])).
Proof.
  intros H. unfold add_URLs, try_except_Error, with_conn, execute_select_id.
  unfold_M. simpl. rewrite H. simpl. reflexivity.
Qed.

Lemma add_URLs_no_id (urls : list string) (t : Z) (filename : string)
    (w : world) (reg : list filename_row) :
  tbl_urls_filenames (store w) = Some reg →
  select_id filename reg = [] →
  add_URLs urls t filename w =
  (Raises IndexError, sends [SelectIdWhereFilename filename] w).
Proof.
  intros Hreg Hsel. unfold add_URLs, try_except_Error, with_conn.
  pose proof (execute_select_id_run filename w reg Hreg) as Hrun.
  unfold_M. rewrite Hrun, Hsel. simpl. destruct w; reflexivity.
Qed.

Lemma add_URLs_registered (urls : list string) (t : Z) (filename : string)
    (w : world) (reg : list filename_row) (table : Z) (rest : list Z) :
  tbl_urls_filenames (store w) = Some reg →
  select_id filename reg = table :: rest →
  add_URLs urls t filename w =
  (Returns (),
   World (with_urls (store w) table (upsert_urls t urls (rows_of (store w) table)))
         (log w)
         (sent w ++ [SelectIdWhereFilename filename; CreateUrlsTable table]
                 ++ upsert_stmts table t urls)).
Proof.
  intros Hreg Hsel. unfold add_URLs, try_except_Error, with_conn.
  pose proof (execute_select_id_run filename w reg Hreg) as Hrun.
  unfold_M. rewrite Hrun, Hsel. simpl.
  rewrite create_urls_table_run. simpl.
  erewrite for_each_upsert_run; [|simpl; apply lookup_insert_eq].
  simpl. rewrite with_urls_twice, <- !app_assoc. reflexivity.
Qed.

(** *** The rows of one table through a batch *)

Lemma row_of_cons (u : string) (r : url_row) (rows : list url_row) :
  row_of u (r :: rows) = if decide (url r = u) then Some r else row_of u rows.
Proof.
  unfold row_of. rewrite filter_cons. destruct (decide (url r = u)); reflexivity.
Qed.

Lemma set_lastListed_same (r : url_row) : set_lastListed (lastListed r) r = r.
Proof. destruct r; reflexivity. Qed.

(** After an upsert the url's row is the old one with the new [lastListed],
    or the inserted row when there was none. *)
Lemma row_of_upsert_same (new : url_row) (rows : list url_row) :
  row_of (url new) (upsert new rows) =
  Some (match row_of (url new) rows with
        | Some r => set_lastListed (lastListed new) r
        | None => new
        end).
Proof.
  induction rows as [|r rows IH]; cbn [upsert].
  - rewrite row_of_cons, decide_True by reflexivity. reflexivity.
  - rewrite (row_of_cons _ r rows).
    destruct (decide (url r = url new)) as [E|E].
    + rewrite row_of_cons. cbn [url set_lastListed].
      rewrite decide_True by exact E. reflexivity.
    + rewrite row_of_cons, decide_False by exact E. exact IH.
Qed.

Lemma row_of_upsert_other (u : string) (new : url_row) (rows : list url_row) :
  url new ≠ u → row_of u (upsert new rows) = row_of u rows.
Proof.
  intros Hne. induction rows as [|r rows IH]; cbn [upsert].
  - rewrite row_of_cons, decide_False by exact Hne. reflexivity.
  - destruct (decide (url r = url new)) as [E|E].
    + rewrite !row_of_cons. cbn [url set_lastListed].
      rewrite !decide_False by congruence. reflexivity.
    + rewrite !row_of_cons, IH. reflexivity.
Qed.

(** A stored row through a whole batch: touched exactly when its url is in
    the batch, and then only in [lastListed]. *)
Lemma row_of_upsert_urls (t : Z) (u : string) (urls : list string) :
  ∀ (rows : list url_row) (r : url_row),
    row_of u rows = Some r →
    row_of u (upsert_urls t urls rows) =
    Some (if decide (u ∈ urls) then set_lastListed (Some t) r else r).
Proof.
  induction urls as [|u' urls IH]; intros rows r Hr.
  - unfold upsert_urls. cbn [foldl].
    rewrite decide_False by apply not_elem_of_nil. exact Hr.
  - rewrite upsert_urls_cons.
    destruct (decide (u' = u)) as [->|Hne].
    + rewrite decide_True by apply list_elem_of_here.
      pose proof (row_of_upsert_same (new_url_row t u) rows) as Hup.
      simpl in Hup. rewrite Hr in Hup.
      rewrite (IH _ _ Hup).
      destruct (decide (u ∈ urls)); reflexivity.
    + rewrite (IH _ r).
      * destruct (decide (u ∈ urls)) as [Hin|Hnin].
        -- rewrite decide_True by (apply list_elem_of_further, Hin). reflexivity.
        -- rewrite decide_False; [reflexivity|].
           rewrite not_elem_of_cons. split; [congruence|exact Hnin].
      * rewrite row_of_upsert_other by exact Hne. exact Hr.
Qed.

Lemma listed_at_upsert_same (t : Z) (u : string) (rows : list url_row) :
  listed_at t (upsert (new_url_row t u) rows) u.
Proof.
  pose proof (row_of_upsert_same (new_url_row t u) rows) as H. simpl in H.
  eexists. split; [exact H|]. destruct (row_of u rows); reflexivity.
Qed.

Lemma listed_at_upsert (t : Z) (u u' : string) (rows : list url_row) :
  listed_at t rows u → listed_at t (upsert (new_url_row t u') rows) u.
Proof.
  intros [r [Hr Ht]].
  destruct (decide (u' = u)) as [->|Hne]; [apply listed_at_upsert_same|].
  exists r. split; [|exact Ht].
  rewrite row_of_upsert_other by exact Hne. exact Hr.
Qed.

Lemma listed_at_upsert_urls (t : Z) (u : string) (urls : list string) :
  ∀ rows, listed_at t rows u → listed_at t (upsert_urls t urls rows) u.
Proof.
  induction urls as [|u' urls IH]; intros rows H; [exact H|].
  rewrite upsert_urls_cons. apply IH, listed_at_upsert, H.
Qed.

Lemma upsert_listed_at (t : Z) (u : string) (rows : list url_row) :
  listed_at t rows u → upsert (new_url_row t u) rows = rows.
Proof.
  intros [r0 [Hr Ht]]. induction rows as [|r rows IH]; [discriminate|].
  simpl. rewrite row_of_cons in Hr.
  destruct (decide (url r = u)) as [E|E].
  - injection Hr as ->. rewrite <- Ht, set_lastListed_same. reflexivity.
  - rewrite IH by exact Hr. reflexivity.
Qed.

Lemma upsert_urls_listed_at (t : Z) (urls : list string) (rows : list url_row) :
  Forall (listed_at t rows) urls → upsert_urls t urls rows = rows.
Proof.
  induction 1 as [|u urls Hu _ IH]; [reflexivity|].
  rewrite upsert_urls_cons, upsert_listed_at by exact Hu. exact IH.
Qed.

Lemma upsert_urls_all_listed (t : Z) (urls : list string) :
  ∀ rows, Forall (listed_at t (upsert_urls t urls rows)) urls.
Proof.
  induction urls as [|u urls IH]; intros rows; [constructor|].
  rewrite upsert_urls_cons. constructor.
  - apply listed_at_upsert_urls, listed_at_upsert_same.
  - apply IH.
Qed.

Lemma upsert_urls_idempotent (t : Z) (urls : list string) (rows : list url_row) :
  upsert_urls t urls (upsert_urls t urls rows) = upsert_urls t urls rows.
Proof. apply upsert_urls_listed_at, upsert_urls_all_listed. Qed.

(** The rows [add_URLs] leaves hold their url's hash if the old ones did. *)
Lemma upsert_urls_hash_of_url (t : Z) (urls : list string) :
  ∀ rows, Forall hash_of_url rows → Forall hash_of_url (upsert_urls t urls rows).
Proof.
  assert (Hone : ∀ u rows, Forall hash_of_url rows →
                           Forall hash_of_url (upsert (new_url_row t u) rows)).
  { intros u rows H. induction H as [|r rows Hr Hrows IH]; cbn [upsert].
    - constructor; [reflexivity|constructor].
    - destruct (decide (url r = url (new_url_row t u))).
      + constructor; [exact Hr|exact Hrows].
      + constructor; [exact Hr|exact IH]. }
  induction urls as [|u urls IH]; intros rows H; [exact H|].
  rewrite upsert_urls_cons. apply IH, Hone, H.
Qed.

(** A second identical call changes nothing in the store and ends the way the
    first one did. *)
Lemma add_URLs_again (urls : list string) (t : Z) (filename : string)
    (w w1 : world) (o1 : outcome unit) :
  add_URLs urls t filename w = (o1, w1) →
  ∃ w2, add_URLs urls t filename w1 = (o1, w2) ∧ store w2 = store w1.
Proof.
  intros Hrun.
  destruct (tbl_urls_filenames (store w)) as [reg|] eqn:Hreg.
  - destruct (select_id filename reg) as [|table rest] eqn:Hsel.
    + rewrite (add_URLs_no_id _ _ _ _ reg) in Hrun by assumption.
      injection Hrun as <- <-.
      rewrite (add_URLs_no_id _ _ _ _ reg) by assumption.
      eexists. split; reflexivity.
    + rewrite (add_URLs_registered _ _ _ _ reg table rest) in Hrun by assumption.
      injection Hrun as <- <-.
      rewrite (add_URLs_registered _ _ _ _ reg table rest) by assumption.
      eexists. split; [reflexivity|]. simpl.
      unfold rows_of. rewrite rows_of_with_urls. simpl.
      rewrite with_urls_twice, upsert_urls_idempotent. reflexivity.
  - rewrite add_URLs_no_registry in Hrun by assumption.
    injection Hrun as <- <-.
    rewrite add_URLs_no_registry by assumption.
    eexists. split; reflexivity.
Qed.

(** A database on which [initialise_database] has not run: the file name
    was never registered, and [add_URLs] returns. *)
Lemma unregistered_on_new_database_returns :
  never_registered "list1" (store (start empty_db)) ∧
  add_URLs [Sample.evil] 200 "list1" (start empty_db) =
    (Returns (), World empty_db [NoSuchTable T_urls_filenames]
                       [SelectIdWhereFilename "list1"]) ∧
  ¬ fails_before_writing (add_URLs [Sample.evil] 200 "list1") (start empty_db).
Proof.
  assert (Hrun : add_URLs [Sample.evil] 200 "list1" (start empty_db) =
                 (Returns (), World empty_db [NoSuchTable T_urls_filenames]
                                    [SelectIdWhereFilename "list1"]))
    by (apply (add_URLs_no_registry _ _ _ (start empty_db)); reflexivity).
  split; [exact I|]. split; [exact Hrun|].
  intros [e [w' [Hraises _]]]. rewrite Hrun in Hraises. discriminate.
Qed.

(** C9, amended.  [add_URLs] with a file name that was never registered
    writes nothing: the only statement sent is the registry lookup, so no
    table is created and no url row is inserted or updated, and the store is
    the one before the call.  On a store that has the registry table the
    call raises [IndexError] and logs nothing; on a store without it the
    lookup's error is logged and the call returns. *)
Theorem add_URLs_unregistered_writes_nothing
    (urls : list string) (updateTime : Z) (filename : string) (w : world) :
  never_registered filename (store w) →
  ∃ o w', add_URLs urls updateTime filename w = (o, w') ∧
          store w' = store w ∧
          sent_since w w' = [SelectIdWhereFilename filename] ∧
          match tbl_urls_filenames (store w) with
          | Some _ => o = Raises IndexError ∧ log w' = log w
          | None => o = Returns () ∧ log w' = log w ++ [NoSuchTable T_urls_filenames]
          end.
Proof.
  unfold never_registered. intros Hnot.
  destruct (tbl_urls_filenames (store w)) as [reg|] eqn:Hreg.
  - eexists _, _. split.
    + apply (add_URLs_no_id _ _ _ _ reg Hreg), select_id_unregistered, Hnot.
    + split; [reflexivity|]. split; [apply sent_since_app|]. split; reflexivity.
  - eexists _, _. split; [apply add_URLs_no_registry, Hreg|].
    split; [reflexivity|]. split; [apply (sent_since_app w)|]. split; reflexivity.
Qed.

Lemma add_URLs_unregistered_writes_nothing_witness :
  never_registered "list2" (store (start Sample.one_shard)) ∧
  ∃ o w', add_URLs [Sample.evil] 200 "list2" (start Sample.one_shard) = (o, w') ∧
          store w' = store (start Sample.one_shard) ∧
          sent_since (start Sample.one_shard) w' = [SelectIdWhereFilename "list2"] ∧
          o = Raises IndexError ∧ log w' = log (start Sample.one_shard).
Proof.
  assert (H1 : never_registered "list2" (store (start Sample.one_shard)))
    by (cbn; not_elem_of_literal).
  split; [exact H1|].
  destruct (add_URLs_unregistered_writes_nothing [Sample.evil] 200 "list2"
              (start Sample.one_shard) H1) as [o [w' [Hrun [Hstore [Hsent Hout]]]]].
  exists o, w'. repeat split; first [assumption|apply Hout].
Defined.

(** C4.  When the file name resolves to a shard whose table already holds a
    row for a url of the batch, [add_URLs] returns and that row differs
    from the old one in [lastListed] alone, now the call's timestamp: url,
    hash and the three status fields are the old ones.  The other shard
    tables, the registry and the prefix index are as before.  Calling
    [add_URLs] once more with the same arguments returns again and leaves
    the store as the first call left it. *)
Theorem add_URLs_refreshes_only_lastListed
    (urls : list string) (updateTime : Z) (filename : string) (w : world)
    (reg : list filename_row) (table : Z) (rows : list url_row) (r : url_row) :
  tbl_urls_filenames (store w) = Some reg →
  select_id filename reg = [table] →
  tbl_urls (store w) !! table = Some rows →
  row_of (url r) rows = Some r →
  url r ∈ urls →
  ∃ (w1 : world) (rows1 : list url_row) (r1 : url_row),
    add_URLs urls updateTime filename w = (Returns (), w1) ∧
    tbl_urls (store w1) !! table = Some rows1 ∧
    row_of (url r) rows1 = Some r1 ∧
    lastListed r1 = Some updateTime ∧
    url r1 = url r ∧ hash r1 = hash r ∧
    lastGoogleMalicious r1 = lastGoogleMalicious r ∧
    lastYandexMalicious r1 = lastYandexMalicious r ∧
    lastReachable r1 = lastReachable r ∧
    (∀ other, other ≠ table → tbl_urls (store w1) !! other = tbl_urls (store w) !! other) ∧
    tbl_urls_filenames (store w1) = tbl_urls_filenames (store w) ∧
    tbl_maliciousHashPrefixes (store w1) = tbl_maliciousHashPrefixes (store w) ∧
    ∃ w2 : world,
      add_URLs urls updateTime filename w1 = (Returns (), w2) ∧ store w2 = store w1.
Proof.
  intros Hreg Hsel Hrows Hr Hin.
  pose proof (add_URLs_registered urls updateTime filename w reg table [] Hreg Hsel) as Hrun.
  destruct (add_URLs_again _ _ _ _ _ _ Hrun) as [w2 [Hrun2 Hsame]].
  eexists _, _, (set_lastListed (Some updateTime) r).
  split; [exact Hrun|].
  split; [apply rows_of_with_urls|].
  split.
  { unfold rows_of. rewrite Hrows. simpl.
    rewrite (row_of_upsert_urls _ _ _ _ r Hr), decide_True by exact Hin. reflexivity. }
  do 6 (split; [reflexivity|]).
  split.
  { intros other Hne. simpl. apply lookup_insert_ne. congruence. }
  do 2 (split; [reflexivity|]).
  exists w2. split; [exact Hrun2|exact Hsame].
Qed.

Lemma add_URLs_refreshes_only_lastListed_witness :
  (tbl_urls_filenames (store (start Sample.one_shard)) = Some [FilenameRow 1 "list1"] ∧
   select_id "list1" [FilenameRow 1 "list1"] = [1] ∧
   tbl_urls (store (start Sample.one_shard)) !! 1 = Some [new_url_row 100 Sample.evil] ∧
   row_of (url (new_url_row 100 Sample.evil)) [new_url_row 100 Sample.evil]
     = Some (new_url_row 100 Sample.evil) ∧
   url (new_url_row 100 Sample.evil) ∈ ["http://other.example/"; Sample.evil]) ∧
  ∃ (w1 : world) (rows1 : list url_row) (r1 : url_row),
    add_URLs ["http://other.example/"; Sample.evil] 200 "list1" (start Sample.one_shard)
      = (Returns (), w1) ∧
    tbl_urls (store w1) !! 1 = Some rows1 ∧
    row_of Sample.evil rows1 = Some r1 ∧
    lastListed r1 = Some 200 ∧ hash r1 = compute_url_hash Sample.evil.
Proof.
  assert (H1 : tbl_urls_filenames (store (start Sample.one_shard))
               = Some [FilenameRow 1 "list1"]) by reflexivity.
  assert (H2 : select_id "list1" [FilenameRow 1 "list1"] = [1]) by reflexivity.
  assert (H3 : tbl_urls (store (start Sample.one_shard)) !! 1
               = Some [new_url_row 100 Sample.evil]) by (vm_compute; reflexivity).
  assert (H4 : row_of (url (new_url_row 100 Sample.evil)) [new_url_row 100 Sample.evil]
               = Some (new_url_row 100 Sample.evil)) by reflexivity.
  assert (H5 : url (new_url_row 100 Sample.evil) ∈ ["http://other.example/"; Sample.evil])
    by (cbn [url new_url_row]; elem_of_literal).
  split; [repeat split; assumption|].
  destruct (add_URLs_refreshes_only_lastListed
              ["http://other.example/"; Sample.evil] 200 "list1" (start Sample.one_shard)
              [FilenameRow 1 "list1"] 1 [new_url_row 100 Sample.evil]
              (new_url_row 100 Sample.evil) H1 H2 H3 H4 H5)
    as [w1 [rows1 [r1 [Hrun [Hrows [Hrow [Ht [_ [Hh _]]]]]]]]].
  exists w1, rows1, r1. repeat split; assumption.
Defined.

(** The spec's scenario of a re-listed url, run: the timestamp moves from 100
    to 200, and the row of the url that was new is appended. *)
Example add_URLs_relisted :
  tbl_urls (store (snd (add_URLs ["http://other.example/"; Sample.evil] 200 "list1"
                          (start Sample.one_shard)))) !! 1 =
  Some [UrlRow Sample.evil (Some 200) None None None (compute_url_hash Sample.evil);
        new_url_row 200 "http://other.example/"].
Proof. vm_compute. reflexivity. Qed.

End Ingestion.

(** ** The prefix index: add_maliciousHashPrefixes *)

Module PrefixIndex.

Lemma for_each_insert_prefix_run (v : string) (hash_prefixes : list bytes) :
  ∀ (w : world) (rows : list prefix_row),
    tbl_maliciousHashPrefixes (store w) = Some rows →
    for_each hash_prefixes
      (λ hashPrefix, execute_insert_prefix hashPrefix (Z.of_nat (length hashPrefix)) v) w =
    (Returns (),
     World (with_prefixes (store w) (rows ++ (prefix_entry v <$> hash_prefixes)))
           (log w) (sent w ++ insert_prefix_stmts v hash_prefixes)).
Proof.
  induction hash_prefixes as [|p ps IH]; intros w rows Hrows.
  - simpl. unfold_M. rewrite !app_nil_r.
    destruct w as [[f pr m] lg st]. simpl in *. subst pr. reflexivity.
  - rewrite for_each_cons. unfold execute_insert_prefix at 1. unfold_M. simpl.
    rewrite Hrows. simpl.
    erewrite IH; [|reflexivity].
    simpl. unfold with_prefixes. simpl. rewrite <- !app_assoc. reflexivity.
Qed.

Lemma add_maliciousHashPrefixes_run (hash_prefixes : list bytes) (v : string)
    (w : world) (rows : list prefix_row) :
  tbl_maliciousHashPrefixes (store w) = Some rows →
  add_maliciousHashPrefixes hash_prefixes v w =
  (Returns (),
   World (with_prefixes (store w) (replace_prefixes v hash_prefixes rows)) (log w)
         (sent w ++ DeletePrefixesWhereVendor v :: insert_prefix_stmts v hash_prefixes)).
Proof.
  intros Hrows.
  unfold add_maliciousHashPrefixes, try_except_Error, with_conn, execute_delete_prefixes.
  unfold_M. simpl. rewrite Hrows. simpl.
  erewrite for_each_insert_prefix_run; [|reflexivity].
  simpl. unfold with_prefixes, replace_prefixes. simpl.
  rewrite <- app_assoc. reflexivity.
Qed.

(** Without the index table the [DELETE] fails: the error is logged and
    nothing is written. *)
Lemma add_maliciousHashPrefixes_no_table (hash_prefixes : list bytes) (v : string)
    (w : world) :
  tbl_maliciousHashPrefixes (store w) = None →
  add_maliciousHashPrefixes hash_prefixes v w =
  (Returns (),
   World (store w) (log w ++ [NoSuchTable T_maliciousHashPrefixes])
         (sent w ++ [DeletePrefixesWhereVendor v])).
Proof.
  intros H.
  unfold add_maliciousHashPrefixes, try_except_Error, with_conn, execute_delete_prefixes.
  unfold_M. simpl. rewrite H. reflexivity.
Qed.

Section Vendor.

Variable v : string.

Lemma filter_vendor_entries (ps : list bytes) :
  filter (λ p, vendor p = v) (prefix_entry v <$> ps) = prefix_entry v <$> ps.
Proof.
  induction ps as [|p ps IH]; [reflexivity|].
  rewrite fmap_cons, filter_cons_True by reflexivity. rewrite IH. reflexivity.
Qed.

Lemma filter_other_entries (ps : list bytes) :
  filter (λ p, vendor p ≠ v) (prefix_entry v <$> ps) = [].
Proof.
  induction ps as [|p ps IH]; [reflexivity|].
  rewrite fmap_cons, filter_cons_False; [exact IH|]. simpl. intros H. apply H. reflexivity.
Qed.

Lemma filter_vendor_others (rows : list prefix_row) :
  filter (λ p, vendor p = v) (filter (λ p, vendor p ≠ v) rows) = [].
Proof.
  induction rows as [|r rows IH]; [reflexivity|].
  rewrite (filter_cons _ r rows). destruct (decide (vendor r ≠ v)) as [Hne|_]; [|exact IH].
  rewrite filter_cons_False by exact Hne. exact IH.
Qed.

Lemma filter_others_others (rows : list prefix_row) :
  filter (λ p, vendor p ≠ v) (filter (λ p, vendor p ≠ v) rows) =
  filter (λ p, vendor p ≠ v) rows.
Proof.
  induction rows as [|r rows IH]; [reflexivity|].
  rewrite (filter_cons _ r rows). destruct (decide (vendor r ≠ v)) as [Hne|_]; [|exact IH].
  rewrite filter_cons_True by exact Hne. rewrite IH. reflexivity.
Qed.

(** Dropping [v]'s rows does not change what another vendor has. *)
Lemma filter_another_others (v' : string) (rows : list prefix_row) :
  v' ≠ v →
  filter (λ p, vendor p = v') (filter (λ p, vendor p ≠ v) rows) =
  filter (λ p, vendor p = v') rows.
Proof.
  intros Hne. induction rows as [|r rows IH]; [reflexivity|].
  rewrite (filter_cons (λ p, vendor p ≠ v) r rows), (filter_cons (λ p, vendor p = v') r rows).
  destruct (decide (vendor r ≠ v)) as [H1|H1].
  - rewrite filter_cons, IH. reflexivity.
  - rewrite IH. destruct (decide (vendor r = v')) as [H2|H2]; [|reflexivity].
    exfalso. apply H1. congruence.
Qed.

Lemma replace_prefixes_vendor (ps : list bytes) (rows : list prefix_row) :
  filter (λ p, vendor p = v) (replace_prefixes v ps rows) = prefix_entry v <$> ps.
Proof.
  unfold replace_prefixes.
  rewrite filter_app, filter_vendor_others, filter_vendor_entries. reflexivity.
Qed.

Lemma replace_prefixes_others (ps : list bytes) (rows : list prefix_row) :
  filter (λ p, vendor p ≠ v) (replace_prefixes v ps rows) =
  filter (λ p, vendor p ≠ v) rows.
Proof.
  unfold replace_prefixes.
  rewrite filter_app, filter_others_others, filter_other_entries, app_nil_r. reflexivity.
Qed.

(** [add_maliciousHashPrefixes] keeps the sizes exact. *)
Lemma replace_prefixes_sizes_exact (ps : list bytes) (rows : list prefix_row) :
  prefix_sizes_exact rows → prefix_sizes_exact (replace_prefixes v ps rows).
Proof.
  intros H. unfold prefix_sizes_exact, replace_prefixes.
  apply Forall_app. split.
  - unfold prefix_sizes_exact in H. rewrite Forall_forall in H. apply Forall_forall.
    intros p Hp. apply list_elem_of_filter in Hp. apply H, Hp.
  - apply Forall_fmap, Forall_true. intros p. reflexivity.
Qed.

End Vendor.

(** C3.  On a store that has the prefix index, replacing vendor [V]'s
    prefixes with [P1] and then with [P2] returns both times and leaves,
    for [V], exactly the entries written for [P2], one per element (so one
    per prefix when [P2] has no repetition, as a set has none), each with
    the prefix's byte length as [prefixSize], so that the distinct
    sizes of [V] are the distinct lengths in [P2]; the entries of every
    other vendor are the ones from before, and the registry and the shard
    tables are not touched. *)
Theorem replace_twice_keeps_only_second
    (V : string) (P1 P2 : list bytes) (w : world) (rows : list prefix_row) :
  tbl_maliciousHashPrefixes (store w) = Some rows →
  ∃ (w2 : world) (rows2 : list prefix_row),
    (add_maliciousHashPrefixes P1 V;; add_maliciousHashPrefixes P2 V) w = (Returns (), w2) ∧
    tbl_maliciousHashPrefixes (store w2) = Some rows2 ∧
    filter (λ p, vendor p = V) rows2 = prefix_entry V <$> P2 ∧
    (NoDup P2 → NoDup (filter (λ p, vendor p = V) rows2)) ∧
    distinct_prefixSizes V rows2 = remove_dups ((λ p, Z.of_nat (length p)) <$> P2) ∧
    (∀ V', V' ≠ V →
       filter (λ p, vendor p = V') rows2 = filter (λ p, vendor p = V') rows) ∧
    filter (λ p, vendor p ≠ V) rows2 = filter (λ p, vendor p ≠ V) rows ∧
    tbl_urls_filenames (store w2) = tbl_urls_filenames (store w) ∧
    tbl_urls (store w2) = tbl_urls (store w).
Proof.
  intros Hrows.
  exists (World (with_prefixes (store w) (replace_prefixes V P2 (replace_prefixes V P1 rows)))
                (log w)
                (sent w ++ (DeletePrefixesWhereVendor V :: insert_prefix_stmts V P1)
                        ++ DeletePrefixesWhereVendor V :: insert_prefix_stmts V P2)).
  exists (replace_prefixes V P2 (replace_prefixes V P1 rows)).
  split.
  { unfold_M. rewrite (add_maliciousHashPrefixes_run P1 V w rows Hrows).
    erewrite add_maliciousHashPrefixes_run; [|reflexivity].
    simpl. rewrite <- app_assoc. reflexivity. }
  split; [reflexivity|].
  split; [apply replace_prefixes_vendor|].
  split.
  { intros Hnodup. rewrite replace_prefixes_vendor.
    apply NoDup_fmap_2; [|exact Hnodup].
    intros p1 p2 Heq. injection Heq as Hp _. exact Hp. }
  split.
  { unfold distinct_prefixSizes. rewrite replace_prefixes_vendor.
    rewrite <- list_fmap_compose. reflexivity. }
  assert (Hothers : filter (λ p, vendor p ≠ V)
                      (replace_prefixes V P2 (replace_prefixes V P1 rows)) =
                    filter (λ p, vendor p ≠ V) rows)
    by (rewrite !replace_prefixes_others; reflexivity).
  split.
  { intros V' Hne.
    rewrite <- (filter_another_others V V' _ Hne), Hothers.
    apply filter_another_others, Hne. }
  split; [exact Hothers|].
  split; reflexivity.
Qed.

Lemma replace_twice_keeps_only_second_witness :
  tbl_maliciousHashPrefixes (store (start Sample.one_shard_listed))
    = Some [prefix_entry "Google" Sample.evil_prefix] ∧
  ∃ (w2 : world) (rows2 : list prefix_row),
    (add_maliciousHashPrefixes [[x01; x02; x03; x04]] "Yandex";;
     add_maliciousHashPrefixes [[x0a; x0b]; [x0c; x0d; x0e]] "Yandex")
      (start Sample.one_shard_listed) = (Returns (), w2) ∧
    tbl_maliciousHashPrefixes (store w2) = Some rows2 ∧
    filter (λ p, vendor p = "Yandex") rows2 =
      [PrefixRow [x0a; x0b] 2 "Yandex"; PrefixRow [x0c; x0d; x0e] 3 "Yandex"] ∧
    distinct_prefixSizes "Yandex" rows2 = [2; 3].
Proof.
  assert (H1 : tbl_maliciousHashPrefixes (store (start Sample.one_shard_listed))
               = Some [prefix_entry "Google" Sample.evil_prefix]) by reflexivity.
  split; [exact H1|].
  destruct (replace_twice_keeps_only_second "Yandex" [[x01; x02; x03; x04]]
              [[x0a; x0b]; [x0c; x0d; x0e]] (start Sample.one_shard_listed)
              [prefix_entry "Google" Sample.evil_prefix] H1)
    as [w2 [rows2 [Hrun [Hrows [Hv [_ [Hsizes _]]]]]]].
  exists w2, rows2. repeat split; assumption.
Defined.

End PrefixIndex.

(** ** The registry: create_filenames_table *)

Module Registry.

Lemma register_all_cons (name : string) (names : list string) (reg : list filename_row) :
  register_all (name :: names) reg = register_all names (insert_or_ignore name reg).
Proof. reflexivity. Qed.

Lemma for_each_insert_or_ignore_run (names : list string) :
  ∀ (w : world) (reg : list filename_row),
    tbl_urls_filenames (store w) = Some reg →
    for_each names execute_insert_or_ignore_filename w =
    (Returns (),
     World (with_filenames (store w) (register_all names reg)) (log w)
           (sent w ++ (InsertOrIgnoreFilename <$> names))).
Proof.
  induction names as [|name names IH]; intros w reg Hreg.
  - simpl. unfold_M. rewrite app_nil_r.
    destruct w as [[f pr m] lg st]. simpl in *. subst f. reflexivity.
  - rewrite for_each_cons. unfold execute_insert_or_ignore_filename at 1. unfold_M. simpl.
    rewrite Hreg. simpl.
    erewrite IH; [|reflexivity].
    simpl. rewrite <- app_assoc. reflexivity.
Qed.

Lemma create_filenames_table_run (names : list string) (w : world) :
  create_filenames_table names w =
  (Returns (),
   World (with_filenames (store w)
            (register_all names (default [] (tbl_urls_filenames (store w)))))
         (log w)
         (sent w ++ CreateFilenamesTable :: (InsertOrIgnoreFilename <$> names))).
Proof.
  unfold create_filenames_table, try_except_Error, with_conn, execute_create_filenames_table.
  unfold_M. simpl.
  destruct (tbl_urls_filenames (store w)) as [reg|] eqn:Hreg; simpl.
  - erewrite for_each_insert_or_ignore_run; [|simpl; exact Hreg].
    simpl. rewrite <- app_assoc. reflexivity.
  - erewrite for_each_insert_or_ignore_run; [|reflexivity].
    simpl. rewrite <- app_assoc. reflexivity.
Qed.

(** Registering only appends: the rows already there stay, in place; a row
    is added for a name of the batch that had none. *)
Lemma register_all_appends (names : list string) :
  ∀ reg : list filename_row,
    ∃ added : list filename_row,
      register_all names reg = reg ++ added ∧
      ∀ row, row ∈ added →
        urls_filename row ∈ names ∧ urls_filename row ∉ urls_filename <$> reg.
Proof.
  induction names as [|name names IH]; intros reg.
  - exists []. split; [symmetry; apply app_nil_r|]. intros row H. inversion H.
  - rewrite register_all_cons. unfold insert_or_ignore.
    destruct (decide (name ∈ urls_filename <$> reg)) as [Hin|Hnin].
    + destruct (IH reg) as [added [Heq Hadded]].
      exists added. split; [exact Heq|].
      intros row Hrow. destruct (Hadded row Hrow) as [H1 H2].
      split; [apply list_elem_of_further, H1|exact H2].
    + destruct (IH (reg ++ [FilenameRow (next_rowid reg) name])) as [added [Heq Hadded]].
      exists (FilenameRow (next_rowid reg) name :: added).
      split; [rewrite Heq, <- app_assoc; reflexivity|].
      intros row Hrow. apply elem_of_cons in Hrow as [->|Hrow].
      * simpl. split; [apply list_elem_of_here|exact Hnin].
      * destruct (Hadded row Hrow) as [H1 H2].
        split; [apply list_elem_of_further, H1|].
        intros H. apply H2. rewrite fmap_app. apply elem_of_app. left. exact H.
Qed.

Lemma select_id_app (name : string) (reg added : list filename_row) :
  name ∈ urls_filename <$> reg → select_id name (reg ++ added) = select_id name reg.
Proof.
  intros Hin. unfold select_id. rewrite filter_app, fmap_app.
  assert (Hne : id <$> filter (λ r, urls_filename r = name) reg ≠ []).
  { apply list_elem_of_fmap in Hin as [row [Hname Hrow]].
    intros Hnil. apply fmap_nil_inv in Hnil.
    assert (Hf : row ∈ filter (λ r, urls_filename r = name) reg)
      by (apply list_elem_of_filter; split; [symmetry; exact Hname|exact Hrow]).
    rewrite Hnil in Hf. inversion Hf. }
  destruct (id <$> filter (λ r, urls_filename r = name) reg) as [|i ids];
    [contradiction|reflexivity].
Qed.

(** C8.  [create_filenames_table] on a store that has a registry returns
    and only appends to the registry: every row that was there is still
    there, in place, so each name already registered resolves (by the
    lookup [add_URLs] makes) to the same id as before, whether or not the
    batch names it; rows are added only for batch names that had none, and
    a batch of already registered names leaves the registry as it was.  The
    prefix index and the shard tables are not touched. *)
Theorem create_filenames_table_keeps_rows
    (names : list string) (w : world) (reg : list filename_row) :
  tbl_urls_filenames (store w) = Some reg →
  ∃ (w1 : world) (added : list filename_row),
    create_filenames_table names w = (Returns (), w1) ∧
    tbl_urls_filenames (store w1) = Some (reg ++ added) ∧
    (∀ name, name ∈ urls_filename <$> reg →
       select_id name (reg ++ added) = select_id name reg) ∧
    (∀ row, row ∈ added →
       urls_filename row ∈ names ∧ urls_filename row ∉ urls_filename <$> reg) ∧
    ((∀ name, name ∈ names → name ∈ urls_filename <$> reg) → added = []) ∧
    tbl_maliciousHashPrefixes (store w1) = tbl_maliciousHashPrefixes (store w) ∧
    tbl_urls (store w1) = tbl_urls (store w).
Proof.
  intros Hreg.
  destruct (register_all_appends names reg) as [added [Heq Hadded]].
  eexists _, added.
  split; [apply create_filenames_table_run|].
  rewrite Hreg. simpl. rewrite Heq.
  split; [reflexivity|].
  split; [intros name Hin; apply select_id_app, Hin|].
  split; [exact Hadded|].
  split; [|split; reflexivity].
  intros Hall. destruct added as [|row added]; [reflexivity|].
  destruct (Hadded row (list_elem_of_here _ _)) as [H1 H2].
  exfalso. apply H2, Hall, H1.
Qed.

Lemma create_filenames_table_keeps_rows_witness :
  tbl_urls_filenames (store (start Sample.one_shard)) = Some [FilenameRow 1 "list1"] ∧
  ∃ (w1 : world) (added : list filename_row),
    create_filenames_table ["list2"; "list1"] (start Sample.one_shard) = (Returns (), w1) ∧
    tbl_urls_filenames (store w1) = Some ([FilenameRow 1 "list1"] ++ added) ∧
    (∀ name, name ∈ urls_filename <$> [FilenameRow 1 "list1"] →
       select_id name ([FilenameRow 1 "list1"] ++ added)
       = select_id name [FilenameRow 1 "list1"]).
Proof.
  assert (H1 : tbl_urls_filenames (store (start Sample.one_shard))
               = Some [FilenameRow 1 "list1"]) by reflexivity.
  split; [exact H1|].
  destruct (create_filenames_table_keeps_rows ["list2"; "list1"]
              (start Sample.one_shard) [FilenameRow 1 "list1"] H1)
    as [w1 [added [Hrun [Hreg [Hsame _]]]]].
  exists w1, added. repeat split; assumption.
Defined.

(** Registering a new and a known name, run: the known row stays, the new
    name gets the next id. *)
Example create_filenames_table_again :
  tbl_urls_filenames
    (store (snd (create_filenames_table ["list2"; "list1"] (start Sample.one_shard)))) =
  Some [FilenameRow 1 "list1"; FilenameRow 2 "list2"].
Proof. vm_compute. reflexivity. Qed.

End Registry.

(** ** The status updaters *)

Module StatusUpdater.

Lemma vendorToColumn_None (vendor : string) :
  vendor ≠ "Google" → vendor ≠ "Yandex" → vendorToColumn vendor = None.
Proof.
  intros H1 H2. unfold vendorToColumn.
  rewrite !decide_False by assumption. reflexivity.
Qed.

Lemma update_malicious_URLs_fan_out (malicious_urls : list string) (updateTime : Z)
    (vendor : string) (col : column) (w : world) (reg : list filename_row) :
  tbl_urls_filenames (store w) = Some reg →
  vendorToColumn vendor = Some col →
  update_malicious_URLs malicious_urls updateTime vendor w =
  for_each (id <$> reg)
    (update_shard col (length malicious_urls) updateTime malicious_urls)
    (sends [SelectIds] w).
Proof.
  intros Hreg Hcol. unfold update_malicious_URLs. unfold_M.
  rewrite (get_urls_tables_run w reg Hreg), Hcol. reflexivity.
Qed.

Lemma update_activity_URLs_fan_out (alive_urls : list string) (updateTime : Z)
    (w : world) (reg : list filename_row) :
  tbl_urls_filenames (store w) = Some reg →
  update_activity_URLs alive_urls updateTime w =
  for_each (id <$> reg)
    (update_shard C_lastReachable (length alive_urls) updateTime alive_urls)
    (sends [SelectIds] w).
Proof.
  intros Hreg. unfold update_activity_URLs. unfold_M.
  rewrite (get_urls_tables_run w reg Hreg). reflexivity.
Qed.

Lemma update_where_url_in_nil (col : column) (t : Z) (rows : list url_row) :
  update_where_url_in col t [] rows = rows.
Proof.
  unfold update_where_url_in. induction rows as [|r rows IH]; [reflexivity|].
  rewrite fmap_cons, IH, decide_False by apply not_elem_of_nil. reflexivity.
Qed.

(** With no url to look for, a shard's statement is sent with an empty [IN]
    list and changes nothing; if the shard's table is absent the error goes
    to the log. *)
Lemma update_shard_nil_run (col : column) (t : Z) (urls_table : Z) (w : world) :
  update_shard col 0 t [] urls_table w =
  (Returns (),
   World (store w)
         (log w ++ match tbl_urls (store w) !! urls_table with
                   | Some _ => []
                   | None => [NoSuchTable (T_urls urls_table)]
                   end)
         (sent w ++ [UpdateWhereUrlIn urls_table col 0 t []])).
Proof.
  unfold update_shard, try_except_Error, with_conn, execute_update.
  unfold_M. simpl.
  destruct (tbl_urls (store w) !! urls_table) as [rows|] eqn:E; simpl.
  - rewrite update_where_url_in_nil, with_urls_id by exact E.
    rewrite app_nil_r. reflexivity.
  - reflexivity.
Qed.

Lemma fan_out_nil_run (col : column) (t : Z) (tables : list Z) :
  ∀ w : world,
    ∃ errors : list apsw_error,
      for_each tables (update_shard col 0 t []) w =
      (Returns (),
       World (store w) (log w ++ errors) (sent w ++ empty_in_stmts col t tables)).
Proof.
  induction tables as [|urls_table tables IH]; intros w.
  - exists []. simpl. unfold_M. rewrite !app_nil_r. destruct w; reflexivity.
  - rewrite for_each_cons, update_shard_nil_run.
    match goal with |- context [for_each tables _ ?w1] =>
      destruct (IH w1) as [errors Hrun]; rewrite Hrun end.
    eexists. simpl. rewrite <- !app_assoc. reflexivity.
Qed.

(** C6, as claimed, fails: with one registered shard, the empty batch makes
    [update_activity_URLs] send an [UPDATE] whose [IN] list is empty. *)
Lemma empty_batch_is_not_guarded :
  ¬ guarded_no_op (update_activity_URLs [] 200) (start Sample.one_shard).
Proof.
  intros [w' [Hrun [_ Hnone]]].
  vm_compute in Hrun. injection Hrun as <-.
  specialize (Hnone (UpdateWhereUrlIn 1 C_lastReachable 0 200 [])).
  assert (Hfalse : empty_in_list (UpdateWhereUrlIn 1 C_lastReachable 0 200 []) = false).
  { apply Hnone. unfold sent_since. simpl. elem_of_literal. }
  discriminate Hfalse.
Qed.

(** C6, amended.  On a store that has a registry, an empty url collection
    makes either updater return with the store as it was: no row of any
    shard table changes.  No guard skips the statements: after reading the
    shard ids the updater sends, for each registered shard, one [UPDATE]
    whose [IN] list has no placeholder. *)
Theorem empty_batch_changes_nothing
    (updateTime : Z) (vendor : string) (col : column)
    (w : world) (reg : list filename_row) :
  tbl_urls_filenames (store w) = Some reg →
  vendorToColumn vendor = Some col →
  (∃ w', update_malicious_URLs [] updateTime vendor w = (Returns (), w') ∧
         store w' = store w ∧
         sent_since w w' = SelectIds :: empty_in_stmts col updateTime (id <$> reg)) ∧
  (∃ w', update_activity_URLs [] updateTime w = (Returns (), w') ∧
         store w' = store w ∧
         sent_since w w' =
           SelectIds :: empty_in_stmts C_lastReachable updateTime (id <$> reg)).
Proof.
  intros Hreg Hcol. split.
  - rewrite (update_malicious_URLs_fan_out _ _ _ col w reg Hreg Hcol).
    destruct (fan_out_nil_run col updateTime (id <$> reg) (sends [SelectIds] w))
      as [errors Hrun].
    cbn [length]. rewrite Hrun. eexists. split; [reflexivity|].
    split; [reflexivity|].
    unfold sends. cbn [store log sent]. rewrite <- app_assoc. apply sent_since_app.
  - rewrite (update_activity_URLs_fan_out _ _ w reg Hreg).
    destruct (fan_out_nil_run C_lastReachable updateTime (id <$> reg) (sends [SelectIds] w))
      as [errors Hrun].
    cbn [length]. rewrite Hrun. eexists. split; [reflexivity|].
    split; [reflexivity|].
    unfold sends. cbn [store log sent]. rewrite <- app_assoc. apply sent_since_app.
Qed.

Lemma empty_batch_changes_nothing_witness :
  (tbl_urls_filenames (store (start Sample.second_shard_only))
     = Some [FilenameRow 1 "list1"; FilenameRow 2 "list2"] ∧
   vendorToColumn "Yandex" = Some C_lastYandexMalicious) ∧
  (∃ w', update_malicious_URLs [] 200 "Yandex" (start Sample.second_shard_only)
           = (Returns (), w') ∧
         store w' = store (start Sample.second_shard_only) ∧
         sent_since (start Sample.second_shard_only) w' =
           [SelectIds; UpdateWhereUrlIn 1 C_lastYandexMalicious 0 200 [];
            UpdateWhereUrlIn 2 C_lastYandexMalicious 0 200 []]) ∧
  (∃ w', update_activity_URLs [] 200 (start Sample.second_shard_only)
           = (Returns (), w') ∧
         store w' = store (start Sample.second_shard_only) ∧
         sent_since (start Sample.second_shard_only) w' =
           [SelectIds; UpdateWhereUrlIn 1 C_lastReachable 0 200 [];
            UpdateWhereUrlIn 2 C_lastReachable 0 200 []]).
Proof.
  assert (H1 : tbl_urls_filenames (store (start Sample.second_shard_only))
               = Some [FilenameRow 1 "list1"; FilenameRow 2 "list2"]) by reflexivity.
  assert (H2 : vendorToColumn "Yandex" = Some C_lastYandexMalicious) by reflexivity.
  split; [split; assumption|].
  apply (empty_batch_changes_nothing 200 "Yandex" C_lastYandexMalicious
           (start Sample.second_shard_only)
           [FilenameRow 1 "list1"; FilenameRow 2 "list2"] H1 H2).
Defined.

(** C7.  With a vendor that is neither ["Google"] nor ["Yandex"],
    [update_malicious_URLs] raises: the only statement sent before is the
    read of the shard ids, no shard is updated and the store is the one
    before the call.  The error is the [ValueError] of the vendor check
    whenever the registry could be read. *)
Theorem update_malicious_URLs_unknown_vendor
    (malicious_urls : list string) (updateTime : Z) (vendor : string) (w : world) :
  vendor ≠ "Google" → vendor ≠ "Yandex" →
  ∃ (e : exn) (w' : world),
    update_malicious_URLs malicious_urls updateTime vendor w = (Raises e, w') ∧
    store w' = store w ∧
    sent_since w w' = [SelectIds] ∧
    (is_Some (tbl_urls_filenames (store w)) → e = ValueError).
Proof.
  intros H1 H2. unfold update_malicious_URLs. unfold_M.
  destruct (tbl_urls_filenames (store w)) as [reg|] eqn:Hreg.
  - rewrite (get_urls_tables_run w reg Hreg), vendorToColumn_None by assumption.
    eexists _, _. split; [reflexivity|].
    split; [reflexivity|]. split; [apply sent_since_app|reflexivity].
  - rewrite (get_urls_tables_no_registry w Hreg).
    eexists _, _. split; [reflexivity|].
    split; [reflexivity|]. split; [apply sent_since_app|].
    intros [x Hx]. discriminate Hx.
Qed.

Lemma update_malicious_URLs_unknown_vendor_witness :
  ("Bing" ≠ "Google" ∧ "Bing" ≠ "Yandex") ∧
  ∃ (e : exn) (w' : world),
    update_malicious_URLs [Sample.evil] 200 "Bing" (start Sample.one_shard)
      = (Raises e, w') ∧
    store w' = store (start Sample.one_shard) ∧
    sent_since (start Sample.one_shard) w' = [SelectIds] ∧
    (is_Some (tbl_urls_filenames (store (start Sample.one_shard))) → e = ValueError).
Proof.
  assert (H1 : "Bing" ≠ "Google") by discriminate.
  assert (H2 : "Bing" ≠ "Yandex") by discriminate.
  split; [split; assumption|].
  apply (update_malicious_URLs_unknown_vendor [Sample.evil] 200 "Bing"
           (start Sample.one_shard) H1 H2).
Defined.

(** The spec's scenario of a confirmed url, run: the Google timestamp
    becomes 200 and [lastListed] stays at 100. *)
Example update_malicious_URLs_confirmed :
  update_malicious_URLs [Sample.evil] 200 "Google" (start Sample.one_shard) =
  (Returns (),
   World (Db (Some [FilenameRow 1 "list1"]) (Some [])
             {[ 1 := [UrlRow Sample.evil (Some 100) (Some 200) None None
                             (compute_url_hash Sample.evil)] ]})
         []
         [SelectIds; UpdateWhereUrlIn 1 C_lastGoogleMalicious 1 200 [Sample.evil]]).
Proof. vm_compute. reflexivity. Qed.

End StatusUpdater.

(** ** The matcher: identify_suspected_urls *)

Module SuspectMatcher.

Section Scan.

Variable v : string.
Variable prefixes : list prefix_row.

Lemma extend_with_join_run (urls_table prefixSize : Z)
    (acc : list string) (w : world) (rows : list url_row) :
  tbl_urls (store w) !! urls_table = Some rows →
  tbl_maliciousHashPrefixes (store w) = Some prefixes →
  extend_with (execute_select_url_join urls_table prefixSize v) acc w =
  (acc ++ select_url_join prefixSize v rows prefixes, Returns (),
   sends [SelectUrlJoinPrefixes urls_table prefixSize v] w).
Proof.
  intros Hrows Hpre. unfold extend_with, execute_select_url_join.
  unfold_M. simpl. rewrite Hrows, Hpre. reflexivity.
Qed.

Lemma extend_with_join_no_table (urls_table prefixSize : Z)
    (acc : list string) (w : world) :
  tbl_urls (store w) !! urls_table = None →
  extend_with (execute_select_url_join urls_table prefixSize v) acc w =
  (acc, Raises (Error (NoSuchTable (T_urls urls_table))),
   sends [SelectUrlJoinPrefixes urls_table prefixSize v] w).
Proof.
  intros Hrows. unfold extend_with, execute_select_url_join.
  unfold_M. simpl. rewrite Hrows. reflexivity.
Qed.

Lemma scan_sizes_run (urls_table : Z) (rows : list url_row) (prefixSizes : list Z) :
  ∀ (acc : list string) (w : world),
    tbl_urls (store w) !! urls_table = Some rows →
    tbl_maliciousHashPrefixes (store w) = Some prefixes →
    scan_sizes v prefixSizes urls_table acc w =
    (acc ++ suspects_in v prefixSizes prefixes rows, Returns (),
     sends (join_stmts v prefixSizes urls_table) w).
Proof.
  unfold scan_sizes.
  induction prefixSizes as [|n sizes IH]; intros acc w Hrows Hpre.
  - simpl. rewrite app_nil_r, sends_nil. reflexivity.
  - cbn [for_growing].
    rewrite (extend_with_join_run _ _ _ _ rows Hrows Hpre).
    rewrite IH by assumption.
    unfold suspects_in. rewrite bind_cons, app_assoc, sends_sends. reflexivity.
Qed.

Lemma scan_sizes_no_table (urls_table : Z) (n : Z) (sizes : list Z)
    (acc : list string) (w : world) :
  tbl_urls (store w) !! urls_table = None →
  scan_sizes v (n :: sizes) urls_table acc w =
  (acc, Raises (Error (NoSuchTable (T_urls urls_table))),
   sends [SelectUrlJoinPrefixes urls_table n v] w).
Proof.
  intros Hrows. unfold scan_sizes. cbn [for_growing].
  rewrite extend_with_join_no_table by exact Hrows. reflexivity.
Qed.

Lemma scan_tables_app (prefixSizes : list Z) (xs ys : list Z) :
  ∀ (acc : list string) (w : world),
    scan_tables v prefixSizes (xs ++ ys) acc w =
    match scan_tables v prefixSizes xs acc w with
    | (acc', Returns _, w') => scan_tables v prefixSizes ys acc' w'
    | (acc', Raises e, w') => (acc', Raises e, w')
    end.
Proof.
  unfold scan_tables.
  induction xs as [|x xs IH]; intros acc w; [reflexivity|].
  cbn [app for_growing].
  destruct (scan_sizes v prefixSizes x acc w) as [[acc' [[]|e]] w']; [apply IH|reflexivity].
Qed.

(** As long as the tables are there the scan goes through and collects what
    the queries return. *)
Lemma scan_tables_run (urls_tables : list Z) :
  ∀ (acc : list string) (w : world),
    tbl_maliciousHashPrefixes (store w) = Some prefixes →
    (∀ i, i ∈ urls_tables → is_Some (tbl_urls (store w) !! i)) →
    scan_tables v (distinct_prefixSizes v prefixes) urls_tables acc w =
    (acc ++ suspects_of v prefixes (store w) urls_tables, Returns (),
     sends (scan_stmts v (distinct_prefixSizes v prefixes) urls_tables) w).
Proof.
  unfold scan_tables.
  induction urls_tables as [|i tables IH]; intros acc w Hpre Hall.
  - simpl. rewrite app_nil_r, sends_nil. reflexivity.
  - destruct (Hall i (list_elem_of_here _ _)) as [rows Hrows].
    cbn [for_growing].
    rewrite (scan_sizes_run _ rows) by assumption.
    rewrite IH; [|exact Hpre|intros j Hj; apply Hall, list_elem_of_further, Hj].
    unfold suspects_of, scan_stmts. rewrite !bind_cons. unfold rows_of at 2. rewrite Hrows.
    cbn [default]. rewrite app_assoc, sends_sends. reflexivity.
Qed.

(** The clean run of the matcher. *)
Lemma identify_suspected_urls_run (w : world) (reg : list filename_row) :
  tbl_maliciousHashPrefixes (store w) = Some prefixes →
  tbl_urls_filenames (store w) = Some reg →
  (∀ i, i ∈ id <$> reg → is_Some (tbl_urls (store w) !! i)) →
  identify_suspected_urls v w =
  (Returns (suspects_of v prefixes (store w) (id <$> reg)),
   sends (SelectDistinctPrefixSize v :: SelectIds ::
          scan_stmts v (distinct_prefixSizes v prefixes) (id <$> reg)) w).
Proof.
  intros Hpre Hreg Hall.
  unfold identify_suspected_urls, identify_suspected_urls_try,
    execute_select_distinct_prefixSize.
  unfold_M. cbn [store log sent]. rewrite Hpre.
  match goal with |- context [get_urls_tables ?w1] =>
    rewrite (get_urls_tables_run w1 reg Hreg);
    rewrite (scan_tables_run (id <$> reg) [] (sends [SelectIds] w1) Hpre Hall)
  end.
  unfold read_local. unfold_M. unfold sends. cbn [store log sent app].
  rewrite <- !app_assoc. reflexivity.
Qed.

(** The run in which a registered shard has no table: the scan stops at its
    first query, and the matcher logs the error and returns what it had. *)
Lemma identify_suspected_urls_missing_table (w : world) (reg : list filename_row)
    (before after : list Z) (urls_table : Z) (n : Z) (sizes : list Z) :
  tbl_maliciousHashPrefixes (store w) = Some prefixes →
  tbl_urls_filenames (store w) = Some reg →
  id <$> reg = before ++ urls_table :: after →
  (∀ i, i ∈ before → is_Some (tbl_urls (store w) !! i)) →
  tbl_urls (store w) !! urls_table = None →
  distinct_prefixSizes v prefixes = n :: sizes →
  identify_suspected_urls v w =
  (Returns (suspects_of v prefixes (store w) before),
   World (store w) (log w ++ [NoSuchTable (T_urls urls_table)])
         (sent w ++ SelectDistinctPrefixSize v :: SelectIds ::
                    scan_stmts v (n :: sizes) before ++
                    [SelectUrlJoinPrefixes urls_table n v])).
Proof.
  intros Hpre Hreg Hids Hbefore Hnone Hsizes.
  unfold identify_suspected_urls, identify_suspected_urls_try,
    execute_select_distinct_prefixSize.
  unfold_M. cbn [store log sent]. rewrite Hpre.
  match goal with |- context [get_urls_tables ?w1] =>
    rewrite (get_urls_tables_run w1 reg Hreg);
    pose proof (scan_tables_run before [] (sends [SelectIds] w1) Hpre Hbefore) as Hrun
  end.
  rewrite Hids, scan_tables_app, Hrun.
  unfold scan_tables. cbn [for_growing]. rewrite Hsizes.
  rewrite scan_sizes_no_table by exact Hnone.
  unfold read_local. unfold_M. unfold sends. cbn [store log sent app].
  rewrite <- !app_assoc. reflexivity.
Qed.

(** A url the matcher returns comes from a row of a scanned table and a
    prefix row that pass the join at one of the vendor's prefix sizes. *)
Lemma elem_of_select_url_join (u : string) (n : Z) (rows : list url_row) :
  u ∈ select_url_join n v rows prefixes ↔
  ∃ r p, r ∈ rows ∧ p ∈ prefixes ∧ join_where n v r p ∧ url r = u.
Proof.
  unfold select_url_join. rewrite list_elem_of_bind. split.
  - intros [r [Hu Hr]]. apply list_elem_of_bind in Hu as [p [Hu Hp]].
    destruct (decide (join_where n v r p)) as [Hj|_]; [|inversion Hu].
    apply list_elem_of_singleton in Hu. exists r, p. auto.
  - intros [r [p [Hr [Hp [Hj Hu]]]]]. exists r. split; [|exact Hr].
    apply list_elem_of_bind. exists p. split; [|exact Hp].
    rewrite decide_True by exact Hj. apply list_elem_of_singleton. auto.
Qed.

Lemma elem_of_suspects_of (u : string) (d : db) (tables : list Z) :
  u ∈ suspects_of v prefixes d tables ↔
  ∃ i n r p, i ∈ tables ∧ n ∈ distinct_prefixSizes v prefixes ∧
             r ∈ rows_of d i ∧ p ∈ prefixes ∧ join_where n v r p ∧ url r = u.
Proof.
  unfold suspects_of, suspects_in. rewrite list_elem_of_bind. split.
  - intros [i [Hu Hi]]. apply list_elem_of_bind in Hu as [n [Hu Hn]].
    apply elem_of_select_url_join in Hu as [r [p [Hr [Hp [Hj Hu]]]]].
    exists i, n, r, p. eauto 10.
  - intros [i [n [r [p [Hi [Hn [Hr [Hp [Hj Hu]]]]]]]]].
    exists i. split; [|exact Hi]. apply list_elem_of_bind. exists n. split; [|exact Hn].
    apply elem_of_select_url_join. exists r, p. eauto 10.
Qed.

Lemma elem_of_distinct_prefixSizes (n : Z) :
  n ∈ distinct_prefixSizes v prefixes ↔ ∃ p, p ∈ prefixes ∧ vendor p = v ∧ prefixSize p = n.
Proof.
  unfold distinct_prefixSizes. rewrite elem_of_remove_dups, list_elem_of_fmap. split.
  - intros [p [Hn Hp]]. apply list_elem_of_filter in Hp as [Hv Hp]. exists p. auto.
  - intros [p [Hp [Hv Hn]]]. exists p. split; [auto|].
    apply list_elem_of_filter. auto.
Qed.

End Scan.

(** The store [Sample.second_shard_only] is the one these calls leave on a
    new database file. *)
Example second_shard_only_reached :
  (initialise_database ["list1"; "list2"];;
   add_URLs [Sample.evil] 100 "list2";;
   add_maliciousHashPrefixes [Sample.evil_prefix] "Google")
    (start empty_db)
  = (Returns (),
     World Sample.second_shard_only []
           [CreateFilenamesTable; InsertOrIgnoreFilename "list1";
            InsertOrIgnoreFilename "list2"; CreatePrefixesTable;
            SelectIdWhereFilename "list2"; CreateUrlsTable 2;
            InsertUrlOnConflict 2 Sample.evil 100 (compute_url_hash Sample.evil);
            DeletePrefixesWhereVendor "Google";
            InsertPrefix Sample.evil_prefix 5 "Google"]).
Proof. vm_compute. reflexivity. Qed.

(** The spec's scenario, run from a new database file: one source, its url,
    the five-byte prefix of the url's hash, and the matcher finds the url. *)
Example scenario_finds_evil :
  fst ((initialise_database ["list1"];;
        add_URLs [Sample.evil] 100 "list1";;
        add_maliciousHashPrefixes [Sample.evil_prefix] "Google";;
        identify_suspected_urls "Google") (start empty_db))
  = Returns [Sample.evil].
Proof. vm_compute. reflexivity. Qed.

Lemma second_shard_only_run :
  identify_suspected_urls "Google" (start Sample.second_shard_only) =
  (Returns [],
   World Sample.second_shard_only [NoSuchTable (T_urls 1)]
         [SelectDistinctPrefixSize "Google"; SelectIds;
          SelectUrlJoinPrefixes 1 5 "Google"]).
Proof. vm_compute. reflexivity. Qed.

(** C1, as claimed, fails: the first registered shard has no table yet, the
    matcher stops at it and returns the empty list, while the second
    shard's table stores a url whose hash starts with a Google prefix. *)
Lemma matching_url_in_later_shard_not_returned :
  ¬ returns_the_matches "Google" (start Sample.second_shard_only).
Proof.
  intros [result [w' [prefixes [Hrun [Hpre Hiff]]]]].
  rewrite second_shard_only_run in Hrun. injection Hrun as <- _.
  cbv [Sample.second_shard_only start store tbl_maliciousHashPrefixes] in Hpre.
  injection Hpre as <-.
  assert (Hin : Sample.evil ∈ @nil string); [|inversion Hin].
  apply Hiff. exists (compute_url_hash Sample.evil). split.
  - exists [FilenameRow 1 "list1"; FilenameRow 2 "list2"], 2,
      [new_url_row 100 Sample.evil], (new_url_row 100 Sample.evil).
    split; [reflexivity|].
    split; [cbn [fmap list_fmap id]; elem_of_literal|].
    split; [vm_compute; reflexivity|].
    split; [elem_of_literal|]. split; reflexivity.
  - exists 5, (prefix_entry "Google" Sample.evil_prefix).
    split; [vm_compute; elem_of_literal|].
    split; [elem_of_literal|].
    split; [reflexivity|]. split; vm_compute; reflexivity.
Qed.

(** C1, amended.  On a store where the prefix index exists with every
    [prefixSize] equal to its prefix's byte length, and where every
    registered shard has its table, the matcher returns without logging an
    error, and a url is in the returned list exactly when some shard table
    stores it with a hash whose first [L] bytes are a stored prefix of
    length [L] of the vendor, for one of the vendor's distinct prefix sizes
    [L].  (The list may repeat a url.) *)
Theorem identify_suspected_urls_returns_the_matches
    (V : string) (w : world) (prefixes : list prefix_row) :
  tbl_maliciousHashPrefixes (store w) = Some prefixes →
  prefix_sizes_exact prefixes →
  shards_created (store w) →
  returns_the_matches V w ∧
  ∃ result w', identify_suspected_urls V w = (Returns result, w') ∧
               store w' = store w ∧ log w' = log w.
Proof.
  intros Hpre Hexact [reg [Hreg Hall]].
  pose proof (identify_suspected_urls_run V prefixes w reg Hpre Hreg Hall) as Hrun.
  split; [|eexists _, _; split; [exact Hrun|split; reflexivity]].
  eexists _, _, prefixes. split; [exact Hrun|]. split; [exact Hpre|].
  intros u. rewrite elem_of_suspects_of. split.
  - intros [i [n [r [p [Hi [Hn [Hr [Hp [[Hsub Hv] Hu]]]]]]]]].
    exists (hash r). split.
    + destruct (Hall i Hi) as [rows Hrows].
      unfold rows_of in Hr. rewrite Hrows in Hr.
      exists reg, i, rows, r. eauto 10.
    + exists (Z.of_nat (length (hashPrefix p))), p.
      split.
      { apply elem_of_distinct_prefixSizes. exists p.
        split; [exact Hp|]. split; [exact Hv|].
        unfold prefix_sizes_exact in Hexact. rewrite Forall_forall in Hexact.
        apply Hexact, Hp. }
      split; [exact Hp|]. split; [exact Hv|]. split; [reflexivity|].
      rewrite <- Hsub. apply HashCodec.substring1_of_cut_length.
  - intros [h [[reg' [i [rows [r [Hreg' [Hi [Hrows [Hr [Hu Hh]]]]]]]]]
               [L [p [HL [Hp [Hv [_ Hsub]]]]]]]].
    rewrite Hreg in Hreg'. injection Hreg' as <-.
    exists i, L, r, p.
    split; [exact Hi|]. split; [exact HL|].
    split; [unfold rows_of; rewrite Hrows; exact Hr|].
    split; [exact Hp|]. split; [|exact Hu].
    split; [rewrite Hh; exact Hsub|exact Hv].
Qed.

Lemma identify_suspected_urls_returns_the_matches_witness :
  (tbl_maliciousHashPrefixes (store (start Sample.one_shard_listed))
     = Some [prefix_entry "Google" Sample.evil_prefix] ∧
   prefix_sizes_exact [prefix_entry "Google" Sample.evil_prefix] ∧
   shards_created (store (start Sample.one_shard_listed))) ∧
  returns_the_matches "Google" (start Sample.one_shard_listed) ∧
  ∃ result w', identify_suspected_urls "Google" (start Sample.one_shard_listed)
                 = (Returns result, w') ∧
               store w' = store (start Sample.one_shard_listed) ∧
               log w' = log (start Sample.one_shard_listed).
Proof.
  assert (H1 : tbl_maliciousHashPrefixes (store (start Sample.one_shard_listed))
               = Some [prefix_entry "Google" Sample.evil_prefix]) by reflexivity.
  assert (H2 : prefix_sizes_exact [prefix_entry "Google" Sample.evil_prefix])
    by (constructor; [reflexivity|constructor]).
  assert (H3 : shards_created (store (start Sample.one_shard_listed))).
  { exists [FilenameRow 1 "list1"]. split; [reflexivity|].
    intros i Hi. cbn [fmap list_fmap id] in Hi.
    apply list_elem_of_singleton in Hi. subst i.
    exists [new_url_row 100 Sample.evil]. vm_compute. reflexivity. }
  split; [repeat split; assumption|].
  apply (identify_suspected_urls_returns_the_matches "Google"
           (start Sample.one_shard_listed)
           [prefix_entry "Google" Sample.evil_prefix] H1 H2 H3).
Defined.

(** C2, as claimed, fails: on the store whose first shard has no table the
    query of that shard raises a storage error, yet the matcher returns the
    empty list, the very value it returns after a scan that completed
    without a match. *)
Lemma failed_scan_returns_like_a_clean_one :
  ¬ failure_is_visible "Google" (start Sample.second_shard_only) ∧
  fst (identify_suspected_urls "Google" (start Sample.second_shard_only)) = Returns [] ∧
  identify_suspected_urls "Google" (start Sample.one_shard) =
    (Returns [], World Sample.one_shard [] [SelectDistinctPrefixSize "Google"; SelectIds]).
Proof.
  split; [|split; [rewrite second_shard_only_run; reflexivity|vm_compute; reflexivity]].
  intros Hvisible.
  specialize (Hvisible _ _ second_shard_only_run).
  discriminate Hvisible.
Qed.

(** C2, amended.  When the scan reaches a registered shard whose table is
    absent (and the vendor has at least one prefix size, so that the shard
    is queried), the storage error of that query goes to the error log and
    the matcher returns normally: the list holds the suspects of the shards
    scanned before, the store is untouched, and no later shard is
    queried. *)
Theorem identify_suspected_urls_swallows_storage_error
    (V : string) (w : world) (prefixes : list prefix_row) (reg : list filename_row)
    (before after : list Z) (urls_table : Z) :
  tbl_maliciousHashPrefixes (store w) = Some prefixes →
  tbl_urls_filenames (store w) = Some reg →
  id <$> reg = before ++ urls_table :: after →
  (∀ i, i ∈ before → is_Some (tbl_urls (store w) !! i)) →
  tbl_urls (store w) !! urls_table = None →
  distinct_prefixSizes V prefixes ≠ [] →
  ∃ w',
    identify_suspected_urls V w =
      (Returns (suspects_of V prefixes (store w) before), w') ∧
    store w' = store w ∧
    log w' = log w ++ [NoSuchTable (T_urls urls_table)] ∧
    ∀ i n, SelectUrlJoinPrefixes i n V ∈ sent_since w w' → i ∈ before ∨ i = urls_table.
Proof.
  intros Hpre Hreg Hids Hbefore Hnone Hsizes.
  destruct (distinct_prefixSizes V prefixes) as [|n sizes] eqn:Hd; [contradiction|].
  eexists. split.
  { apply (identify_suspected_urls_missing_table V prefixes w reg before after
             urls_table n sizes); assumption. }
  split; [reflexivity|]. split; [reflexivity|].
  intros i m Hin. rewrite sent_since_app in Hin.
  apply elem_of_cons in Hin as [Hin|Hin]; [discriminate Hin|].
  apply elem_of_cons in Hin as [Hin|Hin]; [discriminate Hin|].
  apply elem_of_app in Hin as [Hin|Hin].
  - left. unfold scan_stmts in Hin. apply list_elem_of_bind in Hin as [j [Hin Hj]].
    unfold join_stmts in Hin. apply list_elem_of_fmap in Hin as [k [Heq _]].
    injection Heq as -> _. exact Hj.
  - right. apply list_elem_of_singleton in Hin. injection Hin as -> _. reflexivity.
Qed.

Lemma identify_suspected_urls_swallows_storage_error_witness :
  (tbl_maliciousHashPrefixes (store (start Sample.second_shard_only))
     = Some [prefix_entry "Google" Sample.evil_prefix] ∧
   tbl_urls_filenames (store (start Sample.second_shard_only))
     = Some [FilenameRow 1 "list1"; FilenameRow 2 "list2"] ∧
   id <$> [FilenameRow 1 "list1"; FilenameRow 2 "list2"] = [] ++ 1 :: [2] ∧
   (∀ i, i ∈ @nil Z → is_Some (tbl_urls (store (start Sample.second_shard_only)) !! i)) ∧
   tbl_urls (store (start Sample.second_shard_only)) !! 1 = None ∧
   distinct_prefixSizes "Google" [prefix_entry "Google" Sample.evil_prefix] ≠ []) ∧
  ∃ w',
    identify_suspected_urls "Google" (start Sample.second_shard_only) =
      (Returns (suspects_of "Google" [prefix_entry "Google" Sample.evil_prefix]
                  (store (start Sample.second_shard_only)) []), w') ∧
    store w' = store (start Sample.second_shard_only) ∧
    log w' = log (start Sample.second_shard_only) ++ [NoSuchTable (T_urls 1)] ∧
    ∀ i n, SelectUrlJoinPrefixes i n "Google" ∈ sent_since (start Sample.second_shard_only) w'
           → i ∈ @nil Z ∨ i = 1.
Proof.
  assert (H1 : tbl_maliciousHashPrefixes (store (start Sample.second_shard_only))
               = Some [prefix_entry "Google" Sample.evil_prefix]) by reflexivity.
  assert (H2 : tbl_urls_filenames (store (start Sample.second_shard_only))
               = Some [FilenameRow 1 "list1"; FilenameRow 2 "list2"]) by reflexivity.
  assert (H3 : id <$> [FilenameRow 1 "list1"; FilenameRow 2 "list2"] = [] ++ 1 :: [2])
    by reflexivity.
  assert (H4 : ∀ i, i ∈ @nil Z →
                    is_Some (tbl_urls (store (start Sample.second_shard_only)) !! i))
    by (intros i Hi; inversion Hi).
  assert (H5 : tbl_urls (store (start Sample.second_shard_only)) !! 1 = None)
    by (vm_compute; reflexivity).
  assert (H6 : distinct_prefixSizes "Google" [prefix_entry "Google" Sample.evil_prefix] ≠ [])
    by (vm_compute; discriminate).
  split; [repeat split; assumption|].
  apply (identify_suspected_urls_swallows_storage_error "Google"
           (start Sample.second_shard_only) [prefix_entry "Google" Sample.evil_prefix]
           [FilenameRow 1 "list1"; FilenameRow 2 "list2"] [] [2] 1 H1 H2 H3 H4 H5 H6).
Defined.

End SuspectMatcher.

(** ** Tables and the registry, further *)

Module Tables.

(** X1.  [get_urls_tables] never changes the store.  With the registry table
    present it returns the registered ids, in the registry's order, and logs
    nothing; without it the failed read is logged and the call raises
    [UnboundLocalError], the local [urls_tables] never having been bound: it
    does not return an empty list. *)
Theorem get_urls_tables_lists_or_raises (w : world) :
  ∃ w', store w' = store w ∧
        match tbl_urls_filenames (store w) with
        | Some reg =>
            get_urls_tables w = (Returns (id <$> reg), w') ∧ log w' = log w
        | None =>
            get_urls_tables w = (Raises UnboundLocalError, w') ∧
            log w' = log w ++ [NoSuchTable T_urls_filenames]
        end.
Proof.
  destruct (tbl_urls_filenames (store w)) as [reg|] eqn:Hreg.
  - exists (sends [SelectIds] w). split; [reflexivity|].
    split; [apply get_urls_tables_run, Hreg|reflexivity].
  - eexists. split; [|split; [apply get_urls_tables_no_registry, Hreg|]]; reflexivity.
Qed.

Lemma create_maliciousHashPrefixes_table_run (w : world) :
  create_maliciousHashPrefixes_table w =
  (Returns (),
   World (with_prefixes (store w) (default [] (tbl_maliciousHashPrefixes (store w))))
         (log w) (sent w ++ [CreatePrefixesTable])).
Proof.
  unfold create_maliciousHashPrefixes_table, try_except_Error, with_conn,
    execute_create_prefixes_table.
  unfold_M. simpl.
  destruct w as [[f p m] lg st]. simpl. destruct p as [rows|]; reflexivity.
Qed.

Lemma initialise_database_run (names : list string) (w : world) :
  initialise_database names w =
  (Returns (),
   World (Db (Some (register_all names (default [] (tbl_urls_filenames (store w)))))
             (Some (default [] (tbl_maliciousHashPrefixes (store w))))
             (tbl_urls (store w)))
         (log w)
         (sent w ++ CreateFilenamesTable :: (InsertOrIgnoreFilename <$> names)
                 ++ [CreatePrefixesTable])).
Proof.
  unfold initialise_database. unfold_M.
  rewrite Registry.create_filenames_table_run, create_maliciousHashPrefixes_table_run.
  simpl. rewrite <- app_assoc. reflexivity.
Qed.

(** Every name of a batch is in the registry once the batch went through. *)
Lemma elem_of_register_all (names : list string) :
  ∀ (reg : list filename_row) (n : string),
    n ∈ names → n ∈ urls_filename <$> register_all names reg.
Proof.
  induction names as [|name names IH]; intros reg n Hn; [inversion Hn|].
  rewrite Registry.register_all_cons.
  apply elem_of_cons in Hn as [->|Hn]; [|apply IH, Hn].
  destruct (Registry.register_all_appends names (insert_or_ignore name reg))
    as [added [-> _]].
  rewrite fmap_app. apply elem_of_app. left.
  unfold insert_or_ignore. destruct (decide (name ∈ urls_filename <$> reg)) as [Hin|_];
    [exact Hin|].
  rewrite fmap_app. apply elem_of_app. right. apply list_elem_of_here.
Qed.

(** A batch of names that are all registered adds nothing. *)
Lemma register_all_registered (names : list string) (reg : list filename_row) :
  (∀ n, n ∈ names → n ∈ urls_filename <$> reg) → register_all names reg = reg.
Proof.
  intros Hall. destruct (Registry.register_all_appends names reg) as [added [Heq Hadded]].
  destruct added as [|row added]; [rewrite Heq; apply app_nil_r|].
  destruct (Hadded row (list_elem_of_here _ _)) as [H1 H2].
  exfalso. apply H2, Hall, H1.
Qed.

Lemma register_all_idempotent (names : list string) (reg : list filename_row) :
  register_all names (register_all names reg) = register_all names reg.
Proof. apply register_all_registered. intros n Hn. apply elem_of_register_all, Hn. Qed.

(** X3.  [initialise_database] always returns and logs nothing.  Afterwards
    the registry holds every name of the batch, the prefix index exists with
    the entries it had (none if it is new), and the shard tables are as they
    were; a second identical call leaves the store as the first one did. *)
Theorem initialise_database_creates_the_tables (names : list string) (w : world) :
  ∃ w' reg,
    initialise_database names w = (Returns (), w') ∧
    tbl_urls_filenames (store w') = Some reg ∧
    (∀ n, n ∈ names → n ∈ urls_filename <$> reg) ∧
    tbl_maliciousHashPrefixes (store w') =
      Some (default [] (tbl_maliciousHashPrefixes (store w))) ∧
    tbl_urls (store w') = tbl_urls (store w) ∧
    log w' = log w ∧
    ∃ w'', initialise_database names w' = (Returns (), w'') ∧ store w'' = store w'.
Proof.
  eexists _, _. split; [apply initialise_database_run|].
  split; [reflexivity|].
  split; [intros n Hn; apply elem_of_register_all, Hn|].
  do 3 (split; [reflexivity|]).
  eexists. split; [apply initialise_database_run|].
  simpl. rewrite register_all_idempotent. reflexivity.
Qed.

(** The id given to a new row is above every id in use. *)
Lemma next_rowid_above (reg : list filename_row) (r : filename_row) :
  r ∈ reg → id r < next_rowid reg.
Proof.
  destruct reg as [|r0 reg]; [intros H; inversion H|].
  unfold next_rowid. intros Hr.
  assert (Hmax : ∀ (l : list filename_row) (z : Z) (x : filename_row),
             x ∈ l → id x ≤ foldr Z.max z (id <$> l)).
  { induction l as [|y l IH]; intros z x Hx; [inversion Hx|].
    rewrite fmap_cons. cbn [foldr].
    apply elem_of_cons in Hx as [->|Hx]; [lia|].
    specialize (IH z x Hx). lia. }
  assert (Hinit : ∀ (l : list Z) (z : Z), z ≤ foldr Z.max z l).
  { induction l as [|y l IH]; intros z; cbn [foldr]; [lia|]. specialize (IH z). lia. }
  apply elem_of_cons in Hr as [->|Hr].
  - specialize (Hinit (id <$> reg) (id r0)). lia.
  - specialize (Hmax reg (id r0) r Hr). lia.
Qed.

Lemma insert_or_ignore_unique (name : string) (reg : list filename_row) :
  registry_unique reg → registry_unique (insert_or_ignore name reg).
Proof.
  intros [Hnames Hids]. unfold insert_or_ignore.
  destruct (decide (name ∈ urls_filename <$> reg)) as [Hin|Hnin]; [split; assumption|].
  split; rewrite fmap_app; apply NoDup_app.
  - split; [exact Hnames|]. split; [|apply NoDup_singleton].
    intros x Hx Hx'. apply list_elem_of_singleton in Hx'. subst x. exact (Hnin Hx).
  - split; [exact Hids|]. split; [|apply NoDup_singleton].
    intros x Hx Hx'. apply list_elem_of_singleton in Hx'. simpl in Hx'. subst x.
    apply list_elem_of_fmap in Hx as [r [Heq Hr]].
    pose proof (next_rowid_above reg r Hr). lia.
Qed.

Lemma register_all_unique (names : list string) :
  ∀ reg, registry_unique reg → registry_unique (register_all names reg).
Proof.
  induction names as [|name names IH]; intros reg H; [exact H|].
  rewrite Registry.register_all_cons. apply IH, insert_or_ignore_unique, H.
Qed.

(** What the lookup of a file name returns is the id of a row with that
    name. *)
Lemma select_id_row (n : string) (i : Z) (rest : list Z) (reg : list filename_row) :
  select_id n reg = i :: rest →
  rest = [] ∧ ∃ r, r ∈ reg ∧ urls_filename r = n ∧ id r = i.
Proof.
  unfold select_id. intros H.
  destruct (filter (λ r, urls_filename r = n) reg) as [|r l] eqn:Hf; [discriminate|].
  rewrite fmap_cons in H. cbn [take] in H. injection H as <- <-.
  split; [reflexivity|].
  assert (Hr : r ∈ filter (λ r, urls_filename r = n) reg)
    by (rewrite Hf; apply list_elem_of_here).
  apply list_elem_of_filter in Hr as [Hn Hr]. exists r. auto.
Qed.

Lemma select_id_registered (n : string) (reg : list filename_row) :
  n ∈ urls_filename <$> reg → ∃ i, select_id n reg = [i].
Proof.
  intros Hin. apply list_elem_of_fmap in Hin as [r [Hn Hr]].
  assert (Hf : r ∈ filter (λ r, urls_filename r = n) reg)
    by (apply list_elem_of_filter; auto).
  unfold select_id.
  destruct (filter (λ r, urls_filename r = n) reg) as [|r0 l]; [inversion Hf|].
  exists (id r0). reflexivity.
Qed.

(** With unique names, a row's name resolves to that row's id. *)
Lemma select_id_of_row (reg : list filename_row) (r : filename_row) :
  NoDup (urls_filename <$> reg) → r ∈ reg → select_id (urls_filename r) reg = [id r].
Proof.
  unfold select_id. induction reg as [|r0 reg IH]; intros Hnd Hr; [inversion Hr|].
  rewrite fmap_cons in Hnd. apply NoDup_cons in Hnd as [Hnot Hnd].
  rewrite filter_cons. destruct (decide (urls_filename r0 = urls_filename r)) as [E|E].
  - apply elem_of_cons in Hr as [->|Hr]; [reflexivity|].
    exfalso. apply Hnot. rewrite E. apply list_elem_of_fmap. exists r. auto.
  - apply elem_of_cons in Hr as [->|Hr]; [contradiction|]. apply IH; assumption.
Qed.

Lemma NoDup_fmap_elem_inj {A B} (f : A → B) (l : list A) (x y : A) :
  NoDup (f <$> l) → x ∈ l → y ∈ l → f x = f y → x = y.
Proof.
  induction l as [|a l IH]; intros Hnd Hx Hy Heq; [inversion Hx|].
  rewrite fmap_cons in Hnd. apply NoDup_cons in Hnd as [Hnot Hnd].
  apply elem_of_cons in Hx as [->|Hx]; apply elem_of_cons in Hy as [->|Hy].
  - reflexivity.
  - exfalso. apply Hnot. rewrite Heq. apply list_elem_of_fmap. exists y. auto.
  - exfalso. apply Hnot. rewrite <- Heq. apply list_elem_of_fmap. exists x. auto.
  - apply IH; assumption.
Qed.

(** X4.  [create_filenames_table] keeps the registry's constraints: if no
    name and no id occurred twice before, none does afterwards (a new row
    gets an id above all ids in use).  Then every name of the batch resolves
    to exactly one id, and two names that resolve to the same id are the
    same name. *)
Theorem create_filenames_table_resolves (names : list string) (w : world) :
  registry_unique (default [] (tbl_urls_filenames (store w))) →
  ∃ w' reg,
    create_filenames_table names w = (Returns (), w') ∧
    tbl_urls_filenames (store w') = Some reg ∧
    registry_unique reg ∧
    (∀ n, n ∈ names → ∃ i, select_id n reg = [i]) ∧
    (∀ n1 n2 i, select_id n1 reg = [i] → select_id n2 reg = [i] → n1 = n2).
Proof.
  intros Huniq. eexists _, _. split; [apply Registry.create_filenames_table_run|].
  split; [reflexivity|].
  pose proof (register_all_unique names _ Huniq) as [Hnames Hids].
  split; [split; assumption|].
  split.
  { intros n Hn. apply select_id_registered, elem_of_register_all, Hn. }
  intros n1 n2 i H1 H2.
  apply select_id_row in H1 as [_ [r1 [Hr1 [<- Hi1]]]].
  apply select_id_row in H2 as [_ [r2 [Hr2 [<- Hi2]]]].
  f_equal. apply (NoDup_fmap_elem_inj id _ r1 r2 Hids Hr1 Hr2). congruence.
Qed.

Lemma create_filenames_table_resolves_witness :
  registry_unique (default [] (tbl_urls_filenames (store (start Sample.one_shard)))) ∧
  ∃ w' reg,
    create_filenames_table ["list2"; "list1"; "list3"] (start Sample.one_shard)
      = (Returns (), w') ∧
    tbl_urls_filenames (store w') = Some reg ∧
    registry_unique reg ∧
    (∀ n, n ∈ ["list2"; "list1"; "list3"] → ∃ i, select_id n reg = [i]).
Proof.
  assert (H1 : registry_unique
                 (default [] (tbl_urls_filenames (store (start Sample.one_shard))))).
  { split; cbn; apply NoDup_singleton. }
  split; [exact H1|].
  destruct (create_filenames_table_resolves ["list2"; "list1"; "list3"]
              (start Sample.one_shard) H1)
    as [w' [reg [Hrun [Hreg [Huniq [Hres _]]]]]].
  exists w', reg. repeat split; try assumption; apply Huniq.
Defined.

End Tables.

(** ** Ingestion, further *)

Module Upserts.

Lemma row_of_upsert_urls_absent (t : Z) (u : string) (urls : list string) :
  ∀ rows : list url_row,
    row_of u rows = None →
    row_of u (upsert_urls t urls rows) =
    if decide (u ∈ urls) then Some (new_url_row t u) else None.
Proof.
  induction urls as [|u' urls IH]; intros rows Hr.
  - unfold upsert_urls. cbn [foldl].
    rewrite decide_False by apply not_elem_of_nil. exact Hr.
  - rewrite Ingestion.upsert_urls_cons.
    destruct (decide (u' = u)) as [->|Hne].
    + rewrite decide_True by apply list_elem_of_here.
      pose proof (Ingestion.row_of_upsert_same (new_url_row t u) rows) as Hup.
      simpl in Hup. rewrite Hr in Hup.
      rewrite (Ingestion.row_of_upsert_urls _ _ _ _ _ Hup).
      destruct (decide (u ∈ urls)); reflexivity.
    + rewrite IH by (rewrite Ingestion.row_of_upsert_other by exact Hne; exact Hr).
      destruct (decide (u ∈ urls)) as [Hin|Hnin].
      * rewrite decide_True by (apply list_elem_of_further, Hin). reflexivity.
      * rewrite decide_False; [reflexivity|].
        rewrite not_elem_of_cons. split; [congruence|exact Hnin].
Qed.

(** The urls of a table after one upsert. *)
Lemma urls_of_upsert (new : url_row) (rows : list url_row) :
  url <$> upsert new rows =
  if decide (url new ∈ url <$> rows) then url <$> rows
  else (url <$> rows) ++ [url new].
Proof.
  induction rows as [|r rows IH]; cbn [upsert].
  - rewrite decide_False by apply not_elem_of_nil. reflexivity.
  - destruct (decide (url r = url new)) as [E|E].
    + rewrite decide_True by (rewrite fmap_cons, E; apply list_elem_of_here).
      reflexivity.
    + rewrite !fmap_cons, IH.
      destruct (decide (url new ∈ url <$> rows)) as [Hin|Hnin].
      * rewrite decide_True by (apply list_elem_of_further, Hin). reflexivity.
      * rewrite decide_False; [reflexivity|].
        rewrite not_elem_of_cons. split; [congruence|exact Hnin].
Qed.

Lemma upsert_unique (new : url_row) (rows : list url_row) :
  urls_unique rows → urls_unique (upsert new rows).
Proof.
  unfold urls_unique. intros H. rewrite urls_of_upsert.
  destruct (decide (url new ∈ url <$> rows)) as [Hin|Hnin]; [exact H|].
  apply NoDup_app. split; [exact H|]. split; [|apply NoDup_singleton].
  intros x Hx Hx'. apply list_elem_of_singleton in Hx'. subst x. exact (Hnin Hx).
Qed.

Lemma upsert_urls_unique (t : Z) (urls : list string) :
  ∀ rows, urls_unique rows → urls_unique (upsert_urls t urls rows).
Proof.
  induction urls as [|u urls IH]; intros rows H; [exact H|].
  rewrite Ingestion.upsert_urls_cons. apply IH, upsert_unique, H.
Qed.

Lemma elem_of_urls_of_upsert_urls (t : Z) (urls : list string) :
  ∀ (rows : list url_row) (u : string),
    u ∈ url <$> upsert_urls t urls rows ↔ u ∈ url <$> rows ∨ u ∈ urls.
Proof.
  induction urls as [|u' urls IH]; intros rows u.
  - unfold upsert_urls. cbn [foldl]. split; [auto|].
    intros [H|H]; [exact H|inversion H].
  - rewrite Ingestion.upsert_urls_cons, IH, urls_of_upsert. cbn [url new_url_row].
    rewrite elem_of_cons.
    destruct (decide (u' ∈ url <$> rows)) as [Hin|Hnin].
    + split; [intros [H|H]; auto|].
      intros [H|[->|H]]; auto.
    + rewrite elem_of_app, list_elem_of_singleton. tauto.
Qed.

(** X5.  When the file name resolves to a shard and a url of the batch has no
    row in that shard's table (the table may not exist yet), [add_URLs]
    returns and the table then holds for that url the row
    (url, lastListed = the call's timestamp, no status, hash of the url). *)
Theorem add_URLs_inserts_new_url
    (urls : list string) (updateTime : Z) (filename : string) (w : world)
    (reg : list filename_row) (table : Z) (u : string) :
  tbl_urls_filenames (store w) = Some reg →
  select_id filename reg = [table] →
  row_of u (rows_of (store w) table) = None →
  u ∈ urls →
  ∃ w1 rows1,
    add_URLs urls updateTime filename w = (Returns (), w1) ∧
    tbl_urls (store w1) !! table = Some rows1 ∧
    row_of u rows1 =
      Some (UrlRow u (Some updateTime) None None None (compute_url_hash u)) ∧
    log w1 = log w.
Proof.
  intros Hreg Hsel Hnone Hin. eexists _, _.
  split; [apply (Ingestion.add_URLs_registered _ _ _ _ reg table [] Hreg Hsel)|].
  split; [apply rows_of_with_urls|].
  split; [|reflexivity].
  rewrite (row_of_upsert_urls_absent _ _ _ _ Hnone), decide_True by exact Hin.
  reflexivity.
Qed.

Lemma add_URLs_inserts_new_url_witness :
  (tbl_urls_filenames (store (start Sample.second_shard_only))
     = Some [FilenameRow 1 "list1"; FilenameRow 2 "list2"] ∧
   select_id "list1" [FilenameRow 1 "list1"; FilenameRow 2 "list2"] = [1] ∧
   row_of "http://new.example/" (rows_of (store (start Sample.second_shard_only)) 1) = None ∧
   "http://new.example/" ∈ [Sample.evil; "http://new.example/"]) ∧
  ∃ w1 rows1,
    add_URLs [Sample.evil; "http://new.example/"] 200 "list1"
      (start Sample.second_shard_only) = (Returns (), w1) ∧
    tbl_urls (store w1) !! 1 = Some rows1 ∧
    row_of "http://new.example/" rows1 =
      Some (UrlRow "http://new.example/" (Some 200) None None None
              (compute_url_hash "http://new.example/")) ∧
    log w1 = log (start Sample.second_shard_only).
Proof.
  assert (H1 : tbl_urls_filenames (store (start Sample.second_shard_only))
               = Some [FilenameRow 1 "list1"; FilenameRow 2 "list2"]) by reflexivity.
  assert (H2 : select_id "list1" [FilenameRow 1 "list1"; FilenameRow 2 "list2"] = [1])
    by reflexivity.
  assert (H3 : row_of "http://new.example/"
                 (rows_of (store (start Sample.second_shard_only)) 1) = None)
    by (vm_compute; reflexivity).
  assert (H4 : "http://new.example/" ∈ [Sample.evil; "http://new.example/"])
    by elem_of_literal.
  split; [repeat split; assumption|].
  apply (add_URLs_inserts_new_url [Sample.evil; "http://new.example/"] 200 "list1"
           (start Sample.second_shard_only)
           [FilenameRow 1 "list1"; FilenameRow 2 "list2"] 1 "http://new.example/"
           H1 H2 H3 H4).
Defined.

(** X6.  [add_URLs] touches no url outside its batch: for a url that is not
    in the batch, the shard's table holds afterwards the row it held before,
    or still none; and the urls the table holds afterwards are the ones it
    held before together with the batch's. *)
Theorem add_URLs_leaves_other_urls
    (urls : list string) (updateTime : Z) (filename : string) (w : world)
    (reg : list filename_row) (table : Z) :
  tbl_urls_filenames (store w) = Some reg →
  select_id filename reg = [table] →
  ∃ w1 rows1,
    add_URLs urls updateTime filename w = (Returns (), w1) ∧
    tbl_urls (store w1) !! table = Some rows1 ∧
    (∀ u, u ∉ urls → row_of u rows1 = row_of u (rows_of (store w) table)) ∧
    (∀ u, u ∈ url <$> rows1 ↔ u ∈ url <$> rows_of (store w) table ∨ u ∈ urls).
Proof.
  intros Hreg Hsel. eexists _, _.
  split; [apply (Ingestion.add_URLs_registered _ _ _ _ reg table [] Hreg Hsel)|].
  split; [apply rows_of_with_urls|].
  split; [|intros u; apply elem_of_urls_of_upsert_urls].
  intros u Hnot.
  destruct (row_of u (rows_of (store w) table)) as [r|] eqn:Hr.
  - rewrite (Ingestion.row_of_upsert_urls _ _ _ _ r Hr), decide_False by exact Hnot.
    reflexivity.
  - rewrite (row_of_upsert_urls_absent _ _ _ _ Hr), decide_False by exact Hnot.
    reflexivity.
Qed.

Lemma add_URLs_leaves_other_urls_witness :
  (tbl_urls_filenames (store (start Sample.two_shards))
     = Some [FilenameRow 1 "list1"; FilenameRow 2 "list2"] ∧
   select_id "list2" [FilenameRow 1 "list1"; FilenameRow 2 "list2"] = [2]) ∧
  ∃ w1 rows1,
    add_URLs [Sample.evil] 200 "list2" (start Sample.two_shards) = (Returns (), w1) ∧
    tbl_urls (store w1) !! 2 = Some rows1 ∧
    (∀ u, u ∉ [Sample.evil] →
          row_of u rows1 = row_of u (rows_of (store (start Sample.two_shards)) 2)).
Proof.
  assert (H1 : tbl_urls_filenames (store (start Sample.two_shards))
               = Some [FilenameRow 1 "list1"; FilenameRow 2 "list2"]) by reflexivity.
  assert (H2 : select_id "list2" [FilenameRow 1 "list1"; FilenameRow 2 "list2"] = [2])
    by reflexivity.
  split; [split; assumption|].
  destruct (add_URLs_leaves_other_urls [Sample.evil] 200 "list2" (start Sample.two_shards)
              [FilenameRow 1 "list1"; FilenameRow 2 "list2"] 2 H1 H2)
    as [w1 [rows1 [Hrun [Hrows [Hother _]]]]].
  exists w1, rows1. repeat split; assumption.
Defined.

(** X7.  [add_URLs] keeps the constraints of the shard's table: if no url
    occurred twice before, none does afterwards, and if every row held the
    hash of its url before, every row does afterwards. *)
Theorem add_URLs_keeps_table_constraints
    (urls : list string) (updateTime : Z) (filename : string) (w : world)
    (reg : list filename_row) (table : Z) :
  tbl_urls_filenames (store w) = Some reg →
  select_id filename reg = [table] →
  urls_unique (rows_of (store w) table) →
  Forall hash_of_url (rows_of (store w) table) →
  ∃ w1 rows1,
    add_URLs urls updateTime filename w = (Returns (), w1) ∧
    tbl_urls (store w1) !! table = Some rows1 ∧
    urls_unique rows1 ∧
    Forall hash_of_url rows1.
Proof.
  intros Hreg Hsel Huniq Hhash. eexists _, _.
  split; [apply (Ingestion.add_URLs_registered _ _ _ _ reg table [] Hreg Hsel)|].
  split; [apply rows_of_with_urls|].
  split; [apply upsert_urls_unique, Huniq|apply Ingestion.upsert_urls_hash_of_url, Hhash].
Qed.

Lemma add_URLs_keeps_table_constraints_witness :
  (tbl_urls_filenames (store (start Sample.two_shards))
     = Some [FilenameRow 1 "list1"; FilenameRow 2 "list2"] ∧
   select_id "list2" [FilenameRow 1 "list1"; FilenameRow 2 "list2"] = [2] ∧
   urls_unique (rows_of (store (start Sample.two_shards)) 2) ∧
   Forall hash_of_url (rows_of (store (start Sample.two_shards)) 2)) ∧
  ∃ w1 rows1,
    add_URLs [Sample.evil; "http://new.example/"; Sample.evil] 200 "list2"
      (start Sample.two_shards) = (Returns (), w1) ∧
    tbl_urls (store w1) !! 2 = Some rows1 ∧
    urls_unique rows1 ∧
    Forall hash_of_url rows1.
Proof.
  assert (H1 : tbl_urls_filenames (store (start Sample.two_shards))
               = Some [FilenameRow 1 "list1"; FilenameRow 2 "list2"]) by reflexivity.
  assert (H2 : select_id "list2" [FilenameRow 1 "list1"; FilenameRow 2 "list2"] = [2])
    by reflexivity.
  assert (Hrows : rows_of (store (start Sample.two_shards)) 2 =
                  [new_url_row 100 "http://good.example/"; new_url_row 100 Sample.evil])
    by (vm_compute; reflexivity).
  assert (H3 : urls_unique (rows_of (store (start Sample.two_shards)) 2)).
  { rewrite Hrows. unfold urls_unique. cbn [fmap list_fmap url new_url_row].
    apply NoDup_cons. split; [not_elem_of_literal|apply NoDup_singleton]. }
  assert (H4 : Forall hash_of_url (rows_of (store (start Sample.two_shards)) 2)).
  { rewrite Hrows. repeat constructor. }
  split; [repeat split; assumption|].
  apply (add_URLs_keeps_table_constraints
           [Sample.evil; "http://new.example/"; Sample.evil] 200 "list2"
           (start Sample.two_shards)
           [FilenameRow 1 "list1"; FilenameRow 2 "list2"] 2 H1 H2 H3 H4).
Defined.

(** X8.  On a database without the registry table, [add_URLs] does not
    raise: the failed lookup is logged, the call returns, and nothing was
    created or written. *)
Theorem add_URLs_without_registry_writes_nothing
    (urls : list string) (updateTime : Z) (filename : string) (w : world) :
  tbl_urls_filenames (store w) = None →
  ∃ w', add_URLs urls updateTime filename w = (Returns (), w') ∧
        store w' = store w ∧
        log w' = log w ++ [NoSuchTable T_urls_filenames] ∧
        sent_since w w' = [SelectIdWhereFilename filename].
Proof.
  intros H. eexists. split; [apply Ingestion.add_URLs_no_registry, H|].
  split; [reflexivity|]. split; [reflexivity|apply sent_since_app].
Qed.

Lemma add_URLs_without_registry_writes_nothing_witness :
  tbl_urls_filenames (store (start empty_db)) = None ∧
  ∃ w', add_URLs [Sample.evil] 100 "list1" (start empty_db) = (Returns (), w') ∧
        store w' = store (start empty_db) ∧
        log w' = log (start empty_db) ++ [NoSuchTable T_urls_filenames] ∧
        sent_since (start empty_db) w' = [SelectIdWhereFilename "list1"].
Proof.
  assert (H1 : tbl_urls_filenames (store (start empty_db)) = None) by reflexivity.
  split; [exact H1|].
  apply (add_URLs_without_registry_writes_nothing [Sample.evil] 100 "list1"
           (start empty_db) H1).
Defined.

End Upserts.

(** ** The status updaters, further *)

Module Updates.

Section FanOut.

Variable col : column.
Variable t : Z.
Variable urls : list string.

Lemma update_where_url_in_idempotent (rows : list url_row) :
  update_where_url_in col t urls (update_where_url_in col t urls rows) =
  update_where_url_in col t urls rows.
Proof.
  unfold update_where_url_in. rewrite <- list_fmap_compose.
  apply list_fmap_ext. intros _ r _. cbn.
  destruct (decide (url r ∈ urls)) as [Hin|Hnin].
  - assert (Hurl : url (set_column col (Some t) r) = url r) by (destruct col; reflexivity).
    rewrite Hurl, decide_True by exact Hin. destruct col; reflexivity.
  - rewrite decide_False by exact Hnin. reflexivity.
Qed.

Lemma update_where_url_in_rows (rows : list url_row) :
  Forall2 (updated_row col t urls) rows (update_where_url_in col t urls rows).
Proof.
  unfold update_where_url_in. induction rows as [|r rows IH]; [constructor|].
  rewrite fmap_cons. constructor; [|exact IH].
  unfold updated_row. destruct (decide (url r ∈ urls)) as [Hin|Hnin].
  - destruct col; repeat split; try reflexivity;
      intros c Hc; destruct c; try reflexivity; contradiction.
  - repeat split; reflexivity.
Qed.

Lemma missing_tables_one (i : Z) (m : gmap Z (list url_row)) :
  missing_tables m [i] =
  match m !! i with
  | Some _ => []
  | None => [NoSuchTable (T_urls i)]
  end.
Proof.
  unfold missing_tables. rewrite filter_cons, filter_nil.
  destruct (decide (m !! i = None)) as [E|E].
  - rewrite E. reflexivity.
  - destruct (m !! i); [reflexivity|contradiction].
Qed.

Lemma update_tables_one (i : Z) (m : gmap Z (list url_row)) :
  update_tables col t urls [i] m =
  match m !! i with
  | Some rows => <[i := update_where_url_in col t urls rows]> m
  | None => m
  end.
Proof. reflexivity. Qed.

(** One shard of the fan-out: the table is rewritten when it is there, the
    error is logged when it is not, and the call returns either way. *)
Lemma update_shard_run (i : Z) (w : world) :
  batch_fits urls →
  update_shard col (length urls) t urls i w =
  (Returns (),
   World (with_tables (store w) (update_tables col t urls [i] (tbl_urls (store w))))
         (log w ++ missing_tables (tbl_urls (store w)) [i])
         (sent w ++ update_stmts col t urls [i])).
Proof.
  intros Hfits. unfold batch_fits in Hfits.
  rewrite missing_tables_one, update_tables_one.
  unfold update_shard, try_except_Error, with_conn, execute_update.
  unfold_M. unfold with_tables, update_stmts.
  rewrite decide_False by lia.
  destruct w as [[f p m] lg st]. cbn [store log sent tbl_urls fmap list_fmap].
  destruct (m !! i) as [rows|] eqn:E.
  - rewrite decide_True by reflexivity. cbn. rewrite app_nil_r. reflexivity.
  - reflexivity.
Qed.

Lemma update_tables_cons (i : Z) (tables : list Z) (m : gmap Z (list url_row)) :
  update_tables col t urls (i :: tables) m =
  update_tables col t urls tables (update_tables col t urls [i] m).
Proof. reflexivity. Qed.

Lemma lookup_update_one (i j : Z) (m : gmap Z (list url_row)) :
  update_tables col t urls [i] m !! j =
  if decide (j = i) then update_where_url_in col t urls <$> m !! j else m !! j.
Proof.
  rewrite update_tables_one.
  destruct (decide (j = i)) as [->|Hne].
  - destruct (m !! i) as [rows|] eqn:E.
    + rewrite lookup_insert_eq. reflexivity.
    + rewrite E. reflexivity.
  - destruct (m !! i) as [rows|]; [|reflexivity].
    apply lookup_insert_ne. congruence.
Qed.

(** A table of the fan-out is rewritten once, however often its id occurs;
    a table outside it is not touched; an absent table stays absent. *)
Lemma lookup_update_tables (tables : list Z) :
  ∀ (m : gmap Z (list url_row)) (j : Z),
    update_tables col t urls tables m !! j =
    if decide (j ∈ tables) then update_where_url_in col t urls <$> m !! j else m !! j.
Proof.
  induction tables as [|i tables IH]; intros m j.
  - rewrite decide_False by apply not_elem_of_nil. reflexivity.
  - rewrite update_tables_cons, IH, lookup_update_one.
    destruct (decide (j = i)) as [->|Hne].
    + rewrite (decide_True (P := i ∈ i :: tables)) by apply list_elem_of_here.
      destruct (decide (i ∈ tables)); [|reflexivity].
      destruct (m !! i) as [rows|]; [|reflexivity].
      cbn. rewrite update_where_url_in_idempotent. reflexivity.
    + destruct (decide (j ∈ tables)) as [Hin|Hnin].
      * rewrite decide_True by (apply list_elem_of_further, Hin). reflexivity.
      * rewrite decide_False; [reflexivity|].
        rewrite not_elem_of_cons. split; assumption.
Qed.

Lemma missing_tables_update_one (i : Z) (tables : list Z) (m : gmap Z (list url_row)) :
  missing_tables (update_tables col t urls [i] m) tables = missing_tables m tables.
Proof.
  unfold missing_tables. f_equal. apply list_filter_iff. intros j.
  rewrite lookup_update_one. destruct (decide (j = i)); [|reflexivity].
  destruct (m !! j); cbn; split; congruence.
Qed.

(** One shard when the batch does not fit: the statement is refused, the
    error logged, and the call returns with the store as it was. *)
Lemma update_shard_refused (i : Z) (w : world) :
  ¬ batch_fits urls →
  update_shard col (length urls) t urls i w =
  (Returns (),
   World (store w) (log w ++ refused_updates [i]) (sent w ++ update_stmts col t urls [i])).
Proof.
  intros Hover. unfold batch_fits in Hover.
  unfold update_shard, try_except_Error, with_conn, execute_update.
  unfold_M. rewrite decide_True by lia.
  destruct w as [d lg st]. reflexivity.
Qed.

Lemma fan_out_refused (tables : list Z) :
  ¬ batch_fits urls →
  ∀ w : world,
    for_each tables (update_shard col (length urls) t urls) w =
    (Returns (),
     World (store w) (log w ++ refused_updates tables)
           (sent w ++ update_stmts col t urls tables)).
Proof.
  intros Hover. induction tables as [|i tables IH]; intros w.
  - cbn. unfold_M. rewrite !app_nil_r. destruct w as [d lg st]. reflexivity.
  - rewrite for_each_cons, update_shard_refused, IH by exact Hover.
    cbn [store log sent]. rewrite <- !app_assoc. reflexivity.
Qed.

Lemma fan_out_run (tables : list Z) :
  batch_fits urls →
  ∀ w : world,
    for_each tables (update_shard col (length urls) t urls) w =
    (Returns (),
     World (with_tables (store w) (update_tables col t urls tables (tbl_urls (store w))))
           (log w ++ missing_tables (tbl_urls (store w)) tables)
           (sent w ++ update_stmts col t urls tables)).
Proof.
  intros Hfits. induction tables as [|i tables IH]; intros w.
  - cbn. unfold_M. rewrite !app_nil_r. destruct w as [[f p m] lg st]. reflexivity.
  - rewrite for_each_cons, update_shard_run, IH by exact Hfits.
    cbn [store log sent with_tables tbl_urls tbl_urls_filenames tbl_maliciousHashPrefixes].
    rewrite missing_tables_update_one, <- update_tables_cons, <- !app_assoc.
    f_equal. f_equal.
    unfold missing_tables. rewrite (filter_cons _ i tables), filter_cons, filter_nil.
    destruct (decide (tbl_urls (store w) !! i = None)); reflexivity.
Qed.

(** What the fan-out leaves, said of any store with a registry. *)
Lemma fan_out_effect (tables : list Z) (w : world) :
  batch_fits urls →
  ∃ w',
    for_each tables (update_shard col (length urls) t urls) w = (Returns (), w') ∧
    (∀ i rows, i ∈ tables → tbl_urls (store w) !! i = Some rows →
       ∃ rows', tbl_urls (store w') !! i = Some rows' ∧
                Forall2 (updated_row col t urls) rows rows') ∧
    (∀ i, i ∉ tables → tbl_urls (store w') !! i = tbl_urls (store w) !! i) ∧
    (∀ i, tbl_urls (store w) !! i = None → tbl_urls (store w') !! i = None) ∧
    tbl_urls_filenames (store w') = tbl_urls_filenames (store w) ∧
    tbl_maliciousHashPrefixes (store w') = tbl_maliciousHashPrefixes (store w) ∧
    log w' = log w ++ missing_tables (tbl_urls (store w)) tables ∧
    sent w' = sent w ++ update_stmts col t urls tables.
Proof.
  intros Hfits.
  eexists. split; [apply fan_out_run, Hfits|].
  cbn [store log sent with_tables tbl_urls tbl_urls_filenames tbl_maliciousHashPrefixes].
  split.
  { intros i rows Hi Hrows. rewrite lookup_update_tables, decide_True, Hrows by exact Hi.
    eexists. split; [reflexivity|apply update_where_url_in_rows]. }
  split.
  { intros i Hi. rewrite lookup_update_tables, decide_False by exact Hi. reflexivity. }
  split; [|repeat split].
  intros i Hnone. rewrite lookup_update_tables, Hnone. destruct (decide (i ∈ tables)); reflexivity.
Qed.

(** Going over the same shards once more rewrites nothing. *)
Lemma update_tables_again (tables : list Z) (m : gmap Z (list url_row)) :
  update_tables col t urls tables (update_tables col t urls tables m) =
  update_tables col t urls tables m.
Proof.
  apply map_eq. intros j. rewrite !lookup_update_tables.
  destruct (decide (j ∈ tables)); [|reflexivity].
  destruct (m !! j) as [rows|]; [|reflexivity].
  cbn. rewrite update_where_url_in_idempotent. reflexivity.
Qed.

End FanOut.

(** X9.  With the registry present, the vendor ["Google"] or ["Yandex"] and
    a batch of fewer than 32766 urls (the timestamp and the urls are within
    SQLite's limit of variables in one statement),
    [update_malicious_URLs] returns.  In every registered shard whose table
    exists the rows stay the same rows in the same order, and a row changes
    only if its url is in the batch and then only in the vendor's column,
    which becomes the call's timestamp; no row is added for a url the shard
    does not hold.  A registered shard without a table is logged and skipped,
    the shards after it are still updated; unregistered tables, the registry
    and the prefix index are not touched. *)
Theorem update_malicious_URLs_sets_vendor_column
    (malicious_urls : list string) (updateTime : Z) (vendor : string) (col : column)
    (w : world) (reg : list filename_row) :
  tbl_urls_filenames (store w) = Some reg →
  vendorToColumn vendor = Some col →
  batch_fits malicious_urls →
  ∃ w',
    update_malicious_URLs malicious_urls updateTime vendor w = (Returns (), w') ∧
    (∀ i rows, i ∈ id <$> reg → tbl_urls (store w) !! i = Some rows →
       ∃ rows', tbl_urls (store w') !! i = Some rows' ∧
                Forall2 (updated_row col updateTime malicious_urls) rows rows') ∧
    (∀ i, i ∉ id <$> reg → tbl_urls (store w') !! i = tbl_urls (store w) !! i) ∧
    (∀ i, tbl_urls (store w) !! i = None → tbl_urls (store w') !! i = None) ∧
    tbl_urls_filenames (store w') = tbl_urls_filenames (store w) ∧
    tbl_maliciousHashPrefixes (store w') = tbl_maliciousHashPrefixes (store w) ∧
    log w' = log w ++ missing_tables (tbl_urls (store w)) (id <$> reg).
Proof.
  intros Hreg Hcol Hfits.
  rewrite (StatusUpdater.update_malicious_URLs_fan_out _ _ _ col w reg Hreg Hcol).
  destruct (fan_out_effect col updateTime malicious_urls (id <$> reg) (sends [SelectIds] w)
              Hfits)
    as [w' [Hrun [H1 [H2 [H3 [H4 [H5 [H6 _]]]]]]]].
  exists w'. split; [exact Hrun|]. repeat split; assumption.
Qed.

Lemma update_malicious_URLs_sets_vendor_column_witness :
  (tbl_urls_filenames (store (start Sample.two_shards))
     = Some [FilenameRow 1 "list1"; FilenameRow 2 "list2"] ∧
   vendorToColumn "Yandex" = Some C_lastYandexMalicious ∧
   batch_fits [Sample.evil]) ∧
  ∃ w',
    update_malicious_URLs [Sample.evil] 200 "Yandex" (start Sample.two_shards)
      = (Returns (), w') ∧
    (∀ i rows, i ∈ id <$> [FilenameRow 1 "list1"; FilenameRow 2 "list2"] →
       tbl_urls (store (start Sample.two_shards)) !! i = Some rows →
       ∃ rows', tbl_urls (store w') !! i = Some rows' ∧
                Forall2 (updated_row C_lastYandexMalicious 200 [Sample.evil]) rows rows').
Proof.
  assert (H1 : tbl_urls_filenames (store (start Sample.two_shards))
               = Some [FilenameRow 1 "list1"; FilenameRow 2 "list2"]) by reflexivity.
  assert (H2 : vendorToColumn "Yandex" = Some C_lastYandexMalicious) by reflexivity.
  assert (H3 : batch_fits [Sample.evil]) by (vm_compute; discriminate).
  split; [repeat split; assumption|].
  destruct (update_malicious_URLs_sets_vendor_column [Sample.evil] 200 "Yandex"
              C_lastYandexMalicious (start Sample.two_shards)
              [FilenameRow 1 "list1"; FilenameRow 2 "list2"] H1 H2 H3)
    as [w' [Hrun [Hrows _]]].
  exists w'. split; assumption.
Defined.

(** A url held by two shards, confirmed: both rows get the timestamp, the
    other url of the second shard does not. *)
Example update_malicious_URLs_two_shards :
  tbl_urls (store (snd (update_malicious_URLs [Sample.evil] 200 "Yandex"
                          (start Sample.two_shards)))) =
  {[ 1 := [UrlRow Sample.evil (Some 100) None (Some 200) None
                  (compute_url_hash Sample.evil)];
     2 := [new_url_row 100 "http://good.example/";
           UrlRow Sample.evil (Some 100) None (Some 200) None
                  (compute_url_hash Sample.evil)] ]}.
Proof. vm_compute. reflexivity. Qed.

(** X10.  With the registry present and a batch of fewer than 32766 urls
    (the timestamp and the urls are within SQLite's limit of variables in
    one statement), [update_activity_URLs] returns.  In
    every registered shard whose table exists the rows stay the same rows in
    the same order, and a row changes only if its url is in the batch and
    then only in [lastReachable], which becomes the call's timestamp; no row
    is added.  A registered shard without a table is logged and skipped, the
    shards after it are still updated; unregistered tables, the registry and
    the prefix index are not touched. *)
Theorem update_activity_URLs_sets_lastReachable
    (alive_urls : list string) (updateTime : Z) (w : world) (reg : list filename_row) :
  tbl_urls_filenames (store w) = Some reg →
  batch_fits alive_urls →
  ∃ w',
    update_activity_URLs alive_urls updateTime w = (Returns (), w') ∧
    (∀ i rows, i ∈ id <$> reg → tbl_urls (store w) !! i = Some rows →
       ∃ rows', tbl_urls (store w') !! i = Some rows' ∧
                Forall2 (updated_row C_lastReachable updateTime alive_urls) rows rows') ∧
    (∀ i, i ∉ id <$> reg → tbl_urls (store w') !! i = tbl_urls (store w) !! i) ∧
    (∀ i, tbl_urls (store w) !! i = None → tbl_urls (store w') !! i = None) ∧
    tbl_urls_filenames (store w') = tbl_urls_filenames (store w) ∧
    tbl_maliciousHashPrefixes (store w') = tbl_maliciousHashPrefixes (store w) ∧
    log w' = log w ++ missing_tables (tbl_urls (store w)) (id <$> reg).
Proof.
  intros Hreg Hfits.
  rewrite (StatusUpdater.update_activity_URLs_fan_out _ _ w reg Hreg).
  destruct (fan_out_effect C_lastReachable updateTime alive_urls (id <$> reg)
              (sends [SelectIds] w) Hfits)
    as [w' [Hrun [H1 [H2 [H3 [H4 [H5 [H6 _]]]]]]]].
  exists w'. split; [exact Hrun|]. repeat split; assumption.
Qed.

Lemma update_activity_URLs_sets_lastReachable_witness :
  (tbl_urls_filenames (store (start Sample.second_shard_only))
     = Some [FilenameRow 1 "list1"; FilenameRow 2 "list2"] ∧
   batch_fits [Sample.evil]) ∧
  ∃ w',
    update_activity_URLs [Sample.evil] 200 (start Sample.second_shard_only)
      = (Returns (), w') ∧
    (∀ i rows, i ∈ id <$> [FilenameRow 1 "list1"; FilenameRow 2 "list2"] →
       tbl_urls (store (start Sample.second_shard_only)) !! i = Some rows →
       ∃ rows', tbl_urls (store w') !! i = Some rows' ∧
                Forall2 (updated_row C_lastReachable 200 [Sample.evil]) rows rows') ∧
    log w' = log (start Sample.second_shard_only) ++
             missing_tables (tbl_urls (store (start Sample.second_shard_only)))
               (id <$> [FilenameRow 1 "list1"; FilenameRow 2 "list2"]).
Proof.
  assert (H1 : tbl_urls_filenames (store (start Sample.second_shard_only))
               = Some [FilenameRow 1 "list1"; FilenameRow 2 "list2"]) by reflexivity.
  assert (H2 : batch_fits [Sample.evil]) by (vm_compute; discriminate).
  split; [split; assumption|].
  destruct (update_activity_URLs_sets_lastReachable [Sample.evil] 200
              (start Sample.second_shard_only)
              [FilenameRow 1 "list1"; FilenameRow 2 "list2"] H1 H2)
    as [w' [Hrun [Hrows [_ [_ [_ [_ Hlog]]]]]]].
  exists w'. repeat split; assumption.
Defined.

(** The first shard has no table: it is logged, and the second shard is
    updated all the same. *)
Example update_activity_URLs_skips_missing_shard :
  update_activity_URLs [Sample.evil] 200 (start Sample.second_shard_only) =
  (Returns (),
   World (Db (Some [FilenameRow 1 "list1"; FilenameRow 2 "list2"])
             (Some [prefix_entry "Google" Sample.evil_prefix])
             {[ 2 := [UrlRow Sample.evil (Some 100) None None (Some 200)
                             (compute_url_hash Sample.evil)] ]})
         [NoSuchTable (T_urls 1)]
         [SelectIds; UpdateWhereUrlIn 1 C_lastReachable 1 200 [Sample.evil];
          UpdateWhereUrlIn 2 C_lastReachable 1 200 [Sample.evil]]).
Proof. vm_compute. reflexivity. Qed.

(** X11.  Both updaters are idempotent on the store: with the registry
    present (and a known vendor), a second call with the same arguments
    returns again and leaves every table as the first call left it. *)
Theorem updaters_idempotent
    (urls : list string) (updateTime : Z) (vendor : string) (col : column)
    (w : world) (reg : list filename_row) :
  tbl_urls_filenames (store w) = Some reg →
  vendorToColumn vendor = Some col →
  (∃ w1 w2,
     update_malicious_URLs urls updateTime vendor w = (Returns (), w1) ∧
     update_malicious_URLs urls updateTime vendor w1 = (Returns (), w2) ∧
     store w2 = store w1) ∧
  (∃ w1 w2,
     update_activity_URLs urls updateTime w = (Returns (), w1) ∧
     update_activity_URLs urls updateTime w1 = (Returns (), w2) ∧
     store w2 = store w1).
Proof.
  intros Hreg Hcol.
  destruct (decide (batch_fits urls)) as [Hfits|Hover].
  - split.
    + eexists _, _.
      split; [rewrite (StatusUpdater.update_malicious_URLs_fan_out _ _ _ col w reg Hreg Hcol);
              apply fan_out_run, Hfits|].
      split; [erewrite StatusUpdater.update_malicious_URLs_fan_out;
              [apply fan_out_run, Hfits|exact Hreg|exact Hcol]|].
      cbn [store log sent with_tables sends tbl_urls tbl_urls_filenames
           tbl_maliciousHashPrefixes].
      unfold with_tables. cbn. rewrite update_tables_again. reflexivity.
    + eexists _, _.
      split; [rewrite (StatusUpdater.update_activity_URLs_fan_out _ _ w reg Hreg);
              apply fan_out_run, Hfits|].
      split; [erewrite StatusUpdater.update_activity_URLs_fan_out;
              [apply fan_out_run, Hfits|exact Hreg]|].
      cbn [store log sent with_tables sends tbl_urls tbl_urls_filenames
           tbl_maliciousHashPrefixes].
      unfold with_tables. cbn. rewrite update_tables_again. reflexivity.
  - split.
    + eexists _, _.
      split; [rewrite (StatusUpdater.update_malicious_URLs_fan_out _ _ _ col w reg Hreg Hcol);
              apply fan_out_refused, Hover|].
      split; [erewrite StatusUpdater.update_malicious_URLs_fan_out;
              [apply fan_out_refused, Hover|exact Hreg|exact Hcol]|].
      reflexivity.
    + eexists _, _.
      split; [rewrite (StatusUpdater.update_activity_URLs_fan_out _ _ w reg Hreg);
              apply fan_out_refused, Hover|].
      split; [erewrite StatusUpdater.update_activity_URLs_fan_out;
              [apply fan_out_refused, Hover|exact Hreg]|].
      reflexivity.
Qed.

Lemma updaters_idempotent_witness :
  (tbl_urls_filenames (store (start Sample.two_shards))
     = Some [FilenameRow 1 "list1"; FilenameRow 2 "list2"] ∧
   vendorToColumn "Google" = Some C_lastGoogleMalicious) ∧
  (∃ w1 w2,
     update_malicious_URLs [Sample.evil] 200 "Google" (start Sample.two_shards)
       = (Returns (), w1) ∧
     update_malicious_URLs [Sample.evil] 200 "Google" w1 = (Returns (), w2) ∧
     store w2 = store w1) ∧
  (∃ w1 w2,
     update_activity_URLs [Sample.evil] 200 (start Sample.two_shards) = (Returns (), w1) ∧
     update_activity_URLs [Sample.evil] 200 w1 = (Returns (), w2) ∧
     store w2 = store w1).
Proof.
  assert (H1 : tbl_urls_filenames (store (start Sample.two_shards))
               = Some [FilenameRow 1 "list1"; FilenameRow 2 "list2"]) by reflexivity.
  assert (H2 : vendorToColumn "Google" = Some C_lastGoogleMalicious) by reflexivity.
  split; [split; assumption|].
  apply (updaters_idempotent [Sample.evil] 200 "Google" C_lastGoogleMalicious
           (start Sample.two_shards)
           [FilenameRow 1 "list1"; FilenameRow 2 "list2"] H1 H2).
Defined.



End Updates.

(** ** The prefix index and the matcher, further *)

Module Matching.

(** X12.  On a database without the prefix index table,
    [add_maliciousHashPrefixes] does not raise: the failed [DELETE] is
    logged, the call returns, and no prefix was stored. *)
Theorem add_maliciousHashPrefixes_without_index_writes_nothing
    (hash_prefixes : list bytes) (V : string) (w : world) :
  tbl_maliciousHashPrefixes (store w) = None →
  ∃ w', add_maliciousHashPrefixes hash_prefixes V w = (Returns (), w') ∧
        store w' = store w ∧
        log w' = log w ++ [NoSuchTable T_maliciousHashPrefixes] ∧
        sent_since w w' = [DeletePrefixesWhereVendor V].
Proof.
  intros H. eexists. split; [apply PrefixIndex.add_maliciousHashPrefixes_no_table, H|].
  split; [reflexivity|]. split; [reflexivity|apply sent_since_app].
Qed.

Lemma add_maliciousHashPrefixes_without_index_writes_nothing_witness :
  tbl_maliciousHashPrefixes (store (start Sample.no_index)) = None ∧
  ∃ w', add_maliciousHashPrefixes [Sample.evil_prefix] "Google" (start Sample.no_index)
          = (Returns (), w') ∧
        store w' = store (start Sample.no_index) ∧
        log w' = log (start Sample.no_index) ++ [NoSuchTable T_maliciousHashPrefixes] ∧
        sent_since (start Sample.no_index) w' = [DeletePrefixesWhereVendor "Google"].
Proof.
  assert (H1 : tbl_maliciousHashPrefixes (store (start Sample.no_index)) = None)
    by reflexivity.
  split; [exact H1|].
  apply (add_maliciousHashPrefixes_without_index_writes_nothing
           [Sample.evil_prefix] "Google" (start Sample.no_index) H1).
Defined.

(** X13.  [add_maliciousHashPrefixes] keeps the index well formed: if every
    entry's [prefixSize] was its prefix's byte length before, it is so
    afterwards.  With an empty collection it removes every entry of the
    vendor, whose set of distinct prefix sizes is then empty. *)
Theorem add_maliciousHashPrefixes_keeps_sizes_exact
    (hash_prefixes : list bytes) (V : string) (w : world) (rows : list prefix_row) :
  tbl_maliciousHashPrefixes (store w) = Some rows →
  prefix_sizes_exact rows →
  ∃ w' rows',
    add_maliciousHashPrefixes hash_prefixes V w = (Returns (), w') ∧
    tbl_maliciousHashPrefixes (store w') = Some rows' ∧
    prefix_sizes_exact rows' ∧
    (hash_prefixes = [] →
       filter (λ p, vendor p = V) rows' = [] ∧ distinct_prefixSizes V rows' = []).
Proof.
  intros Hrows Hexact. eexists _, _.
  split; [apply (PrefixIndex.add_maliciousHashPrefixes_run _ _ _ rows Hrows)|].
  split; [reflexivity|].
  split; [apply PrefixIndex.replace_prefixes_sizes_exact, Hexact|].
  intros ->. unfold distinct_prefixSizes.
  rewrite PrefixIndex.replace_prefixes_vendor. split; reflexivity.
Qed.

Lemma add_maliciousHashPrefixes_keeps_sizes_exact_witness :
  (tbl_maliciousHashPrefixes (store (start Sample.one_shard_listed))
     = Some [prefix_entry "Google" Sample.evil_prefix] ∧
   prefix_sizes_exact [prefix_entry "Google" Sample.evil_prefix]) ∧
  ∃ w' rows',
    add_maliciousHashPrefixes [] "Google" (start Sample.one_shard_listed)
      = (Returns (), w') ∧
    tbl_maliciousHashPrefixes (store w') = Some rows' ∧
    prefix_sizes_exact rows' ∧
    filter (λ p, vendor p = "Google") rows' = [] ∧
    distinct_prefixSizes "Google" rows' = [].
Proof.
  assert (H1 : tbl_maliciousHashPrefixes (store (start Sample.one_shard_listed))
               = Some [prefix_entry "Google" Sample.evil_prefix]) by reflexivity.
  assert (H2 : prefix_sizes_exact [prefix_entry "Google" Sample.evil_prefix])
    by (constructor; [reflexivity|constructor]).
  split; [split; assumption|].
  destruct (add_maliciousHashPrefixes_keeps_sizes_exact [] "Google"
              (start Sample.one_shard_listed)
              [prefix_entry "Google" Sample.evil_prefix] H1 H2)
    as [w' [rows' [Hrun [Hrows [Hexact Hempty]]]]].
  destruct (Hempty eq_refl) as [Hnone Hsizes].
  exists w', rows'. repeat split; assumption.
Defined.

Section Scan.

Variable v : string.

(** A query of the matcher changes nothing but the list of statements
    sent, and if it fails it fails with an [apsw.Error]. *)
Lemma extend_with_join_shape (i n : Z) (acc : list string) (w : world) :
  ∃ acc' o w',
    extend_with (execute_select_url_join i n v) acc w = (acc', o, w') ∧
    store w' = store w ∧ log w' = log w ∧
    (o = Returns () ∨ ∃ e, o = Raises (Error e)).
Proof.
  unfold extend_with, execute_select_url_join. unfold_M. cbn [store log sent].
  destruct (tbl_urls (store w) !! i) as [rows|];
    destruct (tbl_maliciousHashPrefixes (store w)) as [prefixes|];
    eexists _, _, _; (split; [reflexivity|]); cbn; eauto.
Qed.

Lemma scan_sizes_shape (i : Z) (sizes : list Z) :
  ∀ (acc : list string) (w : world),
    ∃ acc' o w',
      scan_sizes v sizes i acc w = (acc', o, w') ∧
      store w' = store w ∧ log w' = log w ∧
      (o = Returns () ∨ ∃ e, o = Raises (Error e)).
Proof.
  unfold scan_sizes. induction sizes as [|n sizes IH]; intros acc w.
  - eexists _, _, _. split; [reflexivity|]. auto.
  - cbn [for_growing].
    destruct (extend_with_join_shape i n acc w) as [acc1 [o1 [w1 [-> [Hs [Hl Ho]]]]]].
    destruct Ho as [->|[e ->]].
    + destruct (IH acc1 w1) as [acc2 [o2 [w2 [-> [Hs2 [Hl2 Ho2]]]]]].
      eexists _, _, _. split; [reflexivity|].
      split; [congruence|]. split; [congruence|exact Ho2].
    + eexists _, _, _. split; [reflexivity|]. eauto.
Qed.

Lemma scan_tables_shape (sizes : list Z) (tables : list Z) :
  ∀ (acc : list string) (w : world),
    ∃ acc' o w',
      scan_tables v sizes tables acc w = (acc', o, w') ∧
      store w' = store w ∧ log w' = log w ∧
      (o = Returns () ∨ ∃ e, o = Raises (Error e)).
Proof.
  unfold scan_tables. induction tables as [|i tables IH]; intros acc w.
  - eexists _, _, _. split; [reflexivity|]. auto.
  - cbn [for_growing].
    destruct (scan_sizes_shape i sizes acc w) as [acc1 [o1 [w1 [-> [Hs [Hl Ho]]]]]].
    destruct Ho as [->|[e ->]].
    + destruct (IH acc1 w1) as [acc2 [o2 [w2 [-> [Hs2 [Hl2 Ho2]]]]]].
      eexists _, _, _. split; [reflexivity|].
      split; [congruence|]. split; [congruence|exact Ho2].
    + eexists _, _, _. split; [reflexivity|]. eauto.
Qed.

(** Without a prefix size no shard is queried. *)
Lemma scan_tables_no_sizes (tables : list Z) :
  ∀ (acc : list string) (w : world),
    scan_tables v [] tables acc w = (acc, Returns (), w).
Proof.
  unfold scan_tables, scan_sizes.
  induction tables as [|i tables IH]; intros acc w; [reflexivity|].
  cbn [for_growing]. apply IH.
Qed.

(** The matcher's way through its first two statements. *)
Lemma identify_no_index (w : world) :
  tbl_maliciousHashPrefixes (store w) = None →
  identify_suspected_urls v w =
  (Raises UnboundLocalError,
   World (store w) (log w ++ [NoSuchTable T_maliciousHashPrefixes])
         (sent w ++ [SelectDistinctPrefixSize v])).
Proof.
  intros H. unfold identify_suspected_urls, identify_suspected_urls_try,
    execute_select_distinct_prefixSize.
  unfold_M. cbn [store log sent]. rewrite H. reflexivity.
Qed.

Lemma identify_no_registry (w : world) (prefixes : list prefix_row) :
  tbl_maliciousHashPrefixes (store w) = Some prefixes →
  tbl_urls_filenames (store w) = None →
  identify_suspected_urls v w =
  (Raises UnboundLocalError,
   World (store w) (log w ++ [NoSuchTable T_urls_filenames])
         (sent w ++ [SelectDistinctPrefixSize v; SelectIds])).
Proof.
  intros Hpre Hreg. unfold identify_suspected_urls, identify_suspected_urls_try,
    execute_select_distinct_prefixSize.
  unfold_M. cbn [store log sent]. rewrite Hpre.
  match goal with |- context [get_urls_tables ?w1] =>
    rewrite (get_urls_tables_no_registry w1 Hreg) end.
  cbn [store log sent]. rewrite <- app_assoc. reflexivity.
Qed.

Lemma identify_scan (w : world) (prefixes : list prefix_row) (reg : list filename_row) :
  tbl_maliciousHashPrefixes (store w) = Some prefixes →
  tbl_urls_filenames (store w) = Some reg →
  ∀ acc o w3,
    scan_tables v (distinct_prefixSizes v prefixes) (id <$> reg) []
      (sends [SelectDistinctPrefixSize v; SelectIds] w) = (acc, o, w3) →
    (o = Returns () ∨ ∃ e, o = Raises (Error e)) →
    ∃ w', identify_suspected_urls v w = (Returns acc, w') ∧ store w' = store w3.
Proof.
  intros Hpre Hreg acc o w3 Hscan Ho.
  unfold identify_suspected_urls, identify_suspected_urls_try,
    execute_select_distinct_prefixSize.
  unfold_M. cbn [store log sent]. rewrite Hpre.
  match goal with |- context [get_urls_tables ?w1] =>
    rewrite (get_urls_tables_run w1 reg Hreg) end.
  unfold sends in *. cbn [store log sent] in *. rewrite <- app_assoc. cbn [app].
  rewrite Hscan.
  destruct Ho as [->|[e ->]]; eexists; (split; [reflexivity|]); reflexivity.
Qed.

End Scan.

(** X14.  Without the prefix index table, or with it but without the
    registry table, [identify_suspected_urls] does not return a list: it logs
    the failed read and raises [UnboundLocalError], with the store
    untouched. *)
Theorem identify_suspected_urls_raises_without_tables (V : string) (w : world) :
  tbl_maliciousHashPrefixes (store w) = None ∨ tbl_urls_filenames (store w) = None →
  ∃ e w',
    identify_suspected_urls V w = (Raises UnboundLocalError, w') ∧
    store w' = store w ∧
    log w' = log w ++ [NoSuchTable e] ∧
    (e = T_maliciousHashPrefixes ∨ e = T_urls_filenames).
Proof.
  intros H.
  destruct (tbl_maliciousHashPrefixes (store w)) as [prefixes|] eqn:Hpre.
  - destruct H as [H|H]; [discriminate|].
    eexists _, _. split; [apply (identify_no_registry V w prefixes Hpre H)|].
    split; [reflexivity|]. split; [reflexivity|]. right. reflexivity.
  - eexists _, _. split; [apply (identify_no_index V w Hpre)|].
    split; [reflexivity|]. split; [reflexivity|]. left. reflexivity.
Qed.

Lemma identify_suspected_urls_raises_without_tables_witness :
  (tbl_maliciousHashPrefixes (store (start Sample.no_index)) = None ∨
   tbl_urls_filenames (store (start Sample.no_index)) = None) ∧
  ∃ e w',
    identify_suspected_urls "Google" (start Sample.no_index)
      = (Raises UnboundLocalError, w') ∧
    store w' = store (start Sample.no_index) ∧
    log w' = log (start Sample.no_index) ++ [NoSuchTable e] ∧
    (e = T_maliciousHashPrefixes ∨ e = T_urls_filenames).
Proof.
  assert (H1 : tbl_maliciousHashPrefixes (store (start Sample.no_index)) = None ∨
               tbl_urls_filenames (store (start Sample.no_index)) = None)
    by (left; reflexivity).
  split; [exact H1|].
  apply (identify_suspected_urls_raises_without_tables "Google" (start Sample.no_index) H1).
Defined.

(** X15.  [identify_suspected_urls] only reads: whatever the store and
    however the call ends, the store afterwards is the store before.  With
    the prefix index and the registry present it never raises: it returns a
    list, whatever state the shard tables are in. *)
Theorem identify_suspected_urls_only_reads (V : string) (w : world) :
  store (snd (identify_suspected_urls V w)) = store w ∧
  (is_Some (tbl_maliciousHashPrefixes (store w)) →
   is_Some (tbl_urls_filenames (store w)) →
   ∃ result, fst (identify_suspected_urls V w) = Returns result).
Proof.
  destruct (tbl_maliciousHashPrefixes (store w)) as [prefixes|] eqn:Hpre.
  - destruct (tbl_urls_filenames (store w)) as [reg|] eqn:Hreg.
    + destruct (scan_tables_shape V (distinct_prefixSizes V prefixes) (id <$> reg) []
                  (sends [SelectDistinctPrefixSize V; SelectIds] w))
        as [acc [o [w3 [Hscan [Hs [_ Ho]]]]]].
      destruct (identify_scan V w prefixes reg Hpre Hreg acc o w3 Hscan Ho)
        as [w' [Hrun Hstore]].
      rewrite Hrun. cbn [fst snd]. split; [rewrite Hstore, Hs; reflexivity|]. eauto.
    + rewrite (identify_no_registry V w prefixes Hpre Hreg). cbn [fst snd].
      split; [reflexivity|]. intros _ [x Hx]. discriminate Hx.
  - rewrite (identify_no_index V w Hpre). cbn [fst snd].
    split; [reflexivity|]. intros [x Hx]. discriminate Hx.
Qed.

(** X16.  When the vendor has no prefix in the index,
    [identify_suspected_urls] returns the empty list without querying any
    shard and without logging anything, even if shard tables are absent. *)
Theorem identify_suspected_urls_without_prefixes
    (V : string) (w : world) (prefixes : list prefix_row) (reg : list filename_row) :
  tbl_maliciousHashPrefixes (store w) = Some prefixes →
  tbl_urls_filenames (store w) = Some reg →
  (∀ p, p ∈ prefixes → vendor p ≠ V) →
  ∃ w',
    identify_suspected_urls V w = (Returns [], w') ∧
    store w' = store w ∧ log w' = log w ∧
    sent_since w w' = [SelectDistinctPrefixSize V; SelectIds].
Proof.
  intros Hpre Hreg Hnone.
  assert (Hsizes : distinct_prefixSizes V prefixes = []).
  { unfold distinct_prefixSizes.
    replace (filter (λ p, vendor p = V) prefixes) with (@nil prefix_row); [reflexivity|].
    symmetry. clear Hpre. induction prefixes as [|p ps IH]; [reflexivity|].
    rewrite filter_cons_False by (apply Hnone, list_elem_of_here).
    apply IH. intros q Hq. apply Hnone, list_elem_of_further, Hq. }
  unfold identify_suspected_urls, identify_suspected_urls_try,
    execute_select_distinct_prefixSize.
  unfold_M. cbn [store log sent]. rewrite Hpre.
  match goal with |- context [get_urls_tables ?w1] =>
    rewrite (get_urls_tables_run w1 reg Hreg) end.
  rewrite Hsizes, scan_tables_no_sizes.
  eexists. split; [reflexivity|].
  split; [reflexivity|]. split; [reflexivity|].
  unfold sends. cbn [store log sent]. rewrite <- app_assoc. apply sent_since_app.
Qed.

Lemma identify_suspected_urls_without_prefixes_witness :
  (tbl_maliciousHashPrefixes (store (start Sample.second_shard_only))
     = Some [prefix_entry "Google" Sample.evil_prefix] ∧
   tbl_urls_filenames (store (start Sample.second_shard_only))
     = Some [FilenameRow 1 "list1"; FilenameRow 2 "list2"] ∧
   (∀ p, p ∈ [prefix_entry "Google" Sample.evil_prefix] → vendor p ≠ "Yandex")) ∧
  ∃ w',
    identify_suspected_urls "Yandex" (start Sample.second_shard_only) = (Returns [], w') ∧
    store w' = store (start Sample.second_shard_only) ∧
    log w' = log (start Sample.second_shard_only) ∧
    sent_since (start Sample.second_shard_only) w'
      = [SelectDistinctPrefixSize "Yandex"; SelectIds].
Proof.
  assert (H1 : tbl_maliciousHashPrefixes (store (start Sample.second_shard_only))
               = Some [prefix_entry "Google" Sample.evil_prefix]) by reflexivity.
  assert (H2 : tbl_urls_filenames (store (start Sample.second_shard_only))
               = Some [FilenameRow 1 "list1"; FilenameRow 2 "list2"]) by reflexivity.
  assert (H3 : ∀ p, p ∈ [prefix_entry "Google" Sample.evil_prefix] → vendor p ≠ "Yandex").
  { intros p Hp. apply list_elem_of_singleton in Hp. subst p. discriminate. }
  split; [repeat split; assumption|].
  apply (identify_suspected_urls_without_prefixes "Yandex"
           (start Sample.second_shard_only) [prefix_entry "Google" Sample.evil_prefix]
           [FilenameRow 1 "list1"; FilenameRow 2 "list2"] H1 H2 H3).
Defined.

End Matching.

(** ** How the operations compose *)

Module Composition.

(** X17.  Replacing a vendor's prefixes and then matching: on a store with
    the prefix index and with every registered shard's table, the call of
    [add_maliciousHashPrefixes] followed by [identify_suspected_urls] for
    the same vendor returns, without logging an error, a list that holds a
    url exactly when some shard table stores it with a hash that starts with
    one of the prefixes just given.  What the index held for the vendor
    before plays no part, nor do the other vendors' entries. *)
Theorem replace_then_identify
    (V : string) (P : list bytes) (w : world) (rows0 : list prefix_row) :
  tbl_maliciousHashPrefixes (store w) = Some rows0 →
  shards_created (store w) →
  ∃ result w',
    (add_maliciousHashPrefixes P V;; identify_suspected_urls V) w = (Returns result, w') ∧
    log w' = log w ∧
    ∀ u, u ∈ result ↔
         ∃ h p, stored_in_shard (store w) u h ∧ p ∈ P ∧ p `prefix_of` h.
Proof.
  intros Hrows [reg [Hreg Hall]].
  pose proof (PrefixIndex.add_maliciousHashPrefixes_run P V w rows0 Hrows) as Hadd.
  set (prefixes := replace_prefixes V P rows0) in *.
  match type of Hadd with _ = (_, ?w1) => set (w1' := w1) in * end.
  pose proof (SuspectMatcher.identify_suspected_urls_run V prefixes w1' reg
                eq_refl Hreg Hall) as Hrun.
  eexists _, _. split.
  { unfold_M. rewrite Hadd. exact Hrun. }
  split; [reflexivity|].
  intros u. rewrite SuspectMatcher.elem_of_suspects_of. split.
  - intros [i [n [r [p' [Hi [Hn [Hr [Hp' [[Hsub Hv] Hu]]]]]]]]].
    assert (Hent : p' ∈ prefix_entry V <$> P).
    { rewrite <- (PrefixIndex.replace_prefixes_vendor V P rows0).
      apply list_elem_of_filter. split; assumption. }
    apply list_elem_of_fmap in Hent as [p [-> Hp]].
    exists (hash r), p. split; [|split; [exact Hp|]].
    + destruct (Hall i Hi) as [rows Hlook].
      change (rows_of (store w1') i) with (rows_of (store w) i) in Hr.
      unfold rows_of in Hr. rewrite Hlook in Hr.
      exists reg, i, rows, r. eauto 10.
    + cbn in Hsub. rewrite <- Hsub. apply prefix_take.
  - intros [h [p [[reg' [i [rows [r [Hreg' [Hi [Hlook [Hr [Hu Hh]]]]]]]]] [Hp [k Hk]]]]].
    rewrite Hreg in Hreg'. injection Hreg' as <-.
    exists i, (Z.of_nat (length p)), r, (prefix_entry V p).
    assert (Hent : prefix_entry V p ∈ prefixes).
    { unfold prefixes, replace_prefixes. apply elem_of_app. right.
      apply list_elem_of_fmap. exists p. auto. }
    split; [exact Hi|]. split.
    { apply SuspectMatcher.elem_of_distinct_prefixSizes.
      exists (prefix_entry V p). auto. }
    split.
    { change (rows_of (store w1') i) with (rows_of (store w) i).
      unfold rows_of. rewrite Hlook. exact Hr. }
    split; [exact Hent|]. split; [|exact Hu].
    split; [|reflexivity].
    cbn. unfold substring1. rewrite Nat2Z.id, Hh, Hk. apply take_app_length.
Qed.

Lemma replace_then_identify_witness :
  (tbl_maliciousHashPrefixes (store (start Sample.two_shards))
     = Some [prefix_entry "Google" Sample.evil_prefix] ∧
   shards_created (store (start Sample.two_shards))) ∧
  ∃ result w',
    (add_maliciousHashPrefixes [take 2 (compute_url_hash "http://good.example/")] "Google";;
     identify_suspected_urls "Google") (start Sample.two_shards) = (Returns result, w') ∧
    log w' = log (start Sample.two_shards) ∧
    ∀ u, u ∈ result ↔
         ∃ h p, stored_in_shard (store (start Sample.two_shards)) u h ∧
                p ∈ [take 2 (compute_url_hash "http://good.example/")] ∧ p `prefix_of` h.
Proof.
  assert (H1 : tbl_maliciousHashPrefixes (store (start Sample.two_shards))
               = Some [prefix_entry "Google" Sample.evil_prefix]) by reflexivity.
  assert (H2 : shards_created (store (start Sample.two_shards))).
  { exists [FilenameRow 1 "list1"; FilenameRow 2 "list2"]. split; [reflexivity|].
    intros i Hi. cbn [fmap list_fmap id] in Hi.
    apply elem_of_cons in Hi as [->|Hi];
      [|apply list_elem_of_singleton in Hi; subst i];
      eexists; vm_compute; reflexivity. }
  split; [split; assumption|].
  apply (replace_then_identify "Google"
           [take 2 (compute_url_hash "http://good.example/")]
           (start Sample.two_shards) [prefix_entry "Google" Sample.evil_prefix] H1 H2).
Defined.

(** The old Google prefix matched the sample url in both shards; after the
    replacement only the url whose hash starts with the new prefix is
    returned. *)
Example replace_then_identify_run :
  fst ((add_maliciousHashPrefixes [take 2 (compute_url_hash "http://good.example/")] "Google";;
        identify_suspected_urls "Google") (start Sample.two_shards))
  = Returns ["http://good.example/"] ∧
  fst (identify_suspected_urls "Google" (start Sample.two_shards))
  = Returns [Sample.evil; Sample.evil].
Proof. split; vm_compute; reflexivity. Qed.

Section SameView.

Variable v : string.

Lemma select_url_join_same_key (n : Z) (prefixes : list prefix_row)
    (rows rows' : list url_row) :
  Forall2 same_key rows rows' →
  select_url_join n v rows prefixes = select_url_join n v rows' prefixes.
Proof.
  assert (Hrow : ∀ r r', same_key r r' → ∀ ps : list prefix_row,
             (ps ≫= λ p, if decide (join_where n v r p) then [url r] else []) =
             (ps ≫= λ p, if decide (join_where n v r' p) then [url r'] else [])).
  { intros r r' [Hurl Hhash] ps. induction ps as [|p ps IHp]; [reflexivity|].
    rewrite !bind_cons, IHp. f_equal.
    destruct (decide (join_where n v r p)) as [H1|H1],
             (decide (join_where n v r' p)) as [H2|H2].
    - rewrite Hurl. reflexivity.
    - exfalso. apply H2. unfold join_where in *. rewrite <- Hhash. exact H1.
    - exfalso. apply H1. unfold join_where in *. rewrite Hhash. exact H2.
    - reflexivity. }
  unfold select_url_join. induction 1 as [|r r' rows rows' Hkey _ IH]; [reflexivity|].
  rewrite !bind_cons, IH, (Hrow r r' Hkey). reflexivity.
Qed.

Lemma extend_with_join_same_view (i n : Z) (acc : list string) (w w' : world) :
  same_match_view (store w) (store w') →
  ∃ acc1 o w1 w1',
    extend_with (execute_select_url_join i n v) acc w = (acc1, o, w1) ∧
    extend_with (execute_select_url_join i n v) acc w' = (acc1, o, w1') ∧
    store w1 = store w ∧ store w1' = store w'.
Proof.
  intros [_ [Hpre Htab]]. specialize (Htab i).
  unfold extend_with, execute_select_url_join. unfold_M. cbn [store log sent].
  rewrite <- Hpre.
  destruct Htab as [rows rows' Hrows|].
  - destruct (tbl_maliciousHashPrefixes (store w)) as [prefixes|].
    + rewrite (select_url_join_same_key n prefixes rows rows' Hrows).
      eexists _, _, _, _. repeat split; reflexivity.
    + eexists _, _, _, _. repeat split; reflexivity.
  - eexists _, _, _, _. repeat split; reflexivity.
Qed.

Lemma scan_sizes_same_view (i : Z) (sizes : list Z) :
  ∀ (acc : list string) (w w' : world),
    same_match_view (store w) (store w') →
    ∃ acc1 o w1 w1',
      scan_sizes v sizes i acc w = (acc1, o, w1) ∧
      scan_sizes v sizes i acc w' = (acc1, o, w1') ∧
      store w1 = store w ∧ store w1' = store w'.
Proof.
  unfold scan_sizes. induction sizes as [|n sizes IH]; intros acc w w' Hview.
  - eexists _, _, _, _. repeat split; reflexivity.
  - cbn [for_growing].
    destruct (extend_with_join_same_view i n acc w w' Hview)
      as [acc1 [o [w1 [w1' [-> [-> [Hs Hs']]]]]]].
    destruct o as [[]|e].
    + destruct (IH acc1 w1 w1') as [acc2 [o2 [w2 [w2' [-> [-> [Hs2 Hs2']]]]]]].
      { rewrite Hs, Hs'. exact Hview. }
      eexists _, _, _, _. repeat split; congruence.
    + eexists _, _, _, _. repeat split; assumption.
Qed.

Lemma scan_tables_same_view (sizes : list Z) (tables : list Z) :
  ∀ (acc : list string) (w w' : world),
    same_match_view (store w) (store w') →
    ∃ acc1 o w1 w1',
      scan_tables v sizes tables acc w = (acc1, o, w1) ∧
      scan_tables v sizes tables acc w' = (acc1, o, w1') ∧
      store w1 = store w ∧ store w1' = store w'.
Proof.
  unfold scan_tables. induction tables as [|i tables IH]; intros acc w w' Hview.
  - eexists _, _, _, _. repeat split; reflexivity.
  - cbn [for_growing].
    destruct (scan_sizes_same_view i sizes acc w w' Hview)
      as [acc1 [o [w1 [w1' [-> [-> [Hs Hs']]]]]]].
    destruct o as [[]|e].
    + destruct (IH acc1 w1 w1') as [acc2 [o2 [w2 [w2' [-> [-> [Hs2 Hs2']]]]]]].
      { rewrite Hs, Hs'. exact Hview. }
      eexists _, _, _, _. repeat split; congruence.
    + eexists _, _, _, _. repeat split; assumption.
Qed.

(** The matcher tells two stores apart only by their registries, their
    prefix indexes and the urls and hashes of their shard tables. *)
Lemma identify_same_view (w w' : world) :
  same_match_view (store w) (store w') →
  fst (identify_suspected_urls v w) = fst (identify_suspected_urls v w').
Proof.
  intros Hview. pose proof Hview as [Hreg [Hpre _]].
  destruct (tbl_maliciousHashPrefixes (store w)) as [prefixes|] eqn:Hp.
  - destruct (tbl_urls_filenames (store w)) as [reg|] eqn:Hr.
    + destruct (scan_tables_same_view (distinct_prefixSizes v prefixes) (id <$> reg) []
                  (sends [SelectDistinctPrefixSize v; SelectIds] w)
                  (sends [SelectDistinctPrefixSize v; SelectIds] w') Hview)
        as [acc [o [w1 [w1' [Hscan [Hscan' _]]]]]].
      destruct (Matching.scan_tables_shape v (distinct_prefixSizes v prefixes)
                  (id <$> reg) [] (sends [SelectDistinctPrefixSize v; SelectIds] w))
        as [acc0 [o0 [w0 [Hscan0 [_ [_ Ho]]]]]].
      rewrite Hscan in Hscan0. injection Hscan0 as <- <- <-.
      destruct (Matching.identify_scan v w prefixes reg Hp Hr acc o w1 Hscan Ho)
        as [x [-> _]].
      destruct (Matching.identify_scan v w' prefixes reg (eq_sym Hpre) (eq_sym Hreg)
                  acc o w1' Hscan' Ho) as [x' [-> _]].
      reflexivity.
    + rewrite (Matching.identify_no_registry v w prefixes Hp Hr).
      rewrite (Matching.identify_no_registry v w' prefixes (eq_sym Hpre) (eq_sym Hreg)).
      reflexivity.
  - rewrite (Matching.identify_no_index v w Hp).
    rewrite (Matching.identify_no_index v w' (eq_sym Hpre)). reflexivity.
Qed.

End SameView.

Lemma same_key_rows_refl (rows : list url_row) : Forall2 same_key rows rows.
Proof. induction rows as [|r rows IH]; constructor; [split; reflexivity|exact IH]. Qed.

Lemma same_match_view_refl (d : db) : same_match_view d d.
Proof.
  split; [reflexivity|]. split; [reflexivity|].
  intros i. destruct (tbl_urls d !! i) as [rows|]; constructor. apply same_key_rows_refl.
Qed.

Lemma same_match_view_update_tables (col : column) (t : Z) (urls : list string)
    (tables : list Z) (d : db) :
  same_match_view d (with_tables d (update_tables col t urls tables (tbl_urls d))).
Proof.
  split; [reflexivity|]. split; [reflexivity|].
  intros i. cbn [with_tables tbl_urls]. rewrite Updates.lookup_update_tables.
  destruct (tbl_urls d !! i) as [rows|]; destruct (decide (i ∈ tables));
    cbn; constructor; [|apply same_key_rows_refl].
  eapply Forall2_impl; [apply Updates.update_where_url_in_rows|].
  intros r r' [Hurl [Hhash _]]. split; congruence.
Qed.

(** The store the fan-out of an updater leaves is, to the matcher, the store
    it found: whether the batch went through or was refused. *)
Lemma same_match_view_fan_out (col : column) (t : Z) (urls : list string)
    (tables : list Z) (w : world) :
  same_match_view (store w)
    (store (snd (for_each tables (update_shard col (length urls) t urls) w))).
Proof.
  destruct (decide (batch_fits urls)) as [Hfits|Hover].
  - rewrite Updates.fan_out_run by exact Hfits. apply same_match_view_update_tables.
  - rewrite Updates.fan_out_refused by exact Hover. apply same_match_view_refl.
Qed.

(** X18.  Status updates never change what the matcher returns: with the
    registry present (and a known vendor for [update_malicious_URLs]),
    [identify_suspected_urls] ends after either updater exactly as it would
    have ended before it, with the same list or the same exception, for
    every vendor asked about. *)
Theorem updaters_do_not_change_suspects
    (urls : list string) (updateTime : Z) (vendor : string) (col : column)
    (V : string) (w : world) (reg : list filename_row) :
  tbl_urls_filenames (store w) = Some reg →
  vendorToColumn vendor = Some col →
  fst (identify_suspected_urls V (snd (update_malicious_URLs urls updateTime vendor w)))
    = fst (identify_suspected_urls V w) ∧
  fst (identify_suspected_urls V (snd (update_activity_URLs urls updateTime w)))
    = fst (identify_suspected_urls V w).
Proof.
  intros Hreg Hcol. split.
  - rewrite (StatusUpdater.update_malicious_URLs_fan_out _ _ _ col w reg Hreg Hcol).
    symmetry. apply identify_same_view.
    apply (same_match_view_fan_out col updateTime urls (id <$> reg) (sends [SelectIds] w)).
  - rewrite (StatusUpdater.update_activity_URLs_fan_out _ _ w reg Hreg).
    symmetry. apply identify_same_view.
    apply (same_match_view_fan_out C_lastReachable updateTime urls (id <$> reg)
             (sends [SelectIds] w)).
Qed.

Lemma updaters_do_not_change_suspects_witness :
  (tbl_urls_filenames (store (start Sample.two_shards))
     = Some [FilenameRow 1 "list1"; FilenameRow 2 "list2"] ∧
   vendorToColumn "Google" = Some C_lastGoogleMalicious) ∧
  fst (identify_suspected_urls "Google"
         (snd (update_malicious_URLs [Sample.evil] 200 "Google" (start Sample.two_shards))))
    = fst (identify_suspected_urls "Google" (start Sample.two_shards)) ∧
  fst (identify_suspected_urls "Google"
         (snd (update_activity_URLs [Sample.evil] 200 (start Sample.two_shards))))
    = fst (identify_suspected_urls "Google" (start Sample.two_shards)).
Proof.
  assert (H1 : tbl_urls_filenames (store (start Sample.two_shards))
               = Some [FilenameRow 1 "list1"; FilenameRow 2 "list2"]) by reflexivity.
  assert (H2 : vendorToColumn "Google" = Some C_lastGoogleMalicious) by reflexivity.
  split; [split; assumption|].
  apply (updaters_do_not_change_suspects [Sample.evil] 200 "Google" C_lastGoogleMalicious
           "Google" (start Sample.two_shards)
           [FilenameRow 1 "list1"; FilenameRow 2 "list2"] H1 H2).
Defined.

End Composition.

(** ** From a registry to a store the matcher can scan *)

Module Pipeline.

Lemma register_all_names_unique (names : list string) :
  ∀ reg, NoDup (urls_filename <$> reg) →
         NoDup (urls_filename <$> register_all names reg).
Proof.
  induction names as [|name names IH]; intros reg H; [exact H|].
  rewrite Registry.register_all_cons. apply IH. unfold insert_or_ignore.
  destruct (decide (name ∈ urls_filename <$> reg)) as [Hin|Hnin]; [exact H|].
  rewrite fmap_app. apply NoDup_app. split; [exact H|]. split; [|apply NoDup_singleton].
  intros x Hx Hx'. apply list_elem_of_singleton in Hx'. subst x. exact (Hnin Hx).
Qed.

Section Ingest.

Variable urls_for : string → list string.
Variable t : Z.
Variable reg : list filename_row.

(** Ingesting registered sources one after the other: every call returns,
    tables are only created, and each source's shard has its table in the
    end. *)
Lemma ingest_loop (names : list string) :
  ∀ w : world,
    tbl_urls_filenames (store w) = Some reg →
    (∀ n, n ∈ names → n ∈ urls_filename <$> reg) →
    ∃ w',
      for_each names (λ n, add_URLs (urls_for n) t n) w = (Returns (), w') ∧
      tbl_urls_filenames (store w') = Some reg ∧
      tbl_maliciousHashPrefixes (store w') = tbl_maliciousHashPrefixes (store w) ∧
      log w' = log w ∧
      (∀ i, is_Some (tbl_urls (store w) !! i) → is_Some (tbl_urls (store w') !! i)) ∧
      (∀ n i, n ∈ names → select_id n reg = [i] → is_Some (tbl_urls (store w') !! i)).
Proof.
  induction names as [|n names IH]; intros w Hreg Hall.
  - exists w. split; [reflexivity|]. repeat split; auto.
    intros n i Hn. inversion Hn.
  - destruct (Tables.select_id_registered n reg (Hall n (list_elem_of_here _ _)))
      as [i0 Hsel].
    rewrite for_each_cons,
      (Ingestion.add_URLs_registered (urls_for n) t n w reg i0 [] Hreg Hsel).
    match goal with |- context [for_each names _ ?w1] =>
      destruct (IH w1) as [w' [Hrun [Hreg' [Hpre [Hlog [Hmono Hdone]]]]]];
        [exact Hreg|intros m Hm; apply Hall, list_elem_of_further, Hm|]
    end.
    cbn [store log sent with_urls tbl_urls tbl_urls_filenames
         tbl_maliciousHashPrefixes] in *.
    exists w'. split; [exact Hrun|].
    split; [exact Hreg'|]. split; [exact Hpre|]. split; [exact Hlog|].
    split.
    + intros i Hi. apply Hmono.
      destruct (decide (i = i0)) as [->|Hne].
      * rewrite lookup_insert_eq. eauto.
      * rewrite lookup_insert_ne by congruence. exact Hi.
    + intros m i Hm Hi. apply elem_of_cons in Hm as [->|Hm].
      * rewrite Hsel in Hi. injection Hi as <-.
        apply Hmono. rewrite lookup_insert_eq. eauto.
      * apply (Hdone m i Hm Hi).
Qed.

End Ingest.

(** X19.  Initialising the database with a list of sources and then calling
    [add_URLs] once for each of them (with any urls, also none) returns
    without logging an error and leaves a store in which the registry and
    the prefix index exist and every registered shard has its table, the
    state in which the matcher scans every shard.  It holds from a new
    database file, and from any store whose registry holds no name twice and
    only names of the list. *)
Theorem ingesting_every_source_creates_every_shard
    (names : list string) (urls_for : string → list string) (updateTime : Z) (w : world) :
  registry_within names (store w) →
  ∃ w',
    (initialise_database names;;
     for_each names (λ name, add_URLs (urls_for name) updateTime name)) w
      = (Returns (), w') ∧
    shards_created (store w') ∧
    is_Some (tbl_maliciousHashPrefixes (store w')) ∧
    log w' = log w.
Proof.
  intros Hwithin.
  set (reg0 := default [] (tbl_urls_filenames (store w))).
  assert (Hreg0 : NoDup (urls_filename <$> reg0) ∧
                  ∀ r, r ∈ reg0 → urls_filename r ∈ names).
  { unfold reg0. destruct (tbl_urls_filenames (store w)) as [reg|] eqn:E; cbn.
    - apply (Hwithin reg E).
    - split; [constructor|]. intros r Hr. inversion Hr. }
  destruct Hreg0 as [Hnd0 Hin0].
  set (reg := register_all names reg0).
  assert (Hnd : NoDup (urls_filename <$> reg)) by apply register_all_names_unique, Hnd0.
  assert (Hin : ∀ r, r ∈ reg → urls_filename r ∈ names).
  { unfold reg. destruct (Registry.register_all_appends names reg0) as [added [-> Hadded]].
    intros r Hr. apply elem_of_app in Hr as [Hr|Hr]; [apply Hin0, Hr|apply Hadded, Hr]. }
  unfold_M. rewrite Tables.initialise_database_run. fold reg0. fold reg.
  match goal with |- context [for_each names _ ?w1] =>
    destruct (ingest_loop urls_for updateTime reg names w1)
      as [w' [Hrun [Hreg' [Hpre [Hlog [_ Hdone]]]]]];
      [reflexivity|intros n Hn; apply Tables.elem_of_register_all, Hn|]
  end.
  exists w'. split; [exact Hrun|].
  split.
  - exists reg. split; [exact Hreg'|].
    intros i Hi. apply list_elem_of_fmap in Hi as [r [-> Hr]].
    apply (Hdone (urls_filename r) (id r) (Hin r Hr)).
    apply Tables.select_id_of_row; assumption.
  - split; [rewrite Hpre; cbn; eauto|exact Hlog].
Qed.

Lemma ingesting_every_source_creates_every_shard_witness :
  registry_within ["list2"; "list1"] (store (start Sample.one_shard)) ∧
  ∃ w',
    (initialise_database ["list2"; "list1"];;
     for_each ["list2"; "list1"] (λ name, add_URLs [name] 300 name))
      (start Sample.one_shard) = (Returns (), w') ∧
    shards_created (store w') ∧
    is_Some (tbl_maliciousHashPrefixes (store w')) ∧
    log w' = log (start Sample.one_shard).
Proof.
  assert (H1 : registry_within ["list2"; "list1"] (store (start Sample.one_shard))).
  { intros reg Hreg. injection Hreg as <-. split.
    - cbn [fmap list_fmap urls_filename]. apply NoDup_singleton.
    - intros r Hr. apply list_elem_of_singleton in Hr. subst r.
      cbn [urls_filename]. elem_of_literal. }
  split; [exact H1|].
  apply (ingesting_every_source_creates_every_shard ["list2"; "list1"]
           (λ name, [name]) 300 (start Sample.one_shard) H1).
Defined.

End Pipeline.

(** ** What the matcher never returns *)

Module Soundness.

Section Scan.

Variable v : string.
Variable prefixes : list prefix_row.

Lemma extend_with_join_sound (i n : Z) (acc acc' : list string) (o : outcome unit)
    (w w' : world) :
  tbl_maliciousHashPrefixes (store w) = Some prefixes →
  extend_with (execute_select_url_join i n v) acc w = (acc', o, w') →
  ∀ u, u ∈ acc' → u ∈ acc ∨ from_table v prefixes (store w) [i] u.
Proof.
  intros Hpre. unfold extend_with, execute_select_url_join. unfold_M.
  cbn [store log sent]. rewrite Hpre.
  destruct (tbl_urls (store w) !! i) as [rows|] eqn:Hrows;
    intros H; injection H as <- _ _; intros u Hu; [|left; exact Hu].
  apply elem_of_app in Hu as [Hu|Hu]; [left; exact Hu|right].
  apply SuspectMatcher.elem_of_select_url_join in Hu as [r [p [Hr [Hp [[Hsub Hv] Hurl]]]]].
  exists i, rows, r, p. split; [apply list_elem_of_here|].
  repeat split; try assumption.
  rewrite <- Hsub. apply prefix_take.
Qed.

Lemma from_table_weaken (d : db) (tables tables' : list Z) (u : string) :
  (∀ i, i ∈ tables → i ∈ tables') →
  from_table v prefixes d tables u → from_table v prefixes d tables' u.
Proof.
  intros Hsub [i [rows [r [p [Hi H]]]]]. exists i, rows, r, p. split; [apply Hsub, Hi|exact H].
Qed.

Lemma scan_sizes_sound (i : Z) (sizes : list Z) :
  ∀ (acc acc' : list string) (o : outcome unit) (w w' : world),
    tbl_maliciousHashPrefixes (store w) = Some prefixes →
    scan_sizes v sizes i acc w = (acc', o, w') →
    ∀ u, u ∈ acc' → u ∈ acc ∨ from_table v prefixes (store w) [i] u.
Proof.
  unfold scan_sizes. induction sizes as [|n sizes IH]; intros acc acc' o w w' Hpre H u Hu.
  - cbn in H. injection H as <- _ _. left. exact Hu.
  - cbn [for_growing] in H.
    destruct (Matching.extend_with_join_shape v i n acc w)
      as [acc1 [o1 [w1 [Hstep [Hs [_ Ho]]]]]].
    rewrite Hstep in H.
    pose proof (extend_with_join_sound i n acc acc1 o1 w w1 Hpre Hstep) as Hsound.
    destruct Ho as [->|[e ->]].
    + assert (Hpre1 : tbl_maliciousHashPrefixes (store w1) = Some prefixes)
        by (rewrite Hs; exact Hpre).
      destruct (IH acc1 acc' o w1 w' Hpre1 H u Hu) as [Hin|Hfrom].
      * apply Hsound, Hin.
      * right. rewrite <- Hs. exact Hfrom.
    + injection H as <- _ _. apply Hsound, Hu.
Qed.

Lemma scan_tables_sound (sizes : list Z) (tables : list Z) :
  ∀ (acc acc' : list string) (o : outcome unit) (w w' : world),
    tbl_maliciousHashPrefixes (store w) = Some prefixes →
    scan_tables v sizes tables acc w = (acc', o, w') →
    ∀ u, u ∈ acc' → u ∈ acc ∨ from_table v prefixes (store w) tables u.
Proof.
  unfold scan_tables. induction tables as [|i tables IH];
    intros acc acc' o w w' Hpre H u Hu.
  - cbn in H. injection H as <- _ _. left. exact Hu.
  - cbn [for_growing] in H.
    destruct (Matching.scan_sizes_shape v i sizes acc w)
      as [acc1 [o1 [w1 [Hstep [Hs [_ Ho]]]]]].
    rewrite Hstep in H.
    pose proof (scan_sizes_sound i sizes acc acc1 o1 w w1 Hpre Hstep) as Hsound.
    assert (Hhead : ∀ x, x ∈ acc1 → x ∈ acc ∨ from_table v prefixes (store w) (i :: tables) x).
    { intros x Hx. destruct (Hsound x Hx) as [Hin|Hfrom]; [left; exact Hin|right].
      eapply from_table_weaken; [|exact Hfrom].
      intros j Hj. apply list_elem_of_singleton in Hj. subst j. apply list_elem_of_here. }
    destruct Ho as [->|[e ->]].
    + assert (Hpre1 : tbl_maliciousHashPrefixes (store w1) = Some prefixes)
        by (rewrite Hs; exact Hpre).
      destruct (IH acc1 acc' o w1 w' Hpre1 H u Hu) as [Hin|Hfrom].
      * apply Hhead, Hin.
      * right. rewrite <- Hs. eapply from_table_weaken; [|exact Hfrom].
        intros j Hj. apply list_elem_of_further, Hj.
    + injection H as <- _ _. apply Hhead, Hu.
Qed.

End Scan.

(** X20.  Whatever state the shard tables are in, with the prefix index and
    the registry present [identify_suspected_urls] returns a list, and every
    url in it is held by a row of a registered shard's table whose hash
    starts with a prefix the index holds for the vendor: a scan cut short by
    a missing table may miss suspects but never reports a url that does not
    match. *)
Theorem identify_suspected_urls_sound
    (V : string) (w : world) (prefixes : list prefix_row) (reg : list filename_row) :
  tbl_maliciousHashPrefixes (store w) = Some prefixes →
  tbl_urls_filenames (store w) = Some reg →
  ∃ result w',
    identify_suspected_urls V w = (Returns result, w') ∧
    ∀ u, u ∈ result →
         ∃ h p, stored_in_shard (store w) u h ∧
                p ∈ prefixes ∧ vendor p = V ∧ hashPrefix p `prefix_of` h.
Proof.
  intros Hpre Hreg.
  destruct (Matching.scan_tables_shape V (distinct_prefixSizes V prefixes) (id <$> reg) []
              (sends [SelectDistinctPrefixSize V; SelectIds] w))
    as [acc [o [w3 [Hscan [_ [_ Ho]]]]]].
  destruct (Matching.identify_scan V w prefixes reg Hpre Hreg acc o w3 Hscan Ho)
    as [w' [Hrun _]].
  exists acc, w'. split; [exact Hrun|].
  intros u Hu.
  destruct (scan_tables_sound V prefixes _ _ _ _ _
              (sends [SelectDistinctPrefixSize V; SelectIds] w) _ Hpre Hscan u Hu)
    as [Hin|[i [rows [r [p [Hi [Hrows [Hr [Hurl [Hp [Hv Hpref]]]]]]]]]]]; [inversion Hin|].
  exists (hash r), p. split; [|auto].
  exists reg, i, rows, r. eauto 10.
Qed.

Lemma identify_suspected_urls_sound_witness :
  (tbl_maliciousHashPrefixes (store (start Sample.first_shard_only))
     = Some [prefix_entry "Google" Sample.evil_prefix] ∧
   tbl_urls_filenames (store (start Sample.first_shard_only))
     = Some [FilenameRow 1 "list1"; FilenameRow 2 "list2"]) ∧
  ∃ result w',
    identify_suspected_urls "Google" (start Sample.first_shard_only)
      = (Returns result, w') ∧
    result = [Sample.evil] ∧
    log w' = [NoSuchTable (T_urls 2)] ∧
    ∃ h p, stored_in_shard (store (start Sample.first_shard_only)) Sample.evil h ∧
           p ∈ [prefix_entry "Google" Sample.evil_prefix] ∧
           vendor p = "Google" ∧ hashPrefix p `prefix_of` h.
Proof.
  assert (H1 : tbl_maliciousHashPrefixes (store (start Sample.first_shard_only))
               = Some [prefix_entry "Google" Sample.evil_prefix]) by reflexivity.
  assert (H2 : tbl_urls_filenames (store (start Sample.first_shard_only))
               = Some [FilenameRow 1 "list1"; FilenameRow 2 "list2"]) by reflexivity.
  assert (H3 : ∃ w0, identify_suspected_urls "Google" (start Sample.first_shard_only)
                       = (Returns [Sample.evil], w0) ∧ log w0 = [NoSuchTable (T_urls 2)])
    by (eexists; split; [vm_compute; reflexivity|reflexivity]).
  split; [split; assumption|].
  destruct (identify_suspected_urls_sound "Google" (start Sample.first_shard_only)
              [prefix_entry "Google" Sample.evil_prefix]
              [FilenameRow 1 "list1"; FilenameRow 2 "list2"] H1 H2)
    as [result [w' [Hrun Hsound]]].
  destruct H3 as [w0 [Hrun0 Hlog0]].
  rewrite Hrun0 in Hrun. injection Hrun as <- <-.
  exists [Sample.evil], w0. split; [exact Hrun0|].
  split; [reflexivity|]. split; [exact Hlog0|].
  apply Hsound, list_elem_of_here.
Defined.

(** The scan of the sample store: the first shard gives its url, the second
    has no table, and the url found so far is returned. *)
Example identify_suspected_urls_cut_short :
  fst (identify_suspected_urls "Google" (start Sample.first_shard_only))
    = Returns [Sample.evil] ∧
  fst (identify_suspected_urls "Google" (start Sample.two_shards))
    = Returns [Sample.evil; Sample.evil].
Proof. split; vm_compute; reflexivity. Qed.

End Soundness.
